(** * amc-ber-playground: modem, K=7 convolutional code and BER drivers

    A shallow embedding of [src/ber.cpp] and [src/coding.cpp], followed by
    the properties of the modulator/demodulator, of the convolutional
    encoder and soft-decision Viterbi decoder, and of the BER drivers. *)

From Stdlib Require Import ZArith List Bool Lia Floats QArith Reals Lra Sorted.
From stdpp Require Import base list.
Import ListNotations.

Set Warnings "-inexact-float".
Local Open Scope Z_scope.

(** ** The operations the code applies to [double]

    The C++ code computes with IEEE-754 [double].  The embedding is written
    once, over the interface below, and is read at three instances:
    - [binary64]: the kernel's primitive binary64 floats, i.e. the values
      the compiled program really computes;
    - [ideal]: exact real arithmetic, the meaning the formulas have on
      paper;
    - [integer_metric]: exact integer path metrics, for the decoder alone.
      It is a device of proof, not what the program computes: the
      decoder is first analysed with it, and the result is carried over
      to [binary64] where the two are proved to agree
      ([viterbi_decode_binary64]: integer-valued LLRs whose path metrics
      stay below 2^53). *)

(** What the Viterbi decoder needs of its path metrics. *)
Class Metric (M : Type) : Type := {
  m_zero : M;                       (* the literal 0.0 *)
  NEG_INF : M;                      (* constexpr double NEG_INF = -1e30 *)
  m_add : M -> M -> M;
  m_sub : M -> M -> M;
  m_ltb : M -> M -> bool;           (* a < b; a > b is written m_ltb b a *)
  m_eqb : M -> M -> bool            (* a == b *)
}.

(** What the modem and the drivers need besides. *)
Class Double (D : Type) : Type := {
  double_metric :: Metric D;
  d_mul : D -> D -> D;
  d_div : D -> D -> D;
  d_neg : D -> D;
  of_int : Z -> D;                  (* an integer-valued literal, or static_cast<double> *)
  to_int : D -> Z;                  (* static_cast<int>: truncation *)
  M_SQRT2_INV : D;                  (* 0.7071067811865476 *)
  M_SQRT10_INV : D;                 (* 0.31622776601683794 *)
  code_rate : D;                    (* 0.5 *)
  d_sqrt : D -> D
}.

(** The <cmath> functions of the drivers; they are library code. *)
Class Libm (D : Type) : Type := {
  d_pow : D -> D -> D;
  d_exp : D -> D;
  d_log : D -> D
}.

Definition m_gtb {M} `{Metric M} (a b : M) : bool := m_ltb b a.

(** *** binary64 *)

Definition float_of_Z (z : Z) : float :=
  match z with
  | Z0 => 0%float
  | Zpos _ => PrimFloat.of_uint63 (Uint63.of_Z z)
  | Zneg p => PrimFloat.opp (PrimFloat.of_uint63 (Uint63.of_Z (Zpos p)))
  end.

Definition float_to_Z (f : float) : Z :=
  match Prim2SF f with
  | S754_finite s m e =>
      let v := Z.shiftl (Zpos m) e in if s then - v else v
  | _ => 0
  end.

#[export] Instance binary64_metric : Metric float := {|
  m_zero := 0%float;
  NEG_INF := (-1e30)%float;
  m_add := PrimFloat.add;
  m_sub := PrimFloat.sub;
  m_ltb := PrimFloat.ltb;
  m_eqb := PrimFloat.eqb
|}.

#[export] Instance binary64 : Double float := {|
  double_metric := binary64_metric;
  d_mul := PrimFloat.mul;
  d_div := PrimFloat.div;
  d_neg := PrimFloat.opp;
  of_int := float_of_Z;
  to_int := float_to_Z;
  M_SQRT2_INV := 0.7071067811865476%float;
  M_SQRT10_INV := 0.31622776601683794%float;
  code_rate := 0.5%float;
  d_sqrt := PrimFloat.sqrt
|}.

(** *** exact integers (decoder only) *)

#[export] Instance integer_metric : Metric Z := {|
  m_zero := 0;
  NEG_INF := - 10 ^ 30;
  m_add := Z.add;
  m_sub := Z.sub;
  m_ltb := Z.ltb;
  m_eqb := Z.eqb
|}.

(** *** exact reals *)

Definition R_ltb (a b : R) : bool := if Rlt_dec a b then true else false.
Definition R_eqb (a b : R) : bool := if Req_dec_T a b then true else false.
Definition R_trunc (r : R) : Z :=
  if Rle_dec 0 r then Int_part r else - Int_part (- r).

#[export] Instance ideal_metric : Metric R := {|
  m_zero := 0%R;
  NEG_INF := (- 10 ^ 30)%R;
  m_add := Rplus;
  m_sub := Rminus;
  m_ltb := R_ltb;
  m_eqb := R_eqb
|}.

#[export] Instance ideal : Double R := {|
  double_metric := ideal_metric;
  d_mul := Rmult;
  d_div := Rdiv;
  d_neg := Ropp;
  of_int := IZR;
  to_int := R_trunc;
  M_SQRT2_INV := (/ sqrt 2)%R;
  M_SQRT10_INV := (/ sqrt 10)%R;
  code_rate := (/ 2)%R;
  d_sqrt := sqrt
|}.

#[export] Instance ideal_libm : Libm R := {|
  d_pow := Rpower;
  d_exp := exp;
  d_log := ln
|}.

(** ** Loops *)

(** What one iteration of a loop body asks for: go on, or [break]. *)
Inductive step (S : Type) : Type :=
  | Next (s : S)
  | Break (s : S).
Arguments Next {S} s.
Arguments Break {S} s.

(** [for (i = lo; i < lo + n; ++i) body]. *)
Fixpoint for_break {S : Type} (n : nat) (i : nat)
    (body : nat -> S -> step S) (s : S) : S :=
  match n with
  | O => s
  | Datatypes.S n' =>
      match body i s with
      | Break s' => s'
      | Next s' => for_break n' (Datatypes.S i) body s'
      end
  end.

(** [for (int i = 0; i < n; i++)]: the values [i] takes. *)
Definition range (n : Z) : list Z := map Z.of_nat (seq 0 (Z.to_nat n)).

(** Conversions to [uint8_t] and to [int] (two's complement wrap-around). *)
Definition u8 (z : Z) : Z := Z.land z 255.
Definition INT_MAX : Z := 2147483647.
Definition to_int32 (z : Z) : Z := (z + 2 ^ 31) mod 2 ^ 32 - 2 ^ 31.

(** ** ber.cpp: modulator and demodulator *)

(** [std::complex<double>]: the pair (real, imag). *)
Abbreviation cdouble D := (D * D)%type.

Section Modem.
Context {D : Type} `{Double D}.

Definition scale_qpsk : D := M_SQRT2_INV.
Definition scale_16qam : D := M_SQRT10_INV.

(** [complex * double] and [complex / double] act on each component. *)
Definition c_scale (z : cdouble D) (s : D) : cdouble D :=
  (d_mul (fst z) s, d_mul (snd z) s).
Definition c_unscale (z : cdouble D) (s : D) : cdouble D :=
  (d_div (fst z) s, d_div (snd z) s).
Definition c_add (z w : cdouble D) : cdouble D :=
  (m_add (fst z) (fst w), m_add (snd z) (snd w)).

Definition qam_levels : list D :=
  [of_int 3; of_int 1; of_int (-3); of_int (-1)].

Definition get_level (msb lsb : bool) : D :=
  let index := Z.lor (Z.shiftl (Z.b2z msb) 1) (Z.b2z lsb) in
  nth (Z.to_nat index) qam_levels m_zero.

Definition demod_level (val : D) : D :=
  if m_gtb val (of_int 2) then of_int 3
  else if m_gtb val m_zero then of_int 1
  else if m_gtb val (of_int (-2)) then of_int (-1)
  else of_int (-3).

Definition valid_mod_orders : list Z := [2; 4; 16].

Definition is_valid_mod_order (mod_order : Z) : bool :=
  existsb (Z.eqb mod_order) valid_mod_orders.

(** [static_cast<int>(log2(mod_order))], for [mod_order >= 1]. *)
Definition bits_per_sym_of (mod_order : Z) : Z := Z.log2 mod_order.

Definition modulate_impl (bits : list bool) (mod_order : Z)
    : list (cdouble D) :=
  let bits_per_sym := bits_per_sym_of mod_order in
  let num_sym := (length bits / Z.to_nat bits_per_sym)%nat in
  let symbols := replicate num_sym (m_zero, m_zero) in
  if (num_sym =? 0)%nat then symbols
  else if mod_order =? 2 then
    for_break num_sym 0 (fun i symbols =>
      Next (<[i := if nth i bits false
                   then (of_int (-1), m_zero) else (of_int 1, m_zero)]>
              symbols)) symbols
  else if mod_order =? 4 then
    for_break num_sym 0 (fun i symbols =>
      if (length bits <=? 2 * i + 1)%nat then Break symbols
      else
        let re := if nth (2 * i) bits false then of_int (-1) else of_int 1 in
        let im := if nth (2 * i + 1) bits false then of_int (-1) else of_int 1 in
        Next (<[i := c_scale (re, im) scale_qpsk]> symbols)) symbols
  else if mod_order =? 16 then
    for_break num_sym 0 (fun i symbols =>
      if (length bits <=? 4 * i + 3)%nat then Break symbols
      else
        let re := get_level (nth (4 * i) bits false) (nth (4 * i + 2) bits false) in
        let im := get_level (nth (4 * i + 1) bits false) (nth (4 * i + 3) bits false) in
        Next (<[i := c_scale (re, im) scale_16qam]> symbols)) symbols
  else symbols.

Definition try_modulate (bits : list bool) (mod_order : Z)
    : option (list (cdouble D)) :=
  if negb (is_valid_mod_order mod_order) then None
  else
    let bits_per_sym := bits_per_sym_of mod_order in
    if (length bits <? Z.to_nat bits_per_sym)%nat then None
    else Some (modulate_impl bits mod_order).

Definition modulate (bits : list bool) (mod_order : Z) : list (cdouble D) :=
  match try_modulate bits mod_order with
  | Some result => result
  | None => []
  end.

(** The lambda [level_to_bits] of [demodulate]: (msb, lsb). *)
Definition level_to_bits (level : D) : bool * bool :=
  let l := to_int level in
  if l =? 3 then (false, false)
  else if l =? 1 then (false, true)
  else if l =? -1 then (true, true)
  else (true, false).

Definition demodulate (symbols : list (cdouble D)) (mod_order : Z)
    : list bool :=
  let bits_per_sym := bits_per_sym_of mod_order in
  let num_sym := length symbols in
  let bits := replicate (num_sym * Z.to_nat bits_per_sym) false in
  let sym i := nth i symbols (m_zero, m_zero) in
  if (num_sym =? 0)%nat then bits
  else if mod_order =? 2 then
    for_break num_sym 0 (fun i bits =>
      Next (<[i := m_ltb (fst (sym i)) m_zero]> bits)) bits
  else if mod_order =? 4 then
    for_break num_sym 0 (fun i bits =>
      if (length bits <=? 2 * i + 1)%nat then Break bits
      else
        let y := c_unscale (sym i) scale_qpsk in
        Next (<[(2 * i + 1)%nat := m_ltb (snd y) m_zero]>
                (<[(2 * i)%nat := m_ltb (fst y) m_zero]> bits))) bits
  else if mod_order =? 16 then
    for_break num_sym 0 (fun i bits =>
      if (length bits <=? 4 * i + 3)%nat then Break bits
      else
        let z := c_unscale (sym i) scale_16qam in
        let re_level := demod_level (fst z) in
        let im_level := demod_level (snd z) in
        let '(msb_re, lsb_re) := level_to_bits re_level in
        let bits := <[(4 * i + 2)%nat := lsb_re]> (<[(4 * i)%nat := msb_re]> bits) in
        let '(msb_im, lsb_im) := level_to_bits im_level in
        Next (<[(4 * i + 3)%nat := lsb_im]> (<[(4 * i + 1)%nat := msb_im]> bits))) bits
  else bits.

End Modem.

(** The symbol a group of bits is mapped to, and the bits a symbol is
    decided as: the bodies of the loops above, per symbol. *)
Section PerSymbol.
Context {D : Type} `{Double D}.

Definition bpsk_symbol (b : bool) : cdouble D :=
  if b then (of_int (-1), m_zero) else (of_int 1, m_zero).

Definition qpsk_symbol (b0 b1 : bool) : cdouble D :=
  c_scale (if b0 then of_int (-1) else of_int 1,
           if b1 then of_int (-1) else of_int 1) scale_qpsk.

Definition qam16_symbol (b0 b1 b2 b3 : bool) : cdouble D :=
  c_scale (get_level b0 b2, get_level b1 b3) scale_16qam.

Definition bpsk_bits (s : cdouble D) : list bool := [m_ltb (fst s) m_zero].

Definition qpsk_bits (s : cdouble D) : list bool :=
  let y := c_unscale s scale_qpsk in
  [m_ltb (fst y) m_zero; m_ltb (snd y) m_zero].

Definition qam16_bits (s : cdouble D) : list bool :=
  let z := c_unscale s scale_16qam in
  let re := level_to_bits (demod_level (fst z)) in
  let im := level_to_bits (demod_level (snd z)) in
  [fst re; fst im; snd re; snd im].
End PerSymbol.

(** ** coding.cpp: trellis tables *)

Definition G1 : Z := 0x5b.          (* 0b1011011, 133 octal *)
Definition G2 : Z := 0x79.          (* 0b1111001, 171 octal *)
Definition CONSTRAINT_LENGTH : Z := 7.
Definition NUM_STATES : Z := Z.shiftl 1 (CONSTRAINT_LENGTH - 1).
Definition CODE_RATE_DEN : Z := 2.

Fixpoint pos_popcount (p : positive) : Z :=
  match p with
  | xH => 1
  | xO p' => pos_popcount p'
  | xI p' => 1 + pos_popcount p'
  end.

(** [__builtin_popcount] on a non-negative argument. *)
Definition popcount (z : Z) : Z :=
  match z with
  | Zpos p => pos_popcount p
  | _ => 0
  end.

Definition convolve (data gen : Z) : Z :=
  u8 (Z.land (popcount (Z.land data gen)) 1).

Definition hamming_distance (a b : Z) : Z := u8 (popcount (Z.lxor a b)).

(** [struct ConvState]; each array of two is a list of length two. *)
Record ConvState : Type := {
  next_state : list Z;
  output : list Z;
  prev_state : list Z;
  prev_input : list Z
}.

Definition zero_state : ConvState :=
  {| next_state := [0; 0]; output := [0; 0];
     prev_state := [0; 0]; prev_input := [0; 0] |}.

(** Array reads [a[i]] with [i] a C integer. *)
Definition at_ {A : Type} (d : A) (l : list A) (i : Z) : A :=
  nth (Z.to_nat i) l d.

(** The two file-scope variables of coding.cpp. *)
Record coding_globals : Type := {
  state_table : list ConvState;
  state_table_initialized : bool
}.

(** Static storage is zero-initialised. *)
Definition initial_globals : coding_globals :=
  {| state_table := replicate (Z.to_nat NUM_STATES) zero_state;
     state_table_initialized := false |}.

Definition set_transition (state input next out : Z) (tbl : list ConvState)
    : list ConvState :=
  alter (fun cs =>
    {| next_state := <[Z.to_nat input := next]> (next_state cs);
       output := <[Z.to_nat input := out]> (output cs);
       prev_state := prev_state cs;
       prev_input := prev_input cs |}) (Z.to_nat state) tbl.

Definition set_reverse (state count prev input : Z) (tbl : list ConvState)
    : list ConvState :=
  alter (fun cs =>
    {| next_state := next_state cs;
       output := output cs;
       prev_state := <[Z.to_nat count := u8 prev]> (prev_state cs);
       prev_input := <[Z.to_nat count := u8 input]> (prev_input cs) |})
    (Z.to_nat state) tbl.

Definition init_conv_state_table (g : coding_globals) : coding_globals :=
  if state_table_initialized g then g
  else
    let tbl :=
      fold_left (fun tbl state =>
        fold_left (fun tbl input =>
          let shift_reg := u8 (Z.lor (Z.shiftl input (CONSTRAINT_LENGTH - 1)) state) in
          let out1 := convolve shift_reg G1 in
          let out2 := convolve shift_reg G2 in
          let out := u8 (Z.lor (Z.shiftl out1 1) out2) in
          let next := u8 (Z.shiftr shift_reg 1) in
          set_transition state input next out tbl)
        (range 2) tbl)
      (range NUM_STATES) (state_table g) in
    let tbl :=
      fold_left (fun tbl state =>
        fst (for_break (Z.to_nat NUM_STATES) 0 (fun prev '(tbl, count) =>
          let inner :=
            for_break 2 0 (fun input '(tbl, count) =>
              if at_ 0 (next_state (nth prev tbl zero_state)) (Z.of_nat input) =? state
              then
                let tbl := set_reverse state count (Z.of_nat prev) (Z.of_nat input) tbl in
                let count := count + 1 in
                if 2 <=? count then Break (tbl, count) else Next (tbl, count)
              else Next (tbl, count)) (tbl, count) in
          if 2 <=? snd inner then Break inner else Next inner) (tbl, 0)))
      (range NUM_STATES) tbl in
    {| state_table := tbl; state_table_initialized := true |}.

(** Every entry point calls [init_conv_state_table] before it reads the
    table, and nothing else writes it: the table read is this one. *)
Definition trellis : list ConvState :=
  state_table (init_conv_state_table initial_globals).

Definition trellis_next (state input : Z) : Z :=
  at_ 0 (next_state (at_ zero_state trellis state)) input.

Definition trellis_output (state input : Z) : Z :=
  at_ 0 (output (at_ zero_state trellis state)) input.

(** ** coding.cpp: convolutional encoder *)

(** A pointer argument is [None] when null, else the array it points to. *)

(** One trellis step of the encoder: two coded bits written at
    [coded_idx], [coded_idx + 1], and the state advanced. *)
Definition encode_step (input : Z) (s : list bool * Z * Z)
    : list bool * Z * Z :=
  let '(coded_bits, coded_idx, state) := s in
  let out := trellis_output state input in
  let coded_bits :=
    <[Z.to_nat coded_idx := negb (Z.land (Z.shiftr out 1) 1 =? 0)]> coded_bits in
  let coded_idx := coded_idx + 1 in
  let coded_bits :=
    <[Z.to_nat coded_idx := negb (Z.land out 1 =? 0)]> coded_bits in
  let coded_idx := coded_idx + 1 in
  (coded_bits, coded_idx, trellis_next state input).

(** The two loops of [convolutional_encode]: (buffer, coded_idx, state)
    when the function returns. *)
Definition encode_loops (info_bits : list bool) (info_len : Z)
    (coded_bits : list bool) : list bool * Z * Z :=
  let s := (coded_bits, 0, 0) in
  let s :=
    fold_left (fun s i =>
      let input := if at_ false info_bits i then 1 else 0 in
      encode_step input s) (range info_len) s in
  fold_left (fun s _ => encode_step 0 s) (range (CONSTRAINT_LENGTH - 1)) s.

(** Returns (status, the coded buffer, [*coded_len]). *)
Definition convolutional_encode (info_bits : option (list bool)) (info_len : Z)
    (coded_bits : option (list bool)) (coded_len : option Z)
    : Z * option (list bool) * option Z :=
  match info_bits, coded_bits, coded_len with
  | Some info, Some coded, Some _ =>
      if info_len <=? 0 then (-1, coded_bits, coded_len)
      else
        let total_info_bits := to_int32 (info_len + (CONSTRAINT_LENGTH - 1)) in
        let coded_len' := to_int32 (total_info_bits * CODE_RATE_DEN) in
        let '(coded, _, _) := encode_loops info info_len coded in
        (0, Some coded, Some coded_len')
  | _, _, _ => (-1, coded_bits, coded_len)
  end.

(** The path of an input sequence through the trellis, from [state]: the
    outputs of its branches, and the state it ends in. *)
Fixpoint trellis_outputs (state : Z) (inputs : list Z) : list Z :=
  match inputs with
  | [] => []
  | u :: us => trellis_output state u :: trellis_outputs (trellis_next state u) us
  end.

Definition trellis_walk (state : Z) (inputs : list Z) : Z :=
  fold_left trellis_next inputs state.

(** The two coded bits of a branch output, first the G1 bit. *)
Definition output_bits (out : Z) : list bool :=
  [negb (Z.land (Z.shiftr out 1) 1 =? 0); negb (Z.land out 1 =? 0)].

(** The inputs the encoder feeds the trellis: the info bits, then
    [CONSTRAINT_LENGTH - 1] zeros. *)
Definition encoder_inputs (info : list bool) : list Z :=
  map Z.b2z info ++ replicate (Z.to_nat (CONSTRAINT_LENGTH - 1)) 0.

Definition code_word (info : list bool) : list bool :=
  flat_map output_bits (trellis_outputs 0 (encoder_inputs info)).

(** ** coding.cpp: Viterbi decoder *)

Abbreviation grid A := (list (list A)).

Definition get2 {A : Type} (d : A) (g : grid A) (i j : Z) : A :=
  at_ d (at_ [] g i) j.

Definition set2 {A : Type} (g : grid A) (i j : Z) (v : A) : grid A :=
  alter (fun row => <[Z.to_nat j := v]> row) (Z.to_nat i) g.

Section Viterbi.
Context {M : Type} `{Metric M}.

(** The branch metric: the correlation of the two output bits with the
    two received LLRs. *)
Definition branch_metric (out : Z) (llr0 llr1 : M) : M :=
  let bm := m_zero in
  let bm := if negb (Z.land (Z.shiftr out 1) 1 =? 0)
            then m_add bm llr0 else m_sub bm llr0 in
  if negb (Z.land out 1 =? 0) then m_add bm llr1 else m_sub bm llr1.

(** Add-compare-select for the branch ([state], [input]) of [stage]. *)
Definition acs (llr0 llr1 : M) (stage state input : Z)
    (g : grid M * grid Z) : grid M * grid Z :=
  let '(path_metrics, path_history) := g in
  let next := trellis_next state input in
  let out := trellis_output state input in
  let new_metric :=
    m_add (get2 NEG_INF path_metrics stage state) (branch_metric out llr0 llr1) in
  if m_gtb new_metric (get2 NEG_INF path_metrics (stage + 1) next)
  then (set2 path_metrics (stage + 1) next new_metric,
        set2 path_history (stage + 1) next (u8 (Z.lor (Z.shiftl state 1) input)))
  else g.

Definition forward_state (llr0 llr1 : M) (stage : Z)
    (g : grid M * grid Z) (state : Z) : grid M * grid Z :=
  if m_eqb (get2 NEG_INF (fst g) stage state) NEG_INF then g
  else fold_left (fun g input => acs llr0 llr1 stage state input g) (range 2) g.

Definition forward_stage (received_llr : list M)
    (g : grid M * grid Z) (stage : Z) : grid M * grid Z :=
  let llr0 := at_ m_zero received_llr (2 * stage) in
  let llr1 := at_ m_zero received_llr (2 * stage + 1) in
  fold_left (forward_state llr0 llr1 stage) (range NUM_STATES) g.

Definition forward_pass (received_llr : list M) (num_stages : Z)
    : grid M * grid Z :=
  let path_metrics :=
    replicate (Z.to_nat (num_stages + 1)) (replicate (Z.to_nat NUM_STATES) NEG_INF) in
  let path_history :=
    replicate (Z.to_nat (num_stages + 1)) (replicate (Z.to_nat NUM_STATES) 0) in
  let path_metrics := set2 path_metrics 0 0 m_zero in
  fold_left (forward_stage received_llr) (range num_stages)
    (path_metrics, path_history).

(** One step of the backward pass, at [stage]. *)
Definition traceback_step (path_history : grid Z) (info_len : Z)
    (s : list bool * Z) (stage : Z) : list bool * Z :=
  let '(decoded_bits, current_state) := s in
  let history := get2 0 path_history stage current_state in
  let prev := u8 (Z.shiftr history 1) in
  let input := u8 (Z.land history 1) in
  let decoded_bits :=
    if stage <=? info_len
    then <[Z.to_nat (stage - 1) := (input =? 1)]> decoded_bits
    else decoded_bits in
  (decoded_bits, prev).

(** [for (int stage = num_stages; stage > 0; stage--)]. *)
Definition traceback (path_history : grid Z) (num_stages info_len : Z)
    (decoded_bits : list bool) : list bool * Z :=
  fold_left (traceback_step path_history info_len)
    (map (fun i => num_stages - i) (range num_stages)) (decoded_bits, 0).

(** Returns (status, the decoded buffer, [*decoded_len]). *)
Definition viterbi_decode (received_llr : option (list M)) (received_len : Z)
    (decoded_bits : option (list bool)) (decoded_len : option Z)
    : Z * option (list bool) * option Z :=
  match received_llr, decoded_bits, decoded_len with
  | Some llr, Some decoded, Some _ =>
      if received_len <=? 0 then (-1, decoded_bits, decoded_len)
      else if negb (Z.rem received_len 2 =? 0) then (-2, decoded_bits, decoded_len)
      else
        let num_stages := Z.quot received_len 2 in
        let info_len := num_stages - (CONSTRAINT_LENGTH - 1) in
        if info_len <=? 0 then (-3, decoded_bits, decoded_len)
        else
          let '(_, path_history) := forward_pass llr num_stages in
          let '(decoded, _) := traceback path_history num_stages info_len decoded in
          (0, Some decoded, Some info_len)
  | _, _, _ => (-1, decoded_bits, decoded_len)
  end.

End Viterbi.

(** [hard_to_soft_llr] of the tests: bit [b] becomes the LLR [+c] or [-c]. *)
Definition ideal_llr {M : Type} (c_pos c_neg : M) (coded : list bool) : list M :=
  map (fun b : bool => if b then c_pos else c_neg) coded.

(** ** <random>, as an interface

    The engines and distributions of the standard library are library
    code: they are taken as given.  [random_device] is the state of the
    system's entropy source; everything else is a deterministic function
    of the state it is handed. *)
Class StdRandom (D : Type) : Type := {
  random_device : Type;
  rd_next : random_device -> Z * random_device;         (* rd() *)
  mt19937 : Type;
  mt19937_seed : Z -> mt19937;                          (* mt19937 gen(seed) *)
  mt19937_64 : Type;
  mt19937_64_seed : Z -> mt19937_64;                    (* mt19937_64 gen(seed) *)
  uniform_bit : mt19937 -> bool * mt19937;              (* uniform_int_distribution<int>(0, 1) *)
  uniform_bit_64 : mt19937_64 -> bool * mt19937_64;
  normal_distribution : Type;
  normal_init : D -> D -> normal_distribution;          (* normal_distribution<double>(mean, stddev) *)
  normal_sample : normal_distribution -> mt19937 -> D * normal_distribution * mt19937;
  normal_sample_64 :
    normal_distribution -> mt19937_64 -> D * normal_distribution * mt19937_64
}.

(** An entry point of the library: a computation in the ambient entropy
    source. *)
Definition prog (W A : Type) : Type := W -> A * W.

Definition ret {W A : Type} (a : A) : prog W A := fun w => (a, w).

Definition bind {W A B : Type} (m : prog W A) (k : A -> prog W B) : prog W B :=
  fun w => let '(a, w') := m w in k a w'.

Notation "x <- m ;; k" := (bind m (fun x => k))
  (at level 100, m at next level, right associativity).

(** ** ber.cpp: the BER drivers *)

(** [n] draws from a generator, in order. *)
Fixpoint fill_bits {G : Type} (draw : G -> bool * G) (n : nat) (gen : G)
    : list bool * G :=
  match n with
  | O => ([], gen)
  | Datatypes.S n' =>
      let '(b, gen) := draw gen in
      let '(bits, gen) := fill_bits draw n' gen in
      (b :: bits, gen)
  end.

(** [transform_reduce] with [plus] and [not_equal_to]: the number of
    positions where the two sequences differ. *)
Fixpoint count_mismatch (bits rx_bits : list bool) : Z :=
  match bits, rx_bits with
  | b :: bits', r :: rx' => (if xorb b r then 1 else 0) + count_mismatch bits' rx'
  | _, _ => 0
  end.

(** The double returned by a driver: a sentinel, or the quotient of two
    counts; it is kept as the exact rational it is the rounding of. *)
Definition ber_ratio (errors total : Z) : Q := (inject_Z errors / inject_Z total)%Q.

Section Drivers.
Context {D : Type} `{Double D} `{Libm D} `{StdRandom D}.

Definition db_to_linear (db_value : D) : D :=
  d_pow (of_int 10) (d_div db_value (of_int 10)).

(** [for (auto &s : symbols) s += cdouble(noise_dist(gen), noise_dist(gen))]
    (the first draw is taken for the real part). *)
Definition add_noise {G : Type}
    (sample : normal_distribution -> G -> D * normal_distribution * G)
    (symbols : list (cdouble D)) (noise_dist : normal_distribution) (gen : G)
    : list (cdouble D) * normal_distribution * G :=
  fold_left (fun '(done, noise_dist, gen) s =>
      let '(re, noise_dist, gen) := sample noise_dist gen in
      let '(im, noise_dist, gen) := sample noise_dist gen in
      (done ++ [c_add s (re, im)], noise_dist, gen))
    symbols ([], noise_dist, gen).

Definition compute_ber (mod_order : Z) (snr_db : D) (num_bits : Z)
    : prog random_device Q :=
  if negb (mod_order =? 2) && negb (mod_order =? 4) && negb (mod_order =? 16)
  then ret (-1)%Q
  else if m_ltb snr_db (of_int (-50)) || m_gtb snr_db (of_int 50)
  then ret (-1)%Q
  else
    let bits_per_sym := bits_per_sym_of mod_order in
    let num_bits :=
      if negb (Z.rem num_bits bits_per_sym =? 0)
      then num_bits - Z.rem num_bits bits_per_sym else num_bits in
    if num_bits <=? 0 then ret 0%Q
    else if 100000000 <? num_bits then ret (-1)%Q
    else
      seed <- rd_next ;;
      let gen := mt19937_seed seed in
      bit_seed <- rd_next ;;
      let bit_gen := mt19937_seed bit_seed in
      let bits := fst (fill_bits uniform_bit (Z.to_nat num_bits) bit_gen) in
      let symbols := modulate bits mod_order in
      let ebno_lin := db_to_linear snr_db in
      let esno_lin := d_mul (of_int bits_per_sym) ebno_lin in
      let n0 := d_div (of_int 1) esno_lin in
      let sigma := d_sqrt (d_div n0 (of_int 2)) in
      let noise_dist := normal_init m_zero sigma in
      let symbols := fst (fst (add_noise normal_sample symbols noise_dist gen)) in
      let rx_bits := demodulate symbols mod_order in
      let errors := count_mismatch bits rx_bits in
      ret (ber_ratio errors num_bits).

Definition compute_ber_seeded (mod_order : Z) (snr_db : D) (num_bits : Z)
    (seed : Z) : prog random_device Q :=
  if negb (mod_order =? 2) && negb (mod_order =? 4) && negb (mod_order =? 16)
  then ret (-1)%Q
  else if m_ltb snr_db (of_int (-50)) || m_gtb snr_db (of_int 50)
  then ret (-1)%Q
  else
    let bits_per_sym := bits_per_sym_of mod_order in
    let num_bits :=
      if negb (Z.rem num_bits bits_per_sym =? 0)
      then num_bits - Z.rem num_bits bits_per_sym else num_bits in
    if num_bits <=? 0 then ret 0%Q
    else if 100000000 <? num_bits then ret (-1)%Q
    else
      let gen := mt19937_64_seed seed in
      let '(bits, gen) := fill_bits uniform_bit_64 (Z.to_nat num_bits) gen in
      let symbols := modulate bits mod_order in
      let ebno_lin := db_to_linear snr_db in
      let esno_lin := d_mul (of_int bits_per_sym) ebno_lin in
      let n0 := d_div (of_int 1) esno_lin in
      let sigma := d_sqrt (d_div n0 (of_int 2)) in
      let noise_dist := normal_init m_zero sigma in
      let symbols := fst (fst (add_noise normal_sample_64 symbols noise_dist gen)) in
      let rx_bits := demodulate symbols mod_order in
      let errors := count_mismatch bits rx_bits in
      ret (ber_ratio errors num_bits).

(** *** The coded path *)

(** The three symbol mappers of [compute_ber_coded]. *)
Definition map_coded_symbols (mod_order : Z) (coded_bits : list bool)
    (coded_len : Z) : list (cdouble D) :=
  if mod_order =? 2 then
    fold_left (fun symbols i =>
        symbols ++ [(if at_ false coded_bits i then of_int (-1) else of_int 1, m_zero)])
      (range coded_len) []
  else if mod_order =? 4 then
    (* for (int i = 0; i < coded_len; i += 2) *)
    fold_left (fun symbols k =>
        let i := 2 * k in
        let b0 := at_ false coded_bits i in
        let b1 := at_ false coded_bits (i + 1) in
        let re := if b0 then of_int (-1) else of_int 1 in
        let im := if b1 then of_int (-1) else of_int 1 in
        symbols ++ [(d_mul re scale_qpsk, d_mul im scale_qpsk)])
      (range ((coded_len + 1) / 2)) []
  else
    (* for (int i = 0; i < coded_len; i += 4) *)
    for_break (Z.to_nat ((coded_len + 3) / 4)) 0 (fun k symbols =>
        let i := 4 * Z.of_nat k in
        if coded_len <=? i + 3 then Break symbols
        else
          let b0 := at_ false coded_bits i in
          let b1 := at_ false coded_bits (i + 1) in
          let b2 := at_ false coded_bits (i + 2) in
          let b3 := at_ false coded_bits (i + 3) in
          let re := get_level b0 b2 in
          let im := get_level b1 b3 in
          Next (symbols ++ [(d_mul re scale_16qam, d_mul im scale_16qam)])) [].

(** [std::max(a, b)]. *)
Definition d_max (a b : D) : D := if m_ltb a b then b else a.

(** The lambdas [lse2] and [fill_llrs]: (llr_msb, llr_lsb) of one axis. *)
Definition lse2 (a b : D) : D :=
  let m := d_max a b in
  m_add m (d_log (m_add (d_exp (m_sub a m)) (d_exp (m_sub b m)))).

Definition fill_llrs (two_sigma2 : D) (x : D) : D * D :=
  let levels := [of_int 3; of_int 1; of_int (-3); of_int (-1)] in
  let metric := map (fun level =>
      let d := m_sub x level in d_div (d_neg (d_mul d d)) two_sigma2) levels in
  let mk k := nth k metric m_zero in
  let l_ms0 := lse2 (mk 0%nat) (mk 1%nat) in
  let l_ms1 := lse2 (mk 2%nat) (mk 3%nat) in
  let llr_std_msb := m_sub l_ms0 l_ms1 in
  let l_ls0 := lse2 (mk 0%nat) (mk 2%nat) in
  let l_ls1 := lse2 (mk 1%nat) (mk 3%nat) in
  let llr_std_lsb := m_sub l_ls0 l_ls1 in
  (d_neg llr_std_msb, d_neg llr_std_lsb).

(** The LLR vector: [coded_len] zeros, overwritten per symbol. *)
Definition generate_llr (mod_order : Z) (n0 : D) (symbols : list (cdouble D))
    (coded_len : Z) : list D :=
  let llr := replicate (Z.to_nat coded_len) m_zero in
  let llr_scale := d_div (of_int 2) n0 in
  if mod_order =? 2 then
    fold_left (fun llr i =>
        <[Z.to_nat i := d_mul (d_neg (fst (at_ (m_zero, m_zero) symbols i))) llr_scale]> llr)
      (range coded_len) llr
  else if mod_order =? 4 then
    fst (fold_left (fun '(llr, idx) sym =>
        let llr := <[Z.to_nat idx := d_mul (d_neg (fst sym)) llr_scale]> llr in
        let idx := idx + 1 in
        let llr := <[Z.to_nat idx := d_mul (d_neg (snd sym)) llr_scale]> llr in
        let idx := idx + 1 in
        (llr, idx)) symbols (llr, 0))
  else
    let two_sigma2 := n0 in
    fst (fold_left (fun '(llr, idx) sym =>
        let rI := d_div (fst sym) scale_16qam in
        let rQ := d_div (snd sym) scale_16qam in
        let '(llrI_msb, llrI_lsb) := fill_llrs two_sigma2 rI in
        let '(llrQ_msb, llrQ_lsb) := fill_llrs two_sigma2 rQ in
        let llr := <[Z.to_nat idx := llrI_msb]> llr in
        let idx := idx + 1 in
        let llr := <[Z.to_nat idx := llrQ_msb]> llr in
        let idx := idx + 1 in
        let llr := <[Z.to_nat idx := llrI_lsb]> llr in
        let idx := idx + 1 in
        let llr := <[Z.to_nat idx := llrQ_lsb]> llr in
        let idx := idx + 1 in
        (llr, idx)) symbols (llr, 0)).

(** The four LLRs the 16-QAM branch of [generate_llr] writes for one
    symbol, in the order it writes them. *)
Definition qam16_symbol_llrs (n0 : D) (sym : cdouble D) : list D :=
  let rI := d_div (fst sym) scale_16qam in
  let rQ := d_div (snd sym) scale_16qam in
  [fst (fill_llrs n0 rI); fst (fill_llrs n0 rQ);
   snd (fill_llrs n0 rI); snd (fill_llrs n0 rQ)].

(** After the guards: the simulation proper, for [info_bits_count] info
    bits and [coded_len] coded bits. *)
Definition coded_simulation (mod_order : Z) (snr_db : D)
    (info_bits_count coded_len seed : Z) : Q :=
  let gen := mt19937_seed seed in
  let '(orig_bits, gen) := fill_bits uniform_bit (Z.to_nat info_bits_count) gen in
  let info_arr := orig_bits in
  let coded_arr := replicate (Z.to_nat coded_len) false in
  let '(enc_status, coded_arr, actual_coded_len) :=
    convolutional_encode (Some info_arr) info_bits_count (Some coded_arr) (Some 0) in
  if negb (enc_status =? 0) || negb (default 0 actual_coded_len =? coded_len)
  then (-1)%Q
  else
    let coded_bits := take (Z.to_nat coded_len) (default [] coded_arr) in
    let symbols := map_coded_symbols mod_order coded_bits coded_len in
    let ebno_lin := d_pow (of_int 10) (d_div snr_db (of_int 10)) in
    let coded_bits_per_symbol :=
      if mod_order =? 2 then 1 else if mod_order =? 4 then 2 else 4 in
    let esno_lin := d_mul (d_mul ebno_lin code_rate) (of_int coded_bits_per_symbol) in
    let n0 := d_div (of_int 1) esno_lin in
    let noise_dist := normal_init m_zero (d_sqrt (d_div n0 (of_int 2))) in
    let symbols := fst (fst (add_noise normal_sample symbols noise_dist gen)) in
    let llr := generate_llr mod_order n0 symbols coded_len in
    let decoded_arr := replicate (Z.to_nat info_bits_count) false in
    let '(dec_status, decoded_arr, decoded_len) :=
      viterbi_decode (Some llr) coded_len (Some decoded_arr) (Some 0) in
    let decoded_len := default 0 decoded_len in
    if negb (dec_status =? 0) then inject_Z (-10 - dec_status)
    else if (decoded_len <=? 0) || (info_bits_count <? decoded_len) then (- (3 # 10))%Q
    else
      let cmp_len := Z.min decoded_len info_bits_count in
      let bit_errors :=
        count_mismatch (take (Z.to_nat cmp_len) orig_bits)
          (take (Z.to_nat cmp_len) (default [] decoded_arr)) in
      ber_ratio bit_errors cmp_len.

Definition compute_ber_coded (mod_order : Z) (snr_db : D) (num_bits : Z)
    (seed : Z) : prog random_device Q :=
  if negb (mod_order =? 2) && negb (mod_order =? 4) && negb (mod_order =? 16)
  then compute_ber mod_order snr_db num_bits
  else
    let info_bits_count := to_int32 num_bits in
    let odd16 := (mod_order =? 16) && negb (Z.rem info_bits_count 2 =? 0) in
    let info_bits_count := if odd16 then info_bits_count - 1 else info_bits_count in
    if odd16 && (info_bits_count <=? 0) then ret (- (3 # 20))%Q
    else if info_bits_count <=? 0 then ret (- (1 # 10))%Q
    else
      let constraint_tail := 6 in
      let coded_len := to_int32 (2 * to_int32 (info_bits_count + constraint_tail)) in
      if coded_len <=? 0 then ret (- (1 # 5))%Q
      else if 200000000 <? coded_len then ret (- (1 # 4))%Q
      else ret (coded_simulation mod_order snr_db info_bits_count coded_len seed).

End Drivers.

(** The degenerate generator: every draw is zero, so the channel adds no
    noise.  It makes the drivers run on concrete inputs. *)
#[export] Instance null_random (D : Type) `{Double D} : StdRandom D := {|
  random_device := unit;
  rd_next := fun w => (0, w);
  mt19937 := unit;
  mt19937_seed := fun _ => tt;
  mt19937_64 := unit;
  mt19937_64_seed := fun _ => tt;
  uniform_bit := fun g => (false, g);
  uniform_bit_64 := fun g => (false, g);
  normal_distribution := unit;
  normal_init := fun _ _ => tt;
  normal_sample := fun d g => (m_zero, d, g);
  normal_sample_64 := fun d g => (m_zero, d, g)
|}.

(** A generator that only remembers the parity of its seed: the bits it
    draws are zero and its noise is -5 for an even seed, +5 for an odd
    one.  With it the entropy source decides the outcome of a run. *)
#[export] Instance parity_random (D : Type) `{Double D} : StdRandom D := {|
  random_device := Z;
  rd_next := fun w => (w, w + 1);
  mt19937 := Z;
  mt19937_seed := fun seed => seed;
  mt19937_64 := Z;
  mt19937_64_seed := fun seed => seed;
  uniform_bit := fun g => (false, g);
  uniform_bit_64 := fun g => (false, g);
  normal_distribution := unit;
  normal_init := fun _ _ => tt;
  normal_sample := fun d g => (if Z.odd g then of_int 5 else of_int (-5), d, g);
  normal_sample_64 := fun d g => (if Z.odd g then of_int 5 else of_int (-5), d, g)
|}.

(** <cmath> for binary64 where only the shape of a run matters. *)
Definition flat_libm : Libm float := {|
  d_pow := fun _ _ => 1%float;
  d_exp := fun _ => 1%float;
  d_log := fun _ => 0%float
|}.

(** *** The 16-QAM LLRs as the specification writes them *)

Definition spec_levels : list R := [3; 1; -3; -1]%R.

Definition spec_metric (n0 x : R) (k : nat) : R :=
  (- ((x - nth k spec_levels 0) ^ 2 / n0))%R.

Definition spec_lse2 (a b : R) : R :=
  (Rmax a b + ln (1 + exp (- Rabs (a - b))))%R.

Definition spec_msb_llr (n0 x : R) : R :=
  (- (spec_lse2 (spec_metric n0 x 0) (spec_metric n0 x 1)
      - spec_lse2 (spec_metric n0 x 2) (spec_metric n0 x 3)))%R.

Definition spec_lsb_llr (n0 x : R) : R :=
  (- (spec_lse2 (spec_metric n0 x 0) (spec_metric n0 x 2)
      - spec_lse2 (spec_metric n0 x 1) (spec_metric n0 x 3)))%R.

(** De-normalise by sqrt 10, then (msb_I, msb_Q, lsb_I, lsb_Q). *)
Definition spec_symbol_llrs (n0 : R) (sym : R * R) : list R :=
  let xI := (fst sym * sqrt 10)%R in
  let xQ := (snd sym * sqrt 10)%R in
  [spec_msb_llr n0 xI; spec_msb_llr n0 xQ; spec_lsb_llr n0 xI; spec_lsb_llr n0 xQ].

(** The info bits of [test_convolutional_coding]. *)
Definition test_info : list bool :=
  [true; false; true; true; false; true; false; false; true; true].

(** The state the encoder is in after [s] inputs of [us], and its input
    number [s]. *)
Definition true_state (us : list Z) (s : Z) : Z :=
  trellis_walk 0 (take (Z.to_nat s) us).

Definition true_input (us : list Z) (s : Z) : Z := at_ 0 us s.

(** The byte the forward pass records for the branch ([state], [input]). *)
Definition history_byte (state input : Z) : Z :=
  u8 (Z.lor (Z.shiftl state 1) input).

Definition branch_before (b1 b2 : Z * Z) : Prop :=
  fst b1 < fst b2 \/ (fst b1 = fst b2 /\ snd b1 < snd b2).

(** A grid has [rows] rows of [cols] cells (checked). *)
Definition grid_ok {A : Type} (rows cols : nat) (g : grid A) : bool :=
  (length g =? rows)%nat && forallb (fun row => (length row =? cols)%nat) g.

(** a <= b, as the code would write it: a < b || a == b. *)
Definition m_leb {M : Type} `{Metric M} (a b : M) : bool := m_ltb a b || m_eqb a b.

Section Survivors.
Context {M : Type} `{Metric M}.

(** The branches (state, input) the forward pass examines at [stage], in
    the order it examines them: states upwards, input 0 before input 1,
    the states whose metric is still [NEG_INF] left out. *)
Definition examined_branches (path_metrics : grid M) (stage : Z) : list (Z * Z) :=
  flat_map (fun state =>
      if m_eqb (get2 NEG_INF path_metrics stage state) NEG_INF then []
      else [(state, 0); (state, 1)])
    (range NUM_STATES).

(** The candidate metric of a branch: the metric of its state plus its
    branch metric. *)
Definition candidate (path_metrics : grid M) (llr0 llr1 : M) (stage : Z)
    (b : Z * Z) : M :=
  m_add (get2 NEG_INF path_metrics stage (fst b))
    (branch_metric (trellis_output (fst b) (snd b)) llr0 llr1).

(** What add-compare-select leaves in the cell of next state [x] after the
    forward pass has run [stage] on the grids [g0]: either no examined
    branch into [x] beat the incumbent and the cell is as it was, or the
    cell holds the metric and the history byte of an examined branch into
    [x] that beat the incumbent, such that no examined branch into [x] has
    a greater metric and no examined branch into [x] enumerated before it
    has a greater or an equal metric. *)
Definition survivor_is_first_maximum (received_llr : list M) (stage x : Z)
    (g0 : grid M * grid Z) : Prop :=
  let llr0 := at_ m_zero received_llr (2 * stage) in
  let llr1 := at_ m_zero received_llr (2 * stage + 1) in
  let g := forward_stage received_llr g0 stage in
  let incumbent := get2 NEG_INF (fst g0) (stage + 1) x in
  let metric b := candidate (fst g0) llr0 llr1 stage b in
  let examined b :=
    In b (examined_branches (fst g0) stage)
    /\ trellis_next (fst b) (snd b) = x in
  (get2 NEG_INF (fst g) (stage + 1) x = incumbent
   /\ get2 0 (snd g) (stage + 1) x = get2 0 (snd g0) (stage + 1) x
   /\ forall b, examined b -> m_ltb incumbent (metric b) = false)
  \/ (exists b,
        examined b /\ m_ltb incumbent (metric b) = true
        /\ get2 NEG_INF (fst g) (stage + 1) x = metric b
        /\ get2 0 (snd g) (stage + 1) x = history_byte (fst b) (snd b)
        /\ forall b', examined b' ->
             m_ltb (metric b) (metric b') = false
             /\ (branch_before b' b -> m_leb (metric b) (metric b') = false)).

End Survivors.

(** Binary64 metric grids in which the states 0 and 1 of row 0 both hold
    0.0 and row 1 is still at [NEG_INF]: with zero LLRs the branches
    (0, 1) and (1, 1) enter state 32 with equal candidates. *)
Definition tied_grids : grid float * grid Z :=
  ([replicate 64 0%float; replicate 64 NEG_INF], replicate 2 (replicate 64 0)).

(** The positions at which the sent and the received bit differ. *)
Definition differing_positions (sent received : list bool) : list nat :=
  filter (fun i => xorb (nth i sent false) (nth i received false))
    (seq 0 (length sent)).

(** *** The 16-QAM LLRs by the role of the bit

    The role a bit plays in one 4-PAM axis of a 16-QAM symbol: the first
    argument of [get_level] (msb) or the second (lsb). *)
Inductive bit_role : Type := Msb | Lsb.

Section BitLlr.
Context {D : Type} `{Double D} `{Libm D}.

(** The level of the axis on which [b] plays [role] and [other] the
    other role. *)
Definition level_with (role : bit_role) (b other : bool) : D :=
  match role with
  | Msb => get_level b other
  | Lsb => get_level other b
  end.

(** -(x - l)^2 / N0. *)
Definition pam_metric (n0 x level : D) : D :=
  d_div (d_neg (d_mul (m_sub x level) (m_sub x level))) n0.

(** log (exp a + exp b), computed around the greater of the two. *)
Definition log_sum_exp (a b : D) : D :=
  let m := if m_ltb a b then b else a in
  m_add m (d_log (m_add (d_exp (m_sub a m)) (d_exp (m_sub b m)))).

(** The LLR of the bit in [role], for the axis value [x]: minus the
    difference of the log-sum-exp over the two levels where the bit is 0
    and the log-sum-exp over the two levels where the bit is 1. *)
Definition bit_llr (n0 : D) (role : bit_role) (x : D) : D :=
  d_neg (m_sub
    (log_sum_exp (pam_metric n0 x (level_with role false false))
                 (pam_metric n0 x (level_with role false true)))
    (log_sum_exp (pam_metric n0 x (level_with role true false))
                 (pam_metric n0 x (level_with role true true)))).

End BitLlr.

(** Position [r] of a group of four coded bits: its axis (0, 2 on I;
    1, 3 on Q), its role (0, 1 msb; 2, 3 lsb) and the position of the
    other bit of its axis. *)
Definition axis_of {D : Type} (r : nat) (sym : cdouble D) : D :=
  if Nat.even r then fst sym else snd sym.
Definition role_of (r : nat) : bit_role := if (r <? 2)%nat then Msb else Lsb.
Definition partner_of (r : nat) : nat := ((r + 2) mod 4)%nat.

(** ** coding.cpp: the encoder as a function, weights of code words *)

(** The coded bits [convolutional_encode] writes for [info] into a fresh
    buffer of 2 (L + 6) cells, the way [compute_ber_coded] calls it. *)
Definition encode_bits (info : list bool) : list bool :=
  let info_len := Z.of_nat (length info) in
  let '(_, coded_bits, _) :=
    convolutional_encode (Some info) info_len
      (Some (replicate (Z.to_nat (2 * (info_len + 6))) false)) (Some 0) in
  default [] coded_bits.

(** The number of ones of a bit sequence. *)
Fixpoint weight (bits : list bool) : Z :=
  match bits with
  | [] => 0
  | b :: bits' => Z.b2z b + weight bits'
  end.

(** The number of ones on a branch. *)
Definition branch_weight (state input : Z) : Z :=
  weight (output_bits (trellis_output state input)).

(** For each state, the least number of ones on a path from it back to
    state 0: 64 rounds of relaxation from (0, infinity, ...). *)
Definition relax (h : list Z) : list Z :=
  map (fun q =>
      Z.min (at_ 0 h q)
        (Z.min (branch_weight q 0 + at_ 0 h (trellis_next q 0))
               (branch_weight q 1 + at_ 0 h (trellis_next q 1))))
    (range NUM_STATES).

Definition remerge_weight : list Z :=
  Eval vm_compute in
    fold_left (fun h _ => relax h) (range NUM_STATES)
      (0 :: replicate 63 1000).

(** ** ber.cpp: the SNR estimator *)

(** [std::log10], library code like the functions of [Libm]. *)
Class Log10 (D : Type) : Type := {
  d_log10 : D -> D
}.

Section Estimator.
Context {D : Type} `{Double D} `{Libm D} `{Log10 D} `{StdRandom D}.

Definition linear_to_db (linear_value : D) : D :=
  d_mul (of_int 10) (d_log10 linear_value).

Definition generate_pilots (num_pilots : nat) : list (cdouble D) :=
  replicate num_pilots (of_int 1, m_zero).

(** [add_awgn] changes [symbols] and [gen] in place: both are returned. *)
Definition add_awgn (symbols : list (cdouble D)) (esno_lin : D) (gen : mt19937)
    : list (cdouble D) * mt19937 :=
  let n0 := d_div (of_int 1) esno_lin in
  let sigma := d_sqrt (d_div n0 (of_int 2)) in
  let noise_dist := normal_init m_zero sigma in
  let '(symbols, _, gen) := add_noise normal_sample symbols noise_dist gen in
  (symbols, gen).

(** [norm(rx - tx)]: the squared magnitude of the difference. *)
Definition norm_diff (rx tx : cdouble D) : D :=
  let re := m_sub (fst rx) (fst tx) in
  let im := m_sub (snd rx) (snd tx) in
  m_add (d_mul re re) (d_mul im im).

Definition estimate_snr (true_snr_db : D) (num_pilots : Z)
    : prog random_device D :=
  if num_pilots <=? 0 then ret (of_int (-999))
  else if m_ltb true_snr_db (of_int (-50)) || m_gtb true_snr_db (of_int 50)
  then ret (of_int (-999))
  else if 1000000 <? num_pilots then ret (of_int (-999))
  else
    seed <- rd_next ;;
    let gen := mt19937_seed seed in
    let tx_pilots := generate_pilots (Z.to_nat num_pilots) in
    let ebno_lin := db_to_linear true_snr_db in
    let esno_lin := ebno_lin in
    let rx_pilots := tx_pilots in
    let '(rx_pilots, gen) := add_awgn rx_pilots esno_lin gen in
    let noise_var :=
      d_div (fold_left m_add (zip_with norm_diff rx_pilots tx_pilots) m_zero)
        (of_int num_pilots) in
    let est_esno_lin := d_div (of_int 1) noise_var in
    let est_ebno_lin := est_esno_lin in
    ret (linear_to_db est_ebno_lin).

End Estimator.

(** * Properties *)

(** ** Lists and loops *)

Section ListFacts.
Context {A : Type}.
Implicit Types (l : list A).

Lemma map_nth_seq l (d : A) :
  map (fun j => nth j l d) (seq 0 (length l)) = l.
Proof.
  induction l as [|x l IH]; [reflexivity|].
  cbn [length seq map nth]. f_equal.
  rewrite <- seq_shift, map_map. exact IH.
Qed.

Lemma flat_map_chunks (c : nat) (h : nat -> A) (n : nat) :
  flat_map (fun j => map h (seq (c * j) c)) (seq 0 n) = map h (seq 0 (c * n)).
Proof.
  induction n as [|n IH].
  - rewrite Nat.mul_0_r. reflexivity.
  - rewrite seq_S, flat_map_app, IH. cbn [flat_map Nat.add].
    rewrite app_nil_r, <- map_app, <- seq_app. f_equal. f_equal. lia.
Qed.

(** A loop whose [j]-th iteration overwrites the [j]-th chunk of [c]
    cells of an array of [t] cells, and never breaks, leaves the chunks
    [g j] in the array. *)
Lemma for_break_fill (c t : nat) (g : nat -> list A)
    (body : nat -> list A -> step (list A)) :
  (forall j, length (g j) = c) ->
  forall n i,
  (forall j pre chunk rest,
      (i <= j < i + n)%nat -> length pre = (c * j)%nat -> length chunk = c ->
      length (pre ++ chunk ++ rest) = t ->
      body j (pre ++ chunk ++ rest) = Next (pre ++ g j ++ rest)) ->
  forall pre rest post,
    length pre = (c * i)%nat -> length rest = (c * n)%nat ->
    length (pre ++ rest ++ post) = t ->
    for_break n i body (pre ++ rest ++ post)
    = pre ++ flat_map g (seq i n) ++ post.
Proof.
  intros Hg n. induction n as [|n IH]; intros i Hbody pre rest post Hpre Hrest Ht.
  - destruct rest; [reflexivity|]. cbn in Hrest. lia.
  - cbn [for_break seq flat_map].
    assert (Hc : length (take c rest) = c) by (rewrite length_take; lia).
    rewrite <- (take_drop c rest), <- (app_assoc (take c rest)) in Ht |- *.
    rewrite Hbody; [|lia|exact Hpre|exact Hc|exact Ht].
    rewrite (app_assoc pre (g i)), IH.
    + rewrite <- !app_assoc. reflexivity.
    + intros j pre' chunk rest' Hj. apply Hbody. lia.
    + rewrite length_app, Hg, Hpre. lia.
    + rewrite length_drop, Hrest. lia.
    + rewrite !length_app in Ht |- *. rewrite Hg. lia.
Qed.

Lemma for_break_fill_all (c : nat) (g : nat -> list A)
    (body : nat -> list A -> step (list A)) (n : nat) (l : list A) :
  (forall j, length (g j) = c) ->
  (forall j pre chunk rest,
      (j < n)%nat -> length pre = (c * j)%nat -> length chunk = c ->
      length (pre ++ chunk ++ rest) = (c * n)%nat ->
      body j (pre ++ chunk ++ rest) = Next (pre ++ g j ++ rest)) ->
  length l = (c * n)%nat ->
  for_break n 0 body l = flat_map g (seq 0 n).
Proof.
  intros Hg Hbody Hl.
  generalize (for_break_fill c (c * n) g body Hg n 0%nat). intros Hfill.
  specialize (Hfill (fun j pre chunk rest Hj => Hbody j pre chunk rest (proj2 Hj))).
  specialize (Hfill [] l []). rewrite !app_nil_r in Hfill. cbn [app] in Hfill.
  apply Hfill; [cbn; lia|exact Hl|exact Hl].
Qed.

Lemma insert_chunk_0 (pre rest : list A) (i : nat) (x a : A) :
  length pre = i -> <[i := x]> (pre ++ a :: rest) = pre ++ x :: rest.
Proof. intros <-. rewrite insert_app_r_alt, Nat.sub_diag by lia. reflexivity. Qed.

Lemma insert_chunk_1 (pre rest : list A) (i : nat) (x a b : A) :
  length pre = i ->
  <[Datatypes.S i := x]> (pre ++ a :: b :: rest) = pre ++ a :: x :: rest.
Proof.
  intros <-. rewrite insert_app_r_alt by lia.
  replace (Datatypes.S (length pre) - length pre)%nat with 1%nat by lia. reflexivity.
Qed.

Lemma insert_chunk_2 (pre rest : list A) (i : nat) (x a b c : A) :
  length pre = i ->
  <[Datatypes.S (Datatypes.S i) := x]> (pre ++ a :: b :: c :: rest)
  = pre ++ a :: b :: x :: rest.
Proof.
  intros <-. rewrite insert_app_r_alt by lia.
  replace (Datatypes.S (Datatypes.S (length pre)) - length pre)%nat with 2%nat by lia.
  reflexivity.
Qed.

Lemma insert_chunk_3 (pre rest : list A) (i : nat) (x a b c d : A) :
  length pre = i ->
  <[Datatypes.S (Datatypes.S (Datatypes.S i)) := x]> (pre ++ a :: b :: c :: d :: rest)
  = pre ++ a :: b :: c :: x :: rest.
Proof.
  intros <-. rewrite insert_app_r_alt by lia.
  replace (Datatypes.S (Datatypes.S (Datatypes.S (length pre))) - length pre)%nat
    with 3%nat by lia.
  reflexivity.
Qed.

End ListFacts.

(** ** The modem loops in closed form *)

Section ModemFacts.
Context {D : Type} `{Double D}.

Lemma flat_map_singleton {A B : Type} (f : A -> B) (l : list A) :
  flat_map (fun x => [f x]) l = map f l.
Proof. induction l as [|x l IH]; [reflexivity|]. cbn. now rewrite IH. Qed.

Lemma flat_map_map {A B C : Type} (f : A -> B) (g : B -> list C) (l : list A) :
  flat_map g (map f l) = flat_map (fun x => g (f x)) l.
Proof. induction l as [|x l IH]; [reflexivity|]. cbn. now rewrite IH. Qed.

Lemma flat_map_nth_seq {B : Type} (g : cdouble D -> list B) (l : list (cdouble D)) d :
  flat_map (fun j => g (nth j l d)) (seq 0 (length l)) = flat_map g l.
Proof. rewrite <- (flat_map_map (fun j => nth j l d) g), map_nth_seq. reflexivity. Qed.

Lemma modulate_impl_bpsk (bits : list bool) :
  modulate_impl bits 2
  = map (fun j => bpsk_symbol (nth j bits false)) (seq 0 (length bits)).
Proof.
  unfold modulate_impl.
  change (Z.to_nat (bits_per_sym_of 2)) with 1%nat. rewrite Nat.div_1_r.
  destruct (Nat.eqb_spec (length bits) 0) as [E|_].
  { rewrite E. reflexivity. }
  change (2 =? 2) with true. cbv iota.
  rewrite <- flat_map_singleton.
  apply (for_break_fill_all 1); [reflexivity| |rewrite length_replicate; lia].
  intros j pre [|a [|]] rest Hj Hpre Hc _; try discriminate.
  f_equal. cbn [app]. apply insert_chunk_0. lia.
Qed.

Lemma modulate_impl_qpsk (bits : list bool) (n : nat) :
  length bits = (2 * n)%nat ->
  modulate_impl bits 4
  = map (fun j => qpsk_symbol (nth (2 * j) bits false) (nth (2 * j + 1) bits false))
      (seq 0 n).
Proof.
  intros Hlen. unfold modulate_impl.
  change (Z.to_nat (bits_per_sym_of 4)) with 2%nat.
  replace (length bits / 2)%nat with n
    by (rewrite Hlen, Nat.mul_comm, Nat.div_mul; lia).
  destruct (Nat.eqb_spec n 0) as [E|_].
  { rewrite E. reflexivity. }
  change (4 =? 2) with false. change (4 =? 4) with true. cbv iota.
  rewrite <- flat_map_singleton.
  apply (for_break_fill_all 1); [reflexivity| |rewrite length_replicate; lia].
  intros j pre [|a [|]] rest Hj Hpre Hc _; try discriminate.
  destruct (Nat.leb_spec (length bits) (2 * j + 1)) as [Hle|_]; [lia|].
  f_equal. cbn [app]. apply insert_chunk_0. lia.
Qed.

Lemma modulate_impl_qam16 (bits : list bool) (n : nat) :
  length bits = (4 * n)%nat ->
  modulate_impl bits 16
  = map (fun j => qam16_symbol (nth (4 * j) bits false) (nth (4 * j + 1) bits false)
                    (nth (4 * j + 2) bits false) (nth (4 * j + 3) bits false))
      (seq 0 n).
Proof.
  intros Hlen. unfold modulate_impl.
  change (Z.to_nat (bits_per_sym_of 16)) with 4%nat.
  replace (length bits / 4)%nat with n
    by (rewrite Hlen, Nat.mul_comm, Nat.div_mul; lia).
  destruct (Nat.eqb_spec n 0) as [E|_].
  { rewrite E. reflexivity. }
  change (16 =? 2) with false. change (16 =? 4) with false.
  change (16 =? 16) with true. cbv iota.
  rewrite <- flat_map_singleton.
  apply (for_break_fill_all 1); [reflexivity| |rewrite length_replicate; lia].
  intros j pre [|a [|]] rest Hj Hpre Hc _; try discriminate.
  destruct (Nat.leb_spec (length bits) (4 * j + 3)) as [Hle|_]; [lia|].
  f_equal. cbn [app]. apply insert_chunk_0. lia.
Qed.

Lemma demodulate_bpsk (symbols : list (cdouble D)) :
  demodulate symbols 2 = flat_map bpsk_bits symbols.
Proof.
  unfold demodulate.
  change (Z.to_nat (bits_per_sym_of 2)) with 1%nat. rewrite Nat.mul_1_r.
  destruct (Nat.eqb_spec (length symbols) 0) as [E|_].
  { destruct symbols; [reflexivity|discriminate]. }
  change (2 =? 2) with true. cbv iota.
  rewrite <- (flat_map_nth_seq bpsk_bits symbols (m_zero, m_zero)).
  apply (for_break_fill_all 1); [reflexivity| |rewrite length_replicate; lia].
  intros j pre [|a [|]] rest Hj Hpre Hc _; try discriminate.
  f_equal. cbn [app]. apply insert_chunk_0. lia.
Qed.

Lemma demodulate_qpsk (symbols : list (cdouble D)) :
  demodulate symbols 4 = flat_map qpsk_bits symbols.
Proof.
  unfold demodulate.
  change (Z.to_nat (bits_per_sym_of 4)) with 2%nat.
  destruct (Nat.eqb_spec (length symbols) 0) as [E|_].
  { destruct symbols; [reflexivity|discriminate]. }
  change (4 =? 2) with false. change (4 =? 4) with true. cbv iota.
  rewrite <- (flat_map_nth_seq qpsk_bits symbols (m_zero, m_zero)).
  apply (for_break_fill_all 2); [reflexivity| |rewrite length_replicate; lia].
  intros j pre [|a [|b [|]]] rest Hj Hpre Hc Ht; try discriminate.
  destruct (Nat.leb_spec (length (pre ++ [a; b] ++ rest)) (2 * j + 1)) as [Hle|_]; [lia|].
  f_equal. cbn [app]. unfold qpsk_bits. cbv zeta.
  rewrite (insert_chunk_0 pre) by lia.
  replace (2 * j + 1)%nat with (Datatypes.S (2 * j)) by lia.
  rewrite (insert_chunk_1 pre) by lia. reflexivity.
Qed.

Lemma demodulate_qam16 (symbols : list (cdouble D)) :
  demodulate symbols 16 = flat_map qam16_bits symbols.
Proof.
  unfold demodulate.
  change (Z.to_nat (bits_per_sym_of 16)) with 4%nat.
  destruct (Nat.eqb_spec (length symbols) 0) as [E|_].
  { destruct symbols; [reflexivity|discriminate]. }
  change (16 =? 2) with false. change (16 =? 4) with false.
  change (16 =? 16) with true. cbv iota.
  rewrite <- (flat_map_nth_seq qam16_bits symbols (m_zero, m_zero)).
  apply (for_break_fill_all 4); [reflexivity| |rewrite length_replicate; lia].
  intros j pre [|a [|b [|c [|d [|]]]]] rest Hj Hpre Hc Ht; try discriminate.
  destruct (Nat.leb_spec (length (pre ++ [a; b; c; d] ++ rest)) (4 * j + 3)) as [Hle|_]; [lia|].
  unfold qam16_bits. cbv zeta.
  destruct (level_to_bits (demod_level (fst (c_unscale (nth j symbols (m_zero, m_zero)) scale_16qam))))
    as [msb_re lsb_re].
  destruct (level_to_bits (demod_level (snd (c_unscale (nth j symbols (m_zero, m_zero)) scale_16qam))))
    as [msb_im lsb_im].
  f_equal. cbn [app fst snd].
  rewrite (insert_chunk_0 pre) by lia.
  replace (4 * j + 2)%nat with (Datatypes.S (Datatypes.S (4 * j))) by lia.
  rewrite (insert_chunk_2 pre) by lia.
  replace (4 * j + 1)%nat with (Datatypes.S (4 * j)) by lia.
  rewrite (insert_chunk_1 pre) by lia.
  replace (4 * j + 3)%nat with (Datatypes.S (Datatypes.S (Datatypes.S (4 * j)))) by lia.
  rewrite (insert_chunk_3 pre) by lia. reflexivity.
Qed.

End ModemFacts.

(** ** Modulate, then demodulate *)

(** The decisions of the demodulator on the points of the three
    constellations, in binary64 arithmetic. *)
Lemma bpsk_bits_symbol (b : bool) :
  bpsk_bits (D := float) (bpsk_symbol b) = [b].
Proof. destruct b; vm_compute; reflexivity. Qed.

Lemma qpsk_bits_symbol (b0 b1 : bool) :
  qpsk_bits (D := float) (qpsk_symbol b0 b1) = [b0; b1].
Proof. destruct b0, b1; vm_compute; reflexivity. Qed.

Lemma qam16_bits_symbol (b0 b1 b2 b3 : bool) :
  qam16_bits (D := float) (qam16_symbol b0 b1 b2 b3) = [b0; b1; b2; b3].
Proof. destruct b0, b1, b2, b3; vm_compute; reflexivity. Qed.

Lemma valid_order_cases (mod_order : Z) :
  In mod_order [2; 4; 16] -> mod_order = 2 \/ mod_order = 4 \/ mod_order = 16.
Proof. cbn. intuition congruence. Qed.

Lemma modulate_valid (bits : list bool) (mod_order : Z) :
  In mod_order [2; 4; 16] ->
  (length bits mod Z.to_nat (bits_per_sym_of mod_order) = 0)%nat ->
  modulate (D := float) bits mod_order
  = if (length bits =? 0)%nat then [] else modulate_impl bits mod_order.
Proof.
  intros HM Hk. unfold modulate, try_modulate.
  assert (Hv : is_valid_mod_order mod_order = true).
  { destruct (valid_order_cases _ HM) as [->|[->| ->]]; reflexivity. }
  rewrite Hv. cbn [negb].
  destruct (Nat.eqb_spec (length bits) 0) as [E|E].
  - rewrite E.
    destruct (valid_order_cases _ HM) as [->|[->| ->]]; reflexivity.
  - destruct (Nat.ltb_spec (length bits) (Z.to_nat (bits_per_sym_of mod_order)))
      as [Hlt|_]; [|reflexivity].
    rewrite Nat.mod_small in Hk by exact Hlt. contradiction.
Qed.

(** C1. For every modulation order M in {2, 4, 16} and every bit sequence
    whose length is a multiple of k = log2 M, demodulating the modulated
    sequence gives the bit sequence back, in binary64 arithmetic:
    demodulate (modulate bits M) M = bits. *)
Theorem demodulate_modulate (bits : list bool) (mod_order : Z) :
  In mod_order [2; 4; 16] ->
  (length bits mod Z.to_nat (Z.log2 mod_order) = 0)%nat ->
  demodulate (D := float) (modulate bits mod_order) mod_order = bits.
Proof.
  intros HM Hk. rewrite (modulate_valid bits mod_order HM Hk).
  destruct (Nat.eqb_spec (length bits) 0) as [E|_].
  { destruct bits; [|discriminate].
    destruct (valid_order_cases _ HM) as [->|[->| ->]]; reflexivity. }
  destruct (valid_order_cases _ HM) as [->|[->| ->]].
  - rewrite modulate_impl_bpsk, demodulate_bpsk, flat_map_map.
    erewrite flat_map_ext by (intros; apply bpsk_bits_symbol).
    rewrite flat_map_singleton. apply map_nth_seq.
  - change (Z.to_nat (Z.log2 4)) with 2%nat in Hk.
    apply Nat.Div0.div_exact in Hk.
    rewrite (modulate_impl_qpsk bits _ Hk), demodulate_qpsk, flat_map_map.
    erewrite flat_map_ext by (intros; apply qpsk_bits_symbol).
    remember (length bits / 2)%nat as n eqn:En. clear En.
    transitivity (map (fun j => nth j bits false) (seq 0 (2 * n)));
      [|rewrite <- Hk; apply map_nth_seq].
    rewrite <- (flat_map_chunks 2). apply flat_map_ext. intros j.
    cbn [seq map]. repeat f_equal; lia.
  - change (Z.to_nat (Z.log2 16)) with 4%nat in Hk.
    apply Nat.Div0.div_exact in Hk.
    rewrite (modulate_impl_qam16 bits _ Hk), demodulate_qam16, flat_map_map.
    erewrite flat_map_ext by (intros; apply qam16_bits_symbol).
    remember (length bits / 4)%nat as n eqn:En. clear En.
    transitivity (map (fun j => nth j bits false) (seq 0 (4 * n)));
      [|rewrite <- Hk; apply map_nth_seq].
    rewrite <- (flat_map_chunks 4). apply flat_map_ext. intros j.
    cbn [seq map]. repeat f_equal; lia.
Qed.

Lemma demodulate_modulate_witness :
  In 16 [2; 4; 16] /\
  (length [true; false; false; true] mod Z.to_nat (Z.log2 16) = 0)%nat /\
  demodulate (D := float) (modulate [true; false; false; true] 16) 16
  = [true; false; false; true].
Proof.
  split; [cbn; tauto|]. split; [reflexivity|].
  apply demodulate_modulate; [cbn; tauto|reflexivity].
Defined.

(** ** The modem: lengths and incomplete groups *)

Lemma for_break_invariant {S : Type} (P : S -> Prop) (body : nat -> S -> step S) :
  (forall i s, P s -> match body i s with Next s' | Break s' => P s' end) ->
  forall n i s, P s -> P (for_break n i body s).
Proof.
  intros Hbody n. induction n as [|n IH]; intros i s Ps; [exact Ps|].
  cbn [for_break]. specialize (Hbody i s Ps).
  destruct (body i s) as [s'|s']; [apply IH|]; exact Hbody.
Qed.

Lemma map_nth_take {A : Type} (l : list A) (d : A) (m : nat) :
  (m <= length l)%nat -> map (fun j => nth j l d) (seq 0 m) = take m l.
Proof.
  intros Hm. rewrite <- (map_nth_seq (take m l) d), length_take.
  replace (m `min` length l)%nat with m by lia.
  apply map_ext_in. intros j Hj. apply in_seq in Hj.
  rewrite !nth_lookup, lookup_take_lt by lia. reflexivity.
Qed.

Section ModemEdges.
Context {D : Type} `{Double D}.

Lemma modulate_impl_length (bits : list bool) (mod_order : Z) :
  length (modulate_impl bits mod_order)
  = (length bits / Z.to_nat (Z.log2 mod_order))%nat.
Proof.
  unfold modulate_impl, bits_per_sym_of.
  set (num_sym := (length bits / Z.to_nat (Z.log2 mod_order))%nat).
  assert (Hrep : length (replicate num_sym (@m_zero D _, @m_zero D _)) = num_sym)
    by apply length_replicate.
  destruct (num_sym =? 0)%nat; [exact Hrep|].
  destruct (mod_order =? 2); [|destruct (mod_order =? 4); [|destruct (mod_order =? 16)]];
    try exact Hrep;
    apply (for_break_invariant (fun s => length s = num_sym)); try exact Hrep;
    intros i s Hs; cbv zeta;
    repeat match goal with
           | |- context [if ?c then Break _ else _] => destruct c
           end;
    try rewrite length_insert; exact Hs.
Qed.

Lemma is_valid_mod_order_spec (mod_order : Z) :
  is_valid_mod_order mod_order = true <-> In mod_order [2; 4; 16].
Proof.
  unfold is_valid_mod_order, valid_mod_orders. cbn [existsb In].
  rewrite !orb_true_iff, !Z.eqb_eq. intuition congruence.
Qed.

Lemma modulate_invalid (bits : list bool) (mod_order : Z) :
  ~ In mod_order [2; 4; 16] -> modulate bits mod_order = [].
Proof.
  intros Hinv. unfold modulate, try_modulate.
  destruct (is_valid_mod_order mod_order) eqn:Hv; [|reflexivity].
  apply is_valid_mod_order_spec in Hv. contradiction.
Qed.

Lemma modulate_valid_cases (bits : list bool) (mod_order : Z) :
  In mod_order [2; 4; 16] ->
  modulate bits mod_order
  = if (length bits <? Z.to_nat (Z.log2 mod_order))%nat then []
    else modulate_impl bits mod_order.
Proof.
  intros Hv. unfold modulate, try_modulate, bits_per_sym_of.
  apply is_valid_mod_order_spec in Hv. rewrite Hv. cbn [negb].
  destruct (length bits <? Z.to_nat (Z.log2 mod_order))%nat; reflexivity.
Qed.

Lemma modulate_length_valid (bits : list bool) (mod_order : Z) :
  In mod_order [2; 4; 16] ->
  length (modulate bits mod_order)
  = (length bits / Z.to_nat (Z.log2 mod_order))%nat.
Proof.
  intros Hv. rewrite (modulate_valid_cases bits mod_order Hv).
  destruct (Nat.ltb_spec (length bits) (Z.to_nat (Z.log2 mod_order))) as [Hlt|_].
  - rewrite Nat.div_small by exact Hlt. reflexivity.
  - apply modulate_impl_length.
Qed.

Lemma demodulate_length_any (symbols : list (cdouble D)) (mod_order : Z) :
  length (demodulate symbols mod_order)
  = (length symbols * Z.to_nat (Z.log2 mod_order))%nat.
Proof.
  unfold demodulate, bits_per_sym_of.
  set (n := (length symbols * Z.to_nat (Z.log2 mod_order))%nat).
  assert (Hrep : length (replicate n false) = n) by apply length_replicate.
  destruct (length symbols =? 0)%nat; [exact Hrep|].
  destruct (mod_order =? 2); [|destruct (mod_order =? 4); [|destruct (mod_order =? 16)]];
    try exact Hrep;
    apply (for_break_invariant (fun s => length s = n)); try exact Hrep;
    intros i s Hs; cbv zeta;
    repeat match goal with
           | |- context [if ?c then Break _ else _] => destruct c
           | |- context [level_to_bits ?l] => destruct (level_to_bits l)
           end;
    rewrite ?length_insert; exact Hs.
Qed.

Lemma demodulate_unsupported (symbols : list (cdouble D)) (mod_order : Z) :
  ~ In mod_order [2; 4; 16] ->
  demodulate symbols mod_order
  = replicate (length symbols * Z.to_nat (Z.log2 mod_order)) false.
Proof.
  intros Hinv. unfold demodulate, bits_per_sym_of.
  destruct (length symbols =? 0)%nat; [reflexivity|].
  destruct (Z.eqb_spec mod_order 2) as [->|_]; [exfalso; apply Hinv; cbn; tauto|].
  destruct (Z.eqb_spec mod_order 4) as [->|_]; [exfalso; apply Hinv; cbn; tauto|].
  destruct (Z.eqb_spec mod_order 16) as [->|_]; [exfalso; apply Hinv; cbn; tauto|].
  reflexivity.
Qed.

(** The mapper loops for any number of bits: the bits after the last
    whole group are not read. *)
Lemma modulate_impl_qpsk_any (bits : list bool) :
  modulate_impl bits 4
  = map (fun j => qpsk_symbol (nth (2 * j) bits false) (nth (2 * j + 1) bits false))
      (seq 0 (length bits / 2)).
Proof.
  unfold modulate_impl.
  change (Z.to_nat (bits_per_sym_of 4)) with 2%nat.
  pose proof (Nat.Div0.mul_div_le (length bits) 2) as Hdiv.
  destruct (Nat.eqb_spec (length bits / 2) 0) as [E|_].
  { rewrite E. reflexivity. }
  change (4 =? 2) with false. change (4 =? 4) with true. cbv iota.
  rewrite <- flat_map_singleton.
  apply (for_break_fill_all 1); [reflexivity| |rewrite length_replicate; lia].
  intros j pre [|a [|]] rest Hj Hpre Hc _; try discriminate.
  destruct (Nat.leb_spec (length bits) (2 * j + 1)) as [Hle|_]; [lia|].
  f_equal. cbn [app]. apply insert_chunk_0. lia.
Qed.

Lemma modulate_impl_qam16_any (bits : list bool) :
  modulate_impl bits 16
  = map (fun j => qam16_symbol (nth (4 * j) bits false) (nth (4 * j + 1) bits false)
                    (nth (4 * j + 2) bits false) (nth (4 * j + 3) bits false))
      (seq 0 (length bits / 4)).
Proof.
  unfold modulate_impl.
  change (Z.to_nat (bits_per_sym_of 16)) with 4%nat.
  pose proof (Nat.Div0.mul_div_le (length bits) 4) as Hdiv.
  destruct (Nat.eqb_spec (length bits / 4) 0) as [E|_].
  { rewrite E. reflexivity. }
  change (16 =? 2) with false. change (16 =? 4) with false.
  change (16 =? 16) with true. cbv iota.
  rewrite <- flat_map_singleton.
  apply (for_break_fill_all 1); [reflexivity| |rewrite length_replicate; lia].
  intros j pre [|a [|]] rest Hj Hpre Hc _; try discriminate.
  destruct (Nat.leb_spec (length bits) (4 * j + 3)) as [Hle|_]; [lia|].
  f_equal. cbn [app]. apply insert_chunk_0. lia.
Qed.

(** The bits the demodulator decides for one symbol, and the symbol the
    mapper makes of the [j]-th group of bits. *)
Definition symbol_bits (mod_order : Z) (s : cdouble D) : list bool :=
  if mod_order =? 2 then bpsk_bits s
  else if mod_order =? 4 then qpsk_bits s
  else qam16_bits s.

Definition group_symbol (mod_order : Z) (bits : list bool) (j : nat) : cdouble D :=
  if mod_order =? 2 then bpsk_symbol (nth j bits false)
  else if mod_order =? 4 then
    qpsk_symbol (nth (2 * j) bits false) (nth (2 * j + 1) bits false)
  else
    qam16_symbol (nth (4 * j) bits false) (nth (4 * j + 1) bits false)
      (nth (4 * j + 2) bits false) (nth (4 * j + 3) bits false).

Lemma demodulate_flat (symbols : list (cdouble D)) (mod_order : Z) :
  In mod_order [2; 4; 16] ->
  demodulate symbols mod_order = flat_map (symbol_bits mod_order) symbols.
Proof.
  intros Hv. destruct (valid_order_cases _ Hv) as [->|[->| ->]];
    [apply demodulate_bpsk|apply demodulate_qpsk|apply demodulate_qam16].
Qed.

Lemma modulate_groups (bits : list bool) (mod_order : Z) :
  In mod_order [2; 4; 16] ->
  modulate bits mod_order
  = map (group_symbol mod_order bits)
      (seq 0 (length bits / Z.to_nat (Z.log2 mod_order))).
Proof.
  intros Hv. rewrite (modulate_valid_cases bits mod_order Hv).
  destruct (Nat.ltb_spec (length bits) (Z.to_nat (Z.log2 mod_order))) as [Hlt|Hge].
  { rewrite Nat.div_small by exact Hlt. reflexivity. }
  destruct (valid_order_cases _ Hv) as [->|[->| ->]].
  - rewrite modulate_impl_bpsk. change (Z.to_nat (Z.log2 2)) with 1%nat.
    rewrite Nat.div_1_r. reflexivity.
  - apply modulate_impl_qpsk_any.
  - apply modulate_impl_qam16_any.
Qed.

(** If the demodulator decides every symbol as the group of bits it stands
    for, it returns the bits of the whole groups. *)
Lemma demodulate_decided (bits : list bool) (mod_order : Z)
    (symbols : list (cdouble D)) :
  In mod_order [2; 4; 16] ->
  length symbols = (length bits / Z.to_nat (Z.log2 mod_order))%nat ->
  (forall j, (j < length symbols)%nat ->
     symbol_bits mod_order (nth j symbols (m_zero, m_zero))
     = map (fun i => nth i bits false)
         (seq (Z.to_nat (Z.log2 mod_order) * j) (Z.to_nat (Z.log2 mod_order)))) ->
  demodulate symbols mod_order
  = take (Z.to_nat (Z.log2 mod_order)
          * (length bits / Z.to_nat (Z.log2 mod_order))) bits.
Proof.
  intros Hv Hlen Hdec. rewrite (demodulate_flat symbols mod_order Hv).
  rewrite <- (map_nth_seq symbols (m_zero, m_zero)) at 1.
  rewrite flat_map_map, !flat_map_concat_map.
  rewrite (map_ext_in _ (fun j => map (fun i => nth i bits false)
             (seq (Z.to_nat (Z.log2 mod_order) * j) (Z.to_nat (Z.log2 mod_order)))))
    by (intros j Hj; apply in_seq in Hj; apply Hdec; lia).
  rewrite <- flat_map_concat_map, flat_map_chunks, Hlen.
  apply map_nth_take. apply Nat.Div0.mul_div_le.
Qed.

Lemma group_bits_bpsk (bits : list bool) (j : nat) :
  [nth j bits false] = map (fun i => nth i bits false) (seq (1 * j) 1).
Proof. cbn [seq map]. rewrite Nat.mul_1_l. reflexivity. Qed.

Lemma group_bits_qpsk (bits : list bool) (j : nat) :
  [nth (2 * j) bits false; nth (2 * j + 1) bits false]
  = map (fun i => nth i bits false) (seq (2 * j) 2).
Proof. cbn [seq map]. repeat f_equal; lia. Qed.

Lemma group_bits_qam16 (bits : list bool) (j : nat) :
  [nth (4 * j) bits false; nth (4 * j + 1) bits false;
   nth (4 * j + 2) bits false; nth (4 * j + 3) bits false]
  = map (fun i => nth i bits false) (seq (4 * j) 4).
Proof. cbn [seq map]. repeat f_equal; lia. Qed.

(** Demodulating the symbols of the mapper after each has been moved by
    [move j], when the decisions still give the bits back. *)
Lemma demodulate_moved (bits : list bool) (mod_order : Z)
    (move : nat -> cdouble D -> cdouble D) :
  In mod_order [2; 4; 16] ->
  (mod_order = 2 -> forall j b, bpsk_bits (move j (bpsk_symbol b)) = [b]) ->
  (mod_order = 4 ->
   forall j b0 b1, qpsk_bits (move j (qpsk_symbol b0 b1)) = [b0; b1]) ->
  (mod_order = 16 ->
   forall j b0 b1 b2 b3,
     qam16_bits (move j (qam16_symbol b0 b1 b2 b3)) = [b0; b1; b2; b3]) ->
  demodulate
    (map (fun j => move j (group_symbol mod_order bits j))
       (seq 0 (length bits / Z.to_nat (Z.log2 mod_order)))) mod_order
  = take (Z.to_nat (Z.log2 mod_order)
          * (length bits / Z.to_nat (Z.log2 mod_order))) bits.
Proof.
  intros Hv H2 H4 H16.
  apply demodulate_decided; [exact Hv|rewrite length_map, length_seq; reflexivity|].
  intros j Hj. rewrite length_map, length_seq in Hj.
  rewrite (nth_indep _ _ (move 0%nat (group_symbol mod_order bits 0%nat)))
    by (rewrite length_map, length_seq; exact Hj).
  rewrite (map_nth (fun j => move j (group_symbol mod_order bits j))), seq_nth by exact Hj.
  cbn [Nat.add].
  destruct (valid_order_cases _ Hv) as [->|[->| ->]]; unfold symbol_bits, group_symbol.
  - change (2 =? 2) with true. cbv iota. rewrite (H2 eq_refl). apply group_bits_bpsk.
  - change (4 =? 2) with false. change (4 =? 4) with true. cbv iota.
    rewrite (H4 eq_refl). apply group_bits_qpsk.
  - change (16 =? 2) with false. change (16 =? 4) with false. cbv iota.
    rewrite (H16 eq_refl). apply group_bits_qam16.
Qed.

Lemma demodulate_modulate_take (bits : list bool) (mod_order : Z) :
  In mod_order [2; 4; 16] ->
  (forall b, bpsk_bits (bpsk_symbol b) = [b]) ->
  (forall b0 b1, qpsk_bits (qpsk_symbol b0 b1) = [b0; b1]) ->
  (forall b0 b1 b2 b3, qam16_bits (qam16_symbol b0 b1 b2 b3) = [b0; b1; b2; b3]) ->
  demodulate (modulate bits mod_order) mod_order
  = take (Z.to_nat (Z.log2 mod_order)
          * (length bits / Z.to_nat (Z.log2 mod_order))) bits.
Proof.
  intros Hv H2 H4 H16. rewrite (modulate_groups bits mod_order Hv).
  exact (demodulate_moved bits mod_order (fun _ s => s) Hv
           (fun _ _ => H2) (fun _ _ => H4) (fun _ _ => H16)).
Qed.

End ModemEdges.

(** X1. modulate signals no error: for an order outside {2, 4, 16} it
    returns no symbols, and for a valid order it returns floor(|bits| / k)
    symbols, k = log2 M -- none when there are fewer than k bits, and the
    bits after the last whole group of k are dropped. *)
Theorem modulate_length {D : Type} `{Double D} (bits : list bool) (mod_order : Z) :
  (~ In mod_order [2; 4; 16] -> modulate bits mod_order = [])
  /\ (In mod_order [2; 4; 16] ->
      length (modulate bits mod_order)
      = (length bits / Z.to_nat (Z.log2 mod_order))%nat).
Proof.
  split; [apply modulate_invalid|apply modulate_length_valid].
Qed.

(** X2. demodulate signals no error either: for every order M >= 1 it
    returns |symbols| * floor(log2 M) bits, and for an order outside
    {2, 4, 16} all of them are false, whatever the symbols. *)
Theorem demodulate_length {D : Type} `{Double D}
    (symbols : list (cdouble D)) (mod_order : Z) :
  1 <= mod_order ->
  length (demodulate symbols mod_order)
  = (length symbols * Z.to_nat (Z.log2 mod_order))%nat
  /\ (~ In mod_order [2; 4; 16] ->
      demodulate symbols mod_order
      = replicate (length symbols * Z.to_nat (Z.log2 mod_order)) false).
Proof.
  intros _. split; [apply demodulate_length_any|apply demodulate_unsupported].
Qed.

Lemma demodulate_length_witness :
  length (demodulate (D := float) [(1%float, 0%float); (2%float, (-1)%float)] 8) = 6%nat
  /\ (~ In 8 [2; 4; 16] ->
      demodulate (D := float) [(1%float, 0%float); (2%float, (-1)%float)] 8
      = replicate 6 false).
Proof.
  exact (demodulate_length (D := float) [(1%float, 0%float); (2%float, (-1)%float)] 8
           ltac:(lia)).
Defined.

(** X3. For every order in {2, 4, 16} and every bit sequence, of any
    length, demodulating the modulated sequence gives back the bits of the
    whole groups of k = log2 M, in binary64 arithmetic: the last
    |bits| mod k bits are lost. *)
Theorem demodulate_modulate_any_length (bits : list bool) (mod_order : Z) :
  In mod_order [2; 4; 16] ->
  demodulate (D := float) (modulate bits mod_order) mod_order
  = take (Z.to_nat (Z.log2 mod_order)
          * (length bits / Z.to_nat (Z.log2 mod_order))) bits.
Proof.
  intros Hv.
  exact (demodulate_modulate_take bits mod_order Hv
           bpsk_bits_symbol qpsk_bits_symbol qam16_bits_symbol).
Qed.

Lemma demodulate_modulate_any_length_witness :
  demodulate (D := float) (modulate [true; false; false; true; true; true; false] 16) 16
  = take (Z.to_nat (Z.log2 16) * (7 / Z.to_nat (Z.log2 16))) [true; false; false; true; true; true; false].
Proof.
  exact (demodulate_modulate_any_length [true; false; false; true; true; true; false] 16
           ltac:(cbn; tauto)).
Defined.

(** ** Arrays *)

Section ArrayFacts.
Context {A : Type}.
Implicit Types (l : list A) (g : grid A).

Lemma nth_insert_eq l (i : nat) (x d : A) :
  (i < length l)%nat -> nth i (<[i := x]> l) d = x.
Proof. intros Hi. rewrite nth_lookup, list_lookup_insert_eq by exact Hi. reflexivity. Qed.

Lemma nth_insert_ne l (i j : nat) (x d : A) :
  i <> j -> nth j (<[i := x]> l) d = nth j l d.
Proof. intros Hij. rewrite !nth_lookup, list_lookup_insert_ne by exact Hij. reflexivity. Qed.

Lemma in_range (n i : Z) : In i (range n) <-> 0 <= i < n.
Proof.
  unfold range. rewrite in_map_iff. split.
  - intros (k & <- & Hk). rewrite in_seq in Hk. lia.
  - intros Hi. exists (Z.to_nat i). rewrite in_seq. split; lia.
Qed.

Lemma range_succ (n : Z) : 0 <= n -> range (n + 1) = range n ++ [n].
Proof.
  intros Hn. unfold range.
  replace (Z.to_nat (n + 1)) with (Datatypes.S (Z.to_nat n)) by lia.
  rewrite seq_S, map_app. cbn [map Nat.add]. rewrite Z2Nat.id by exact Hn. reflexivity.
Qed.

Lemma map_at_range (B : Type) (f : A -> B) l (d : A) :
  map (fun i => f (at_ d l i)) (range (Z.of_nat (length l))) = map f l.
Proof.
  unfold range, at_. rewrite Nat2Z.id, map_map.
  rewrite <- (map_nth_seq l d) at 2. rewrite map_map.
  apply map_ext. intros j. rewrite Nat2Z.id. reflexivity.
Qed.

Lemma fold_left_over_map (B C : Type) (f : B -> A) (step : C -> A -> C)
    (xs : list B) (c : C) :
  fold_left (fun s x => step s (f x)) xs c = fold_left step (map f xs) c.
Proof. revert c. induction xs as [|x xs IH]; intros c; [reflexivity|apply IH]. Qed.

(** Grids: [rows] rows of [cols] cells. *)
Definition grid_shape (rows cols : nat) g : Prop :=
  length g = rows /\ forall i, (i < rows)%nat -> length (nth i g []) = cols.

Lemma grid_shape_replicate (rows cols : nat) (x : A) :
  grid_shape rows cols (replicate rows (replicate cols x)).
Proof.
  split; [apply length_replicate|]. intros i Hi.
  rewrite nth_lookup, lookup_replicate_2 by exact Hi. apply length_replicate.
Qed.

Lemma grid_shape_set2 (rows cols : nat) g (i j : Z) (v : A) :
  grid_shape rows cols g -> grid_shape rows cols (set2 g i j v).
Proof.
  intros [Hr Hc]. unfold set2. split; [rewrite length_alter; exact Hr|].
  intros k Hk. rewrite nth_lookup.
  destruct (Nat.eq_dec (Z.to_nat i) k) as [<-|Hne].
  - rewrite list_lookup_alter_eq.
    destruct (nth_lookup_or_length g (Z.to_nat i) []) as [E|E]; [|lia].
    rewrite E. cbn. rewrite length_insert. apply Hc, Hk.
  - rewrite list_lookup_alter_ne by exact Hne. rewrite <- nth_lookup. apply Hc, Hk.
Qed.

Lemma get2_set2_eq (rows cols : nat) g (i j : Z) (v d : A) :
  grid_shape rows cols g ->
  0 <= i < Z.of_nat rows -> 0 <= j < Z.of_nat cols ->
  get2 d (set2 g i j v) i j = v.
Proof.
  intros [Hr Hc] Hi Hj. unfold get2, set2, at_.
  rewrite (nth_lookup (alter _ _ _)), list_lookup_alter_eq.
  destruct (nth_lookup_or_length g (Z.to_nat i) []) as [E|E]; [|lia].
  rewrite E. cbn. apply nth_insert_eq. rewrite Hc by lia. lia.
Qed.

Lemma get2_set2_ne g (i j i' j' : Z) (v d : A) :
  0 <= i -> 0 <= j -> 0 <= i' -> 0 <= j' -> (i <> i' \/ j <> j') ->
  get2 d (set2 g i j v) i' j' = get2 d g i' j'.
Proof.
  intros Hi Hj Hi' Hj' Hne. unfold get2, set2, at_.
  destruct (Z.eq_dec i i') as [<-|Hii].
  - rewrite (nth_lookup (alter _ _ _)), list_lookup_alter_eq.
    destruct (nth_lookup_or_length g (Z.to_nat i) []) as [E|E].
    + rewrite E. cbn. apply nth_insert_ne. lia.
    + rewrite (nth_overflow g) by lia.
      rewrite (proj2 (lookup_ge_None g (Z.to_nat i))) by lia. reflexivity.
  - rewrite (nth_lookup (alter _ _ _)), list_lookup_alter_ne by lia.
    rewrite <- nth_lookup. reflexivity.
Qed.

Lemma get2_replicate (rows cols : nat) (x d : A) (i j : Z) :
  0 <= i < Z.of_nat rows -> 0 <= j < Z.of_nat cols ->
  get2 d (replicate rows (replicate cols x)) i j = x.
Proof.
  intros Hi Hj. unfold get2, at_.
  rewrite (nth_lookup (replicate rows _)), lookup_replicate_2 by lia. cbn.
  rewrite nth_lookup, lookup_replicate_2 by lia. reflexivity.
Qed.

End ArrayFacts.

(** ** The trellis table *)

(** Checked on the 64 x 2 entries of the table [init_conv_state_table]
    builds: the next state is the register shifted right with the input
    entering at bit 5; the two branches that leave a state carry
    complementary output pairs; outputs are two bits wide; and the packed
    history byte gives back the branch. *)
Lemma trellis_table_check :
  forallb (fun q => forallb (fun u =>
      (trellis_next q u =? Z.lor (Z.shiftl u 5) (Z.shiftr q 1))
      && (0 <=? trellis_next q u) && (trellis_next q u <? NUM_STATES)
      && (0 <=? trellis_output q u) && (trellis_output q u <? 4)
      && (trellis_output q u =? 3 - trellis_output q (1 - u))
      && (u8 (Z.shiftr (u8 (Z.lor (Z.shiftl q 1) u)) 1) =? q)
      && (u8 (Z.land (u8 (Z.lor (Z.shiftl q 1) u)) 1) =? u))
    (range 2)) (range NUM_STATES) = true.
Proof. vm_compute. reflexivity. Qed.

Lemma trellis_tail_check :
  forallb (fun q => trellis_walk q [0; 0; 0; 0; 0; 0] =? 0) (range NUM_STATES) = true.
Proof. vm_compute. reflexivity. Qed.

Lemma NUM_STATES_eq : NUM_STATES = 64.
Proof. reflexivity. Qed.

(** From here on the table is used through these facts alone. *)
Opaque trellis_next trellis_output.

Lemma trellis_entry (q u : Z) :
  0 <= q < NUM_STATES -> 0 <= u < 2 ->
  0 <= trellis_next q u < NUM_STATES /\
  0 <= trellis_output q u < 4 /\
  trellis_output q u = 3 - trellis_output q (1 - u) /\
  u8 (Z.shiftr (u8 (Z.lor (Z.shiftl q 1) u)) 1) = q /\
  u8 (Z.land (u8 (Z.lor (Z.shiftl q 1) u)) 1) = u.
Proof.
  intros Hq Hu. pose proof trellis_table_check as Hc.
  rewrite forallb_forall in Hc. specialize (Hc q (proj2 (in_range _ _) Hq)).
  rewrite forallb_forall in Hc. specialize (Hc u (proj2 (in_range _ _) Hu)).
  rewrite !andb_true_iff in Hc. lia.
Qed.

Lemma trellis_next_range (q u : Z) :
  0 <= q < NUM_STATES -> 0 <= u < 2 -> 0 <= trellis_next q u < NUM_STATES.
Proof. intros Hq Hu. apply (trellis_entry q u Hq Hu). Qed.

Lemma trellis_tail (q : Z) :
  0 <= q < NUM_STATES -> trellis_walk q [0; 0; 0; 0; 0; 0] = 0.
Proof.
  intros Hq. pose proof trellis_tail_check as Hc.
  rewrite forallb_forall in Hc. specialize (Hc q (proj2 (in_range _ _) Hq)). lia.
Qed.

Lemma trellis_walk_range (us : list Z) (q : Z) :
  0 <= q < NUM_STATES -> Forall (fun u => 0 <= u < 2) us ->
  0 <= trellis_walk q us < NUM_STATES.
Proof.
  revert q. induction us as [|u us IH]; intros q Hq Hus; [exact Hq|].
  inversion Hus; subst. cbn. apply IH; [apply trellis_next_range|]; assumption.
Qed.

(** ** The encoder *)

Lemma encode_step_spec (u : Z) (pre rest : list bool) (a b : bool) (q : Z) :
  encode_step u (pre ++ a :: b :: rest, Z.of_nat (length pre), q)
  = (pre ++ output_bits (trellis_output q u) ++ rest,
     Z.of_nat (length pre) + 2, trellis_next q u).
Proof.
  unfold encode_step, output_bits. rewrite Nat2Z.id.
  rewrite (insert_chunk_0 pre) by reflexivity.
  replace (Z.to_nat (Z.of_nat (length pre) + 1)) with (Datatypes.S (length pre)) by lia.
  rewrite (insert_chunk_1 pre) by reflexivity.
  replace (Z.of_nat (length pre) + 1 + 1) with (Z.of_nat (length pre) + 2) by lia.
  reflexivity.
Qed.

Lemma encode_fold (us : list Z) :
  forall (pre rest post : list bool) (q : Z),
  length rest = (2 * length us)%nat ->
  fold_left (fun s u => encode_step u s) us
    (pre ++ rest ++ post, Z.of_nat (length pre), q)
  = (pre ++ flat_map output_bits (trellis_outputs q us) ++ post,
     Z.of_nat (length pre) + 2 * Z.of_nat (length us), trellis_walk q us).
Proof.
  induction us as [|u us IH]; intros pre rest post q Hrest.
  - destruct rest; [|discriminate]. cbn. f_equal. f_equal. lia.
  - destruct rest as [|a [|b rest]]; cbn [length] in Hrest; try lia.
    cbn [fold_left trellis_outputs flat_map trellis_walk length].
    change ((a :: b :: rest) ++ post) with (a :: b :: rest ++ post).
    rewrite encode_step_spec.
    pose proof (IH (pre ++ output_bits (trellis_output q u)) rest post
                  (trellis_next q u)) as IH'.
    rewrite <- app_assoc, length_app, Nat2Z.inj_add in IH'.
    change (Z.of_nat (length (output_bits (trellis_output q u)))) with 2 in IH'.
    rewrite IH' by lia. unfold trellis_walk. cbn [fold_left].
    rewrite <- !app_assoc. f_equal. f_equal. lia.
Qed.

Lemma encoder_inputs_length (info : list bool) :
  length (encoder_inputs info) = (length info + 6)%nat.
Proof. unfold encoder_inputs. rewrite length_app, length_map. reflexivity. Qed.

Lemma encoder_inputs_bits (info : list bool) :
  Forall (fun u => 0 <= u < 2) (encoder_inputs info).
Proof.
  unfold encoder_inputs. apply Forall_app. split.
  - apply Forall_forall. intros u Hu. apply list_elem_of_In, in_map_iff in Hu.
    destruct Hu as ([|] & <- & _); cbn; lia.
  - repeat constructor; lia.
Qed.

Lemma trellis_outputs_length (us : list Z) (q : Z) :
  length (trellis_outputs q us) = length us.
Proof. revert q. induction us as [|u us IH]; intros q; cbn; [|rewrite IH]; reflexivity. Qed.

Lemma flat_map_output_bits_length (outs : list Z) :
  length (flat_map output_bits outs) = (2 * length outs)%nat.
Proof. induction outs as [|o outs IH]; cbn [flat_map length app output_bits]; lia. Qed.

Lemma code_word_length (info : list bool) :
  length (code_word info) = (2 * (length info + 6))%nat.
Proof.
  unfold code_word.
  rewrite flat_map_output_bits_length, trellis_outputs_length, encoder_inputs_length.
  reflexivity.
Qed.

(** The encoder ends in state 0: the six tail zeros flush the register. *)
Lemma encoder_walk_zero (info : list bool) :
  trellis_walk 0 (encoder_inputs info) = 0.
Proof.
  unfold encoder_inputs.
  change (replicate (Z.to_nat (CONSTRAINT_LENGTH - 1)) 0) with [0; 0; 0; 0; 0; 0].
  unfold trellis_walk. rewrite fold_left_app.
  apply (trellis_tail (fold_left trellis_next (map Z.b2z info) 0)).
  apply trellis_walk_range; [rewrite NUM_STATES_eq; lia|].
  apply Forall_forall. intros u Hu. apply list_elem_of_In, in_map_iff in Hu.
  destruct Hu as ([|] & <- & _); cbn; lia.
Qed.

Lemma encode_loops_spec (info coded : list bool) :
  (2 * (length info + 6) <= length coded)%nat ->
  encode_loops info (Z.of_nat (length info)) coded
  = (code_word info ++ drop (2 * (length info + 6)) coded,
     2 * (Z.of_nat (length info) + 6), 0).
Proof.
  intros Hbuf. unfold encode_loops.
  rewrite (fold_left_over_map _ _ (fun i => if at_ false info i then 1 else 0)
             (fun s u => encode_step u s)).
  rewrite (map_at_range _ (fun b : bool => if b then 1 else 0) info false).
  change (fold_left (fun s _ => encode_step 0 s) (range (CONSTRAINT_LENGTH - 1)))
    with (fold_left (fun s (u : Z) => encode_step u s) (replicate 6 0)).
  rewrite <- fold_left_app.
  change (map (fun b : bool => if b then 1 else 0) info ++ replicate 6 0)
    with (encoder_inputs info).
  rewrite <- (take_drop (2 * (length info + 6)) coded) at 1.
  pose proof (encode_fold (encoder_inputs info) []
                (take (2 * (length info + 6)) coded)
                (drop (2 * (length info + 6)) coded) 0) as Hfold.
  cbn [app length] in Hfold. change (Z.of_nat 0) with 0 in Hfold.
  rewrite Hfold by (rewrite length_take, encoder_inputs_length; lia).
  rewrite encoder_walk_zero, encoder_inputs_length. unfold code_word.
  repeat f_equal. lia.
Qed.

Lemma convolutional_encode_ok (info coded : list bool) (coded_len : Z) :
  1 <= Z.of_nat (length info) ->
  2 * (Z.of_nat (length info) + 6) <= INT_MAX ->
  2 * (Z.of_nat (length info) + 6) <= Z.of_nat (length coded) ->
  convolutional_encode (Some info) (Z.of_nat (length info)) (Some coded) (Some coded_len)
  = (0, Some (code_word info ++ drop (2 * (length info + 6)) coded),
     Some (2 * (Z.of_nat (length info) + 6))).
Proof.
  intros HL Hint Hbuf. unfold convolutional_encode.
  destruct (Z.leb_spec (Z.of_nat (length info)) 0) as [Hle|_]; [lia|].
  rewrite (encode_loops_spec info coded) by lia.
  unfold to_int32, CONSTRAINT_LENGTH, CODE_RATE_DEN, INT_MAX in *.
  repeat f_equal.
  rewrite (Z.mod_small (_ + _ + 2 ^ 31)) by lia.
  replace (Z.of_nat (length info) + (7 - 1) + 2 ^ 31 - 2 ^ 31)
    with (Z.of_nat (length info) + 6) by lia.
  rewrite Z.mod_small by lia. lia.
Qed.

Lemma convolutional_encode_sized (info : list bool) (info_len : Z)
    (coded : list bool) (coded_len : Z) :
  info_len = Z.of_nat (length info) ->
  1 <= info_len ->
  2 * (info_len + 6) <= INT_MAX ->
  2 * (info_len + 6) <= Z.of_nat (length coded) ->
  convolutional_encode (Some info) info_len (Some coded) (Some coded_len)
  = (0, Some (code_word info ++ drop (2 * (length info + 6)) coded),
     Some (2 * (info_len + 6))).
Proof. intros ->. apply convolutional_encode_ok. Qed.

(** C6. For every info bit sequence of length L >= 1 (with 2 (L + 6)
    representable as an int and a coded buffer of at least that size),
    convolutional_encode starts in state 0, emits exactly the 2 (L + 6)
    coded bits of the L info bits followed by 6 zero tail inputs, leaves
    the trellis state at 0 and reports the coded length 2 (L + 6); for an
    info length <= 0 it returns the error -1 and writes nothing. *)
Theorem convolutional_encode_length (info coded : list bool) (coded_len : Z)
    (info_bits coded_bits : option (list bool)) (info_len : Z) (len_ptr : option Z) :
  (1 <= Z.of_nat (length info) ->
   2 * (Z.of_nat (length info) + 6) <= INT_MAX ->
   2 * (Z.of_nat (length info) + 6) <= Z.of_nat (length coded) ->
   encode_loops info (Z.of_nat (length info)) coded
   = (code_word info ++ drop (2 * (length info + 6)) coded,
      2 * (Z.of_nat (length info) + 6), 0)
   /\ Z.of_nat (length (code_word info)) = 2 * (Z.of_nat (length info) + 6)
   /\ convolutional_encode (Some info) (Z.of_nat (length info)) (Some coded) (Some coded_len)
      = (0, Some (code_word info ++ drop (2 * (length info + 6)) coded),
         Some (2 * (Z.of_nat (length info) + 6))))
  /\ (info_len <= 0 ->
      convolutional_encode info_bits info_len coded_bits len_ptr
      = (-1, coded_bits, len_ptr)).
Proof.
  split.
  - intros HL Hint Hbuf.
    assert (Hloops := encode_loops_spec info coded ltac:(lia)).
    split; [exact Hloops|]. split; [rewrite code_word_length; lia|].
    apply convolutional_encode_ok; assumption.
  - intros Hle. unfold convolutional_encode.
    destruct info_bits, coded_bits, len_ptr; try reflexivity.
    destruct (Z.leb_spec info_len 0) as [_|Hgt]; [reflexivity|lia].
Qed.

Lemma convolutional_encode_length_witness :
  encode_loops test_info 10 (replicate 40 false)
  = (code_word test_info ++ drop 32 (replicate 40 false), 32, 0)
  /\ convolutional_encode None 0 (Some [true]) (Some 5) = (-1, Some [true], Some 5).
Proof.
  pose proof (convolutional_encode_length test_info (replicate 40 false) 0
                None (Some [true]) 0 (Some 5)) as [Hok Hfail].
  split.
  - apply Hok; vm_compute; discriminate.
  - apply Hfail. lia.
Defined.

(** ** The code: table, linearity, distance, causality *)

Lemma state_table_check :
  forallb (fun q => forallb (fun u =>
      let shift_reg := Z.lor (Z.shiftl u 6) q in
      (trellis_next q u =? Z.shiftr shift_reg 1)
      && (trellis_output q u
          =? Z.lor (Z.shiftl (convolve shift_reg G1) 1) (convolve shift_reg G2)))
    (range 2)) (range NUM_STATES) = true.
Proof. vm_compute. reflexivity. Qed.

Lemma reverse_table_check :
  forallb (fun x =>
      let cs := at_ zero_state trellis x in
      let p0 := at_ 0 (prev_state cs) 0 in
      let p1 := at_ 0 (prev_state cs) 1 in
      let i0 := at_ 0 (prev_input cs) 0 in
      let i1 := at_ 0 (prev_input cs) 1 in
      (0 <=? p0) && (p0 <? p1) && (p1 <? NUM_STATES)
      && (0 <=? i0) && (i0 <? 2) && (i1 =? i0)
      && (trellis_next p0 i0 =? x) && (trellis_next p1 i1 =? x)
      && forallb (fun q => forallb (fun u =>
             negb (trellis_next q u =? x)
             || ((q =? p0) && (u =? i0)) || ((q =? p1) && (u =? i1)))
           (range 2)) (range NUM_STATES))
    (range NUM_STATES) = true.
Proof. vm_compute. reflexivity. Qed.

Lemma trellis_linear_check :
  forallb (fun q => forallb (fun q' => forallb (fun u => forallb (fun u' =>
      (0 <=? Z.lxor q q') && (Z.lxor q q' <? NUM_STATES)
      && (trellis_next (Z.lxor q q') (Z.lxor u u')
          =? Z.lxor (trellis_next q u) (trellis_next q' u'))
      && (trellis_output (Z.lxor q q') (Z.lxor u u')
          =? Z.lxor (trellis_output q u) (trellis_output q' u')))
    (range 2)) (range 2)) (range NUM_STATES)) (range NUM_STATES) = true.
Proof. vm_compute. reflexivity. Qed.

Lemma remerge_weight_check :
  (at_ 0 remerge_weight 0 =? 0)
  && (branch_weight 0 0 =? 0) && (trellis_next 0 0 =? 0)
  && (branch_weight 0 1 + at_ 0 remerge_weight (trellis_next 0 1) =? 10)
  && forallb (fun q => forallb (fun u =>
         (at_ 0 remerge_weight q <=? branch_weight q u + at_ 0 remerge_weight (trellis_next q u))
         && (0 <=? branch_weight q u))
       (range 2)) (range NUM_STATES) = true.
Proof. vm_compute. reflexivity. Qed.

Lemma encode_bits_code_word (info : list bool) :
  1 <= Z.of_nat (length info) ->
  2 * (Z.of_nat (length info) + 6) <= INT_MAX ->
  encode_bits info = code_word info.
Proof.
  intros HL Hint. unfold encode_bits. cbv zeta.
  rewrite (convolutional_encode_ok info _ 0 HL Hint)
    by (rewrite length_replicate; lia).
  change (default [] (Some ?x)) with x.
  rewrite drop_ge, app_nil_r by (rewrite length_replicate; lia). reflexivity.
Qed.

Lemma trellis_linear (q q' u u' : Z) :
  0 <= q < NUM_STATES -> 0 <= q' < NUM_STATES -> 0 <= u < 2 -> 0 <= u' < 2 ->
  0 <= Z.lxor q q' < NUM_STATES
  /\ trellis_next (Z.lxor q q') (Z.lxor u u')
     = Z.lxor (trellis_next q u) (trellis_next q' u')
  /\ trellis_output (Z.lxor q q') (Z.lxor u u')
     = Z.lxor (trellis_output q u) (trellis_output q' u').
Proof.
  intros Hq Hq' Hu Hu'. pose proof trellis_linear_check as Hc.
  rewrite forallb_forall in Hc. specialize (Hc q (proj2 (in_range _ _) Hq)).
  rewrite forallb_forall in Hc. specialize (Hc q' (proj2 (in_range _ _) Hq')).
  rewrite forallb_forall in Hc. specialize (Hc u (proj2 (in_range _ _) Hu)).
  rewrite forallb_forall in Hc. specialize (Hc u' (proj2 (in_range _ _) Hu')).
  apply andb_prop in Hc as [Hc Ho]. apply andb_prop in Hc as [Hc Hn].
  apply andb_prop in Hc as [Hlo Hhi].
  apply Z.leb_le in Hlo. apply Z.ltb_lt in Hhi.
  apply Z.eqb_eq in Hn. apply Z.eqb_eq in Ho.
  exact (conj (conj Hlo Hhi) (conj Hn Ho)).
Qed.

Lemma output_bits_lxor (o o' : Z) :
  0 <= o < 4 -> 0 <= o' < 4 ->
  output_bits (Z.lxor o o') = zip_with xorb (output_bits o) (output_bits o').
Proof.
  intros Ho Ho'.
  assert (Hc : (o = 0 \/ o = 1 \/ o = 2 \/ o = 3)
               /\ (o' = 0 \/ o' = 1 \/ o' = 2 \/ o' = 3)) by lia.
  destruct Hc as [[->|[->|[->| ->]]] [->|[->|[->| ->]]]]; reflexivity.
Qed.

Lemma trellis_outputs_range (us : list Z) (q : Z) :
  0 <= q < NUM_STATES -> Forall (fun u => 0 <= u < 2) us ->
  Forall (fun o => 0 <= o < 4) (trellis_outputs q us).
Proof.
  revert q. induction us as [|u us IH]; intros q Hq Hus; [constructor|].
  inversion Hus; subst. cbn [trellis_outputs].
  destruct (trellis_entry q u Hq ltac:(assumption)) as (Hnx & Hout & _).
  constructor; [exact Hout|]. apply IH; assumption.
Qed.

Lemma trellis_outputs_lxor (us us' : list Z) :
  length us = length us' ->
  Forall (fun u => 0 <= u < 2) us -> Forall (fun u => 0 <= u < 2) us' ->
  forall q q', 0 <= q < NUM_STATES -> 0 <= q' < NUM_STATES ->
  trellis_outputs (Z.lxor q q') (zip_with Z.lxor us us')
  = zip_with Z.lxor (trellis_outputs q us) (trellis_outputs q' us').
Proof.
  revert us'. induction us as [|u us IH]; intros [|u' us'] Hlen Hus Hus' q q' Hq Hq';
    try discriminate; [reflexivity|].
  inversion Hus; subst. inversion Hus'; subst.
  cbn [zip_with trellis_outputs].
  destruct (trellis_linear q q' u u') as (_ & Hn & Ho); try assumption.
  rewrite Ho, Hn. f_equal.
  apply IH; [cbn in Hlen; lia|assumption|assumption| |];
    apply trellis_next_range; assumption.
Qed.

Lemma flat_map_output_bits_lxor (outs outs' : list Z) :
  length outs = length outs' ->
  Forall (fun o => 0 <= o < 4) outs -> Forall (fun o => 0 <= o < 4) outs' ->
  flat_map output_bits (zip_with Z.lxor outs outs')
  = zip_with xorb (flat_map output_bits outs) (flat_map output_bits outs').
Proof.
  revert outs'. induction outs as [|o outs IH]; intros [|o' outs'] Hlen Ho Ho';
    try discriminate; [reflexivity|].
  inversion Ho; subst. inversion Ho'; subst.
  cbn [zip_with flat_map].
  rewrite output_bits_lxor, IH by (assumption || (cbn in Hlen; lia)).
  reflexivity.
Qed.

Lemma encoder_inputs_lxor (a b : list bool) :
  length a = length b ->
  encoder_inputs (zip_with xorb a b)
  = zip_with Z.lxor (encoder_inputs a) (encoder_inputs b).
Proof.
  intros Hlen. unfold encoder_inputs.
  rewrite zip_with_app by (rewrite !length_map; exact Hlen). f_equal.
  revert b Hlen. induction a as [|x a IH]; intros [|y b] Hlen; try discriminate;
    [reflexivity|].
  cbn [zip_with map]. rewrite IH by (cbn in Hlen; lia).
  f_equal. destruct x, y; reflexivity.
Qed.

Lemma code_word_lxor (a b : list bool) :
  length a = length b ->
  code_word (zip_with xorb a b) = zip_with xorb (code_word a) (code_word b).
Proof.
  intros Hlen. unfold code_word.
  rewrite (encoder_inputs_lxor a b Hlen).
  change 0 with (Z.lxor 0 0) at 1.
  rewrite trellis_outputs_lxor, flat_map_output_bits_lxor.
  - reflexivity.
  - rewrite !trellis_outputs_length, !encoder_inputs_length. lia.
  - apply trellis_outputs_range; [rewrite NUM_STATES_eq; lia|apply encoder_inputs_bits].
  - apply trellis_outputs_range; [rewrite NUM_STATES_eq; lia|apply encoder_inputs_bits].
  - rewrite !encoder_inputs_length. lia.
  - apply encoder_inputs_bits.
  - apply encoder_inputs_bits.
  - rewrite NUM_STATES_eq; lia.
  - rewrite NUM_STATES_eq; lia.
Qed.

(** ** Weights and distances of code words *)

Lemma weight_app (a b : list bool) : weight (a ++ b) = weight a + weight b.
Proof. induction a as [|x a IH]; cbn [app weight]; [|rewrite IH]; lia. Qed.

Lemma weight_nonneg (a : list bool) : 0 <= weight a.
Proof.
  induction a as [|x a IH]; [cbn; lia|]. cbn [weight].
  destruct x; cbn [Z.b2z]; lia.
Qed.

Lemma count_mismatch_weight (a b : list bool) :
  count_mismatch a b = weight (zip_with xorb a b).
Proof.
  revert b. induction a as [|x a IH]; intros [|y b]; try reflexivity.
  cbn [count_mismatch zip_with weight].
  rewrite IH. destruct (xorb x y); reflexivity.
Qed.

Lemma trellis_outputs_app (us vs : list Z) (q : Z) :
  trellis_outputs q (us ++ vs)
  = trellis_outputs q us ++ trellis_outputs (trellis_walk q us) vs.
Proof.
  revert q. induction us as [|u us IH]; intros q; [reflexivity|].
  cbn [app trellis_outputs]. rewrite IH. reflexivity.
Qed.

Lemma remerge_weight_facts :
  at_ 0 remerge_weight 0 = 0
  /\ branch_weight 0 0 = 0 /\ trellis_next 0 0 = 0
  /\ branch_weight 0 1 + at_ 0 remerge_weight (trellis_next 0 1) = 10
  /\ forall q u, 0 <= q < NUM_STATES -> 0 <= u < 2 ->
       at_ 0 remerge_weight q
       <= branch_weight q u + at_ 0 remerge_weight (trellis_next q u)
       /\ 0 <= branch_weight q u.
Proof.
  pose proof remerge_weight_check as Hc.
  apply andb_prop in Hc as [Hc Hall]. apply andb_prop in Hc as [Hc H10].
  apply andb_prop in Hc as [Hc Hn0]. apply andb_prop in Hc as [Hh0 Hw0].
  apply Z.eqb_eq in Hh0, Hw0, Hn0, H10.
  split; [exact Hh0|]. split; [exact Hw0|]. split; [exact Hn0|]. split; [exact H10|].
  intros q u Hq Hu. rewrite forallb_forall in Hall.
  specialize (Hall q (proj2 (in_range _ _) Hq)). rewrite forallb_forall in Hall.
  specialize (Hall u (proj2 (in_range _ _) Hu)).
  apply andb_prop in Hall as [Hle Hpos].
  apply Z.leb_le in Hle, Hpos. split; assumption.
Qed.

(** A path that ends in state 0 carries at least [remerge_weight] ones. *)
Lemma remerge_bound (us : list Z) :
  Forall (fun u => 0 <= u < 2) us ->
  forall q, 0 <= q < NUM_STATES -> trellis_walk q us = 0 ->
  at_ 0 remerge_weight q <= weight (flat_map output_bits (trellis_outputs q us)).
Proof.
  destruct remerge_weight_facts as (Hh0 & _ & _ & _ & Hstep).
  induction us as [|u us IH]; intros Hus q Hq Hend.
  - cbn in Hend. subst q. rewrite Hh0. cbn. lia.
  - inversion Hus; subst. cbn [trellis_outputs flat_map]. rewrite weight_app.
    destruct (Hstep q u Hq ltac:(assumption)) as [Hle _].
    specialize (IH ltac:(assumption) (trellis_next q u)
                  (trellis_next_range q u Hq ltac:(assumption)) Hend).
    unfold branch_weight in Hle. lia.
Qed.

(** A path from state 0 back to state 0 that leaves it carries at least
    10 ones: the free distance of the code. *)
Lemma diverging_path_weight (us : list Z) :
  Forall (fun u => 0 <= u < 2) us -> trellis_walk 0 us = 0 -> In 1 us ->
  10 <= weight (flat_map output_bits (trellis_outputs 0 us)).
Proof.
  destruct remerge_weight_facts as (_ & Hw0 & Hn0 & H10 & Hstep).
  induction us as [|u us IH]; intros Hus Hend Hin; [destruct Hin|].
  inversion Hus; subst. cbn [trellis_outputs flat_map]. rewrite weight_app.
  assert (Hu : u = 0 \/ u = 1) by lia. destruct Hu as [-> | ->].
  - destruct Hin as [Hin|Hin]; [discriminate Hin|].
    unfold trellis_walk in Hend. cbn [fold_left] in Hend. rewrite Hn0 in Hend |- *.
    specialize (IH ltac:(assumption) Hend Hin).
    pose proof (weight_nonneg (output_bits (trellis_output 0 0))). lia.
  - assert (Hq : 0 <= trellis_next 0 1 < NUM_STATES)
      by (apply trellis_next_range; [rewrite NUM_STATES_eq|]; lia).
    pose proof (remerge_bound us ltac:(assumption) _ Hq Hend) as Hb.
    unfold branch_weight in H10. lia.
Qed.

Lemma code_word_weight (info : list bool) :
  In true info -> 10 <= weight (code_word info).
Proof.
  intros Hin. unfold code_word.
  apply diverging_path_weight;
    [apply encoder_inputs_bits|apply encoder_walk_zero|].
  unfold encoder_inputs. apply in_or_app. left.
  change 1 with (Z.b2z true). apply in_map, Hin.
Qed.

Lemma xorb_differ (a b : list bool) :
  length a = length b -> a <> b -> In true (zip_with xorb a b).
Proof.
  revert b. induction a as [|x a IH]; intros [|y b] Hlen Hne; try discriminate;
    [contradiction|].
  cbn [zip_with]. destruct (Bool.bool_dec x y) as [->|Hxy].
  - right. apply IH; [cbn in Hlen; lia|]. intros ->. apply Hne. reflexivity.
  - left. destruct x, y; try reflexivity; contradiction.
Qed.

Lemma code_word_distance (a b : list bool) :
  length a = length b -> a <> b ->
  10 <= count_mismatch (code_word a) (code_word b).
Proof.
  intros Hlen Hne.
  rewrite count_mismatch_weight, <- (code_word_lxor a b Hlen).
  apply code_word_weight, xorb_differ; assumption.
Qed.

Lemma code_word_app (a b : list bool) :
  take (2 * length a) (code_word (a ++ b))
  = flat_map output_bits (trellis_outputs 0 (map Z.b2z a)).
Proof.
  unfold code_word, encoder_inputs.
  rewrite map_app, <- app_assoc, trellis_outputs_app, flat_map_app.
  apply take_app_length'.
  rewrite flat_map_output_bits_length, trellis_outputs_length, length_map. reflexivity.
Qed.

(** X9. The state table init_conv_state_table builds from the
    zero-initialised globals: for every state q and input u the next state
    is the 7-bit register (u << 6) | q shifted right by one and the output
    is the pair of parities of the register masked by G1 and by G2; and
    the reverse entries of every state x list its two incoming branches:
    two different states, entered with the same input, both leading to x,
    and no other branch leads to x. *)
Theorem state_table_entries (q u x : Z) :
  0 <= q < NUM_STATES -> 0 <= u < 2 -> 0 <= x < NUM_STATES ->
  let shift_reg := Z.lor (Z.shiftl u 6) q in
  let cs := at_ zero_state trellis x in
  let p0 := at_ 0 (prev_state cs) 0 in
  let p1 := at_ 0 (prev_state cs) 1 in
  let i0 := at_ 0 (prev_input cs) 0 in
  let i1 := at_ 0 (prev_input cs) 1 in
  trellis_next q u = Z.shiftr shift_reg 1
  /\ trellis_output q u
     = Z.lor (Z.shiftl (convolve shift_reg G1) 1) (convolve shift_reg G2)
  /\ 0 <= p0 < p1 /\ p1 < NUM_STATES /\ 0 <= i0 < 2 /\ i1 = i0
  /\ trellis_next p0 i0 = x /\ trellis_next p1 i1 = x
  /\ (trellis_next q u = x -> (q = p0 /\ u = i0) \/ (q = p1 /\ u = i1)).
Proof.
  intros Hq Hu Hx. cbv zeta.
  pose proof state_table_check as Hf. rewrite forallb_forall in Hf.
  specialize (Hf q (proj2 (in_range _ _) Hq)). rewrite forallb_forall in Hf.
  specialize (Hf u (proj2 (in_range _ _) Hu)). cbv zeta in Hf.
  apply andb_prop in Hf as [Hn Ho]. apply Z.eqb_eq in Hn, Ho.
  pose proof reverse_table_check as Hr. rewrite forallb_forall in Hr.
  specialize (Hr x (proj2 (in_range _ _) Hx)). cbv zeta in Hr.
  apply andb_prop in Hr as [Hr Hall]. apply andb_prop in Hr as [Hr Hn1].
  apply andb_prop in Hr as [Hr Hn0]. apply andb_prop in Hr as [Hr Hi1].
  apply andb_prop in Hr as [Hr Hi0b]. apply andb_prop in Hr as [Hr Hi0a].
  apply andb_prop in Hr as [Hr Hp1]. apply andb_prop in Hr as [Hp0a Hp0b].
  apply Z.leb_le in Hp0a, Hi0a. apply Z.ltb_lt in Hp0b, Hp1, Hi0b.
  apply Z.eqb_eq in Hi1, Hn0, Hn1.
  rewrite forallb_forall in Hall.
  specialize (Hall q (proj2 (in_range _ _) Hq)). rewrite forallb_forall in Hall.
  specialize (Hall u (proj2 (in_range _ _) Hu)).
  split; [exact Hn|]. split; [exact Ho|].
  split; [split; assumption|]. split; [exact Hp1|].
  split; [split; assumption|]. split; [exact Hi1|].
  split; [exact Hn0|]. split; [exact Hn1|].
  intros Hent. apply Z.eqb_eq in Hent. rewrite Hent in Hall. cbn [negb orb] in Hall.
  apply orb_prop in Hall. destruct Hall as [Hb|Hb]; apply andb_prop in Hb as [Hb1 Hb2];
    apply Z.eqb_eq in Hb1, Hb2; [left|right]; split; assumption.
Qed.

Lemma state_table_entries_witness :
  let shift_reg := Z.lor (Z.shiftl 1 6) 5 in
  let cs := at_ zero_state trellis 34 in
  let p0 := at_ 0 (prev_state cs) 0 in
  let p1 := at_ 0 (prev_state cs) 1 in
  let i0 := at_ 0 (prev_input cs) 0 in
  let i1 := at_ 0 (prev_input cs) 1 in
  trellis_next 5 1 = Z.shiftr shift_reg 1
  /\ trellis_output 5 1
     = Z.lor (Z.shiftl (convolve shift_reg G1) 1) (convolve shift_reg G2)
  /\ 0 <= p0 < p1 /\ p1 < NUM_STATES /\ 0 <= i0 < 2 /\ i1 = i0
  /\ trellis_next p0 i0 = 34 /\ trellis_next p1 i1 = 34
  /\ (trellis_next 5 1 = 34 -> (5 = p0 /\ 1 = i0) \/ (5 = p1 /\ 1 = i1)).
Proof.
  exact (state_table_entries 5 1 34 ltac:(rewrite NUM_STATES_eq; lia) ltac:(lia)
           ltac:(rewrite NUM_STATES_eq; lia)).
Defined.

(** X10. The encoder is linear over GF(2): for two info sequences of the
    same length (at least 1), the coded bits of their bitwise XOR are the
    bitwise XOR of their coded bits. *)
Theorem encode_bits_linear (a b : list bool) :
  length a = length b ->
  1 <= Z.of_nat (length a) ->
  2 * (Z.of_nat (length a) + 6) <= INT_MAX ->
  encode_bits (zip_with xorb a b) = zip_with xorb (encode_bits a) (encode_bits b).
Proof.
  intros Hlen HL Hint.
  assert (Hx : length (zip_with xorb a b) = length a)
    by (rewrite length_zip_with; lia).
  rewrite !encode_bits_code_word by (rewrite ?Hx, <- ?Hlen; assumption).
  apply code_word_lxor, Hlen.
Qed.

Lemma encode_bits_linear_witness :
  encode_bits (zip_with xorb [true; false; true] [true; true; false])
  = zip_with xorb (encode_bits [true; false; true]) (encode_bits [true; true; false]).
Proof.
  apply (encode_bits_linear [true; false; true] [true; true; false]);
    [reflexivity|cbn; lia|vm_compute; discriminate].
Defined.

(** X11. The code has minimum distance 10: the coded bits of two different
    info sequences of the same length differ in at least 10 positions
    (so the encoder is injective); the bound is attained by the
    one-bit sequences [1] and [0]. *)
Theorem encode_bits_distance (a b : list bool) :
  length a = length b -> a <> b ->
  2 * (Z.of_nat (length a) + 6) <= INT_MAX ->
  10 <= count_mismatch (encode_bits a) (encode_bits b)
  /\ count_mismatch (encode_bits [true]) (encode_bits [false]) = 10.
Proof.
  intros Hlen Hne Hint. split; [|vm_compute; reflexivity].
  assert (HL : 1 <= Z.of_nat (length a)).
  { destruct a, b; try discriminate; [contradiction|cbn [length]; lia]. }
  rewrite !encode_bits_code_word by (rewrite <- ?Hlen; assumption).
  apply code_word_distance; assumption.
Qed.

Lemma encode_bits_distance_witness :
  10 <= count_mismatch (encode_bits [true; false]) (encode_bits [true; true])
  /\ count_mismatch (encode_bits [true]) (encode_bits [false]) = 10.
Proof.
  apply (encode_bits_distance [true; false] [true; true]);
    [reflexivity|discriminate|vm_compute; discriminate].
Defined.

(** X12. The encoder is causal: the first 2 |a| coded bits of an info
    sequence that starts with a depend on a alone. *)
Theorem encode_bits_causal (a b c : list bool) :
  1 <= Z.of_nat (length a) ->
  2 * (Z.of_nat (length (a ++ b)) + 6) <= INT_MAX ->
  2 * (Z.of_nat (length (a ++ c)) + 6) <= INT_MAX ->
  take (2 * length a) (encode_bits (a ++ b))
  = take (2 * length a) (encode_bits (a ++ c)).
Proof.
  intros HL Hb Hc.
  rewrite !encode_bits_code_word by (rewrite ?length_app in *; lia).
  rewrite !code_word_app. reflexivity.
Qed.

Lemma encode_bits_causal_witness :
  take (2 * length [true; true]) (encode_bits ([true; true] ++ [false]))
  = take (2 * length [true; true]) (encode_bits ([true; true] ++ [true; true; false])).
Proof.
  apply (encode_bits_causal [true; true] [false] [true; true; false]);
    [cbn; lia|vm_compute; discriminate|vm_compute; discriminate].
Defined.

(** ** The decoder: when it fails *)

Ltac failing_call :=
  split;
  [ split;
    [ intros _;
      first [ left; lia
            | right; left; reflexivity
            | right; right; left; lia
            | do 3 right; left; reflexivity
            | do 4 right; left; reflexivity
            | do 5 right; reflexivity ]
    | intros _; lia ]
  | split; [ intros _; split; reflexivity | intros Hst; lia ] ].

(** C7. viterbi_decode returns a nonzero status exactly when the received
    length is <= 0 or odd, or the info length N - 6 (N = received_len / 2)
    is <= 0, or one of the three pointers is null; a failed call leaves
    the decoded buffer and the length cell as they were, and a successful
    one reports the decoded length N - 6. *)
Theorem viterbi_decode_status {M : Type} `{Metric M}
    (received_llr : option (list M)) (received_len : Z)
    (decoded_bits : option (list bool)) (decoded_len : option Z) :
  let '(status, bits', len') :=
    viterbi_decode received_llr received_len decoded_bits decoded_len in
  (status <> 0 <->
     received_len <= 0 \/ Z.odd received_len = true \/ received_len / 2 - 6 <= 0
     \/ received_llr = None \/ decoded_bits = None \/ decoded_len = None)
  /\ (status <> 0 -> bits' = decoded_bits /\ len' = decoded_len)
  /\ (status = 0 -> len' = Some (received_len / 2 - 6)).
Proof.
  unfold viterbi_decode.
  destruct received_llr as [llr|]; [|failing_call].
  destruct decoded_bits as [decoded|]; [|failing_call].
  destruct decoded_len as [len|]; [|failing_call].
  destruct (Z.leb_spec received_len 0) as [Hle|Hpos].
  { failing_call. }
  assert (Hrem : Z.rem received_len 2 = if Z.odd received_len then 1 else 0).
  { rewrite Z.rem_mod_nonneg by lia. apply Zmod_odd. }
  assert (Hquot : Z.quot received_len 2 = received_len / 2).
  { apply Z.quot_div_nonneg; lia. }
  rewrite Hrem, Hquot. unfold CONSTRAINT_LENGTH.
  destruct (Z.odd received_len).
  { cbn. failing_call. }
  cbn [Z.eqb negb].
  destruct (Z.leb_spec (received_len / 2 - (7 - 1)) 0) as [Hshort|Hlong].
  { failing_call. }
  destruct (forward_pass llr (received_len / 2)) as [pm ph].
  destruct (traceback ph (received_len / 2) (received_len / 2 - (7 - 1)) decoded) as [out st].
  split; [|split].
  - split; [intros Hst; exfalso; apply Hst; reflexivity|].
    intros [?|[?|[?|[?|[?|?]]]]]; first [discriminate | lia].
  - intros Hst. exfalso. apply Hst. reflexivity.
  - intros _. reflexivity.
Qed.

(** ** The decoder on an ideal channel *)

Lemma fold_establish {S X : Type} (f : S -> X -> S) (P Q : S -> Prop)
    (good : X -> Prop) (x : X) :
  (forall s y, good y -> P s -> P (f s y)) ->
  (forall s y, good y -> P s -> Q s -> Q (f s y)) ->
  (forall s, P s -> Q (f s x)) ->
  forall l, Forall good l -> In x l ->
  forall s, P s -> P (fold_left f l s) /\ Q (fold_left f l s).
Proof.
  intros HP HQ Hx l Hgood.
  assert (Hkeep : forall l', Forall good l' -> forall s, P s -> Q s ->
            P (fold_left f l' s) /\ Q (fold_left f l' s)).
  { induction l' as [|y l' IH]; intros Hl' s Ps Qs; [split; assumption|].
    inversion Hl'; subst. cbn. apply IH; [assumption|apply HP|apply HQ]; assumption. }
  induction l as [|y l IH]; intros Hin s Ps; [destruct Hin|].
  inversion Hgood; subst. cbn. destruct Hin as [->|Hin].
  - apply Hkeep; [assumption|apply HP; assumption|apply Hx; assumption].
  - apply IH; [assumption|assumption|apply HP; assumption].
Qed.

(** The branch metric against the LLRs of the transmitted pair [sent]:
    2c when the branch output is the pair sent, -2c when it is its
    complement, never more than 2c. *)
Lemma branch_metric_ideal (c out sent : Z) :
  0 < c -> 0 <= out < 4 -> 0 <= sent < 4 ->
  let llr0 := if negb (Z.land (Z.shiftr sent 1) 1 =? 0) then c else - c in
  let llr1 := if negb (Z.land sent 1 =? 0) then c else - c in
  branch_metric (M := Z) out llr0 llr1 <= 2 * c
  /\ (out = sent -> branch_metric (M := Z) out llr0 llr1 = 2 * c)
  /\ (out = 3 - sent -> branch_metric (M := Z) out llr0 llr1 = - (2 * c)).
Proof.
  intros Hc Hout Hsent.
  assert (Ho : out = 0 \/ out = 1 \/ out = 2 \/ out = 3) by lia.
  assert (Hs : sent = 0 \/ sent = 1 \/ sent = 2 \/ sent = 3) by lia.
  destruct Ho as [->|[->|[->| ->]]], Hs as [->|[->|[->| ->]]];
    unfold branch_metric; cbn [m_add m_sub m_zero integer_metric];
    repeat match goal with
           | |- context [negb ?b] =>
               let v := eval vm_compute in (negb b) in change (negb b) with v
           end;
    cbv iota; repeat split; intros; lia.
Qed.

Lemma NEG_INF_negative : @NEG_INF Z integer_metric < 0.
Proof. reflexivity. Qed.

Lemma acs_exact (llr0 llr1 n q u : Z) (pm ph : grid Z) :
  acs (M := Z) llr0 llr1 n q u (pm, ph)
  = let new_metric :=
      get2 NEG_INF pm n q + branch_metric (trellis_output q u) llr0 llr1 in
    if get2 NEG_INF pm (n + 1) (trellis_next q u) <? new_metric
    then (set2 pm (n + 1) (trellis_next q u) new_metric,
          set2 ph (n + 1) (trellis_next q u) (history_byte q u))
    else (pm, ph).
Proof. reflexivity. Qed.

(** One stage of the forward pass, when the LLRs are those of the branch
    ([t], [u]) and row [n] peaks at [t] with the value 2 c n: row [n + 1]
    then peaks at the next state with 2 c (n + 1), and the history there
    is the branch ([t], [u]). *)
Section IdealStage.
Variables (c : Z) (rows : nat) (n t u : Z) (g0 : grid Z * grid Z).
Hypothesis Hc : 0 < c.
Hypothesis Hn : 0 <= n.
Hypothesis Hrows : n + 1 < Z.of_nat rows.
Hypothesis Ht : 0 <= t < NUM_STATES.
Hypothesis Hu : 0 <= u < 2.
Hypothesis Hpeak : get2 NEG_INF (fst g0) n t = 2 * c * n.
Hypothesis Hlow : forall q, 0 <= q < NUM_STATES -> q <> t ->
  get2 NEG_INF (fst g0) n q < 2 * c * n.

Definition sent_llr0 (sent : Z) : Z :=
  if negb (Z.land (Z.shiftr sent 1) 1 =? 0) then c else - c.
Definition sent_llr1 (sent : Z) : Z :=
  if negb (Z.land sent 1 =? 0) then c else - c.

Definition stage_done (g : grid Z * grid Z) : Prop :=
  get2 NEG_INF (fst g) (n + 1) (trellis_next t u) = 2 * c * (n + 1)
  /\ get2 0 (snd g) (n + 1) (trellis_next t u) = history_byte t u.

Definition stage_inv (g : grid Z * grid Z) : Prop :=
  grid_shape rows 64 (fst g) /\ grid_shape rows 64 (snd g)
  /\ (forall i q, 0 <= i -> 0 <= q -> i <> n + 1 ->
        get2 NEG_INF (fst g) i q = get2 NEG_INF (fst g0) i q)
  /\ (forall i q, 0 <= i -> 0 <= q -> i <> n + 1 ->
        get2 0 (snd g) i q = get2 0 (snd g0) i q)
  /\ (forall q, 0 <= q < NUM_STATES -> q <> trellis_next t u ->
        get2 NEG_INF (fst g) (n + 1) q < 2 * c * (n + 1))
  /\ (get2 NEG_INF (fst g) (n + 1) (trellis_next t u) < 2 * c * (n + 1)
      \/ stage_done g).

Lemma candidate_metric (q u' : Z) (pm : grid Z) :
  0 <= q < NUM_STATES -> 0 <= u' < 2 ->
  get2 NEG_INF pm n q = get2 NEG_INF (fst g0) n q ->
  let new_metric :=
    get2 NEG_INF pm n q
    + branch_metric (trellis_output q u')
        (sent_llr0 (trellis_output t u)) (sent_llr1 (trellis_output t u)) in
  (q = t /\ u' = u -> new_metric = 2 * c * (n + 1))
  /\ (~ (q = t /\ u' = u) -> new_metric < 2 * c * (n + 1)).
Proof.
  intros Hq Hu' Hrow new_metric. subst new_metric. rewrite Hrow.
  destruct (trellis_entry q u' Hq Hu') as (_ & Hout & Hcompl & _).
  destruct (trellis_entry t u Ht Hu) as (_ & Hsent & _).
  destruct (branch_metric_ideal c (trellis_output q u') (trellis_output t u)
              Hc Hout Hsent) as (Hle & Heq & Hopp).
  fold (sent_llr0 (trellis_output t u)) (sent_llr1 (trellis_output t u)) in Hle, Heq, Hopp.
  split.
  - intros [-> ->]. rewrite Hpeak, Heq by reflexivity. lia.
  - intros Hne. destruct (Z.eq_dec q t) as [->|Hqt].
    + assert (Hu1 : 1 - u' = u) by lia. rewrite Hu1 in Hcompl.
      rewrite Hpeak, Hopp by exact Hcompl. lia.
    + specialize (Hlow q Hq Hqt). lia.
Qed.

Lemma acs_stage (q u' : Z) (g : grid Z * grid Z) :
  0 <= q < NUM_STATES -> 0 <= u' < 2 -> stage_inv g ->
  let g' := acs (sent_llr0 (trellis_output t u)) (sent_llr1 (trellis_output t u))
              n q u' g in
  stage_inv g' /\ (stage_done g -> stage_done g')
  /\ (q = t /\ u' = u -> stage_done g').
Proof.
  intros Hq Hu' HJ. destruct g as [pm ph]. rewrite acs_exact. cbv zeta.
  destruct HJ as (Sm & Sh & Fm & Fh & Low & BA). cbn [fst snd] in *.
  assert (Hrow : get2 NEG_INF pm n q = get2 NEG_INF (fst g0) n q) by (apply Fm; lia).
  destruct (candidate_metric q u' pm Hq Hu' Hrow) as [Htrue Hfalse].
  pose proof (trellis_next_range q u' Hq Hu') as Hnx.
  pose proof (trellis_next_range t u Ht Hu) as Hnt.
  rewrite NUM_STATES_eq in Hnx, Hnt.
  set (new_metric := get2 NEG_INF pm n q + _) in *.
  assert (Hcases : (q = t /\ u' = u) \/ ~ (q = t /\ u' = u)) by lia.
  destruct (Z.ltb_spec (get2 NEG_INF pm (n + 1) (trellis_next q u')) new_metric)
    as [Hupd|Hkeep].
  - assert (Hhit_m : get2 NEG_INF (set2 pm (n + 1) (trellis_next q u') new_metric)
                       (n + 1) (trellis_next q u') = new_metric)
      by (apply (get2_set2_eq rows 64); [exact Sm|lia|lia]).
    assert (Hhit_h : get2 0 (set2 ph (n + 1) (trellis_next q u') (history_byte q u'))
                       (n + 1) (trellis_next q u') = history_byte q u')
      by (apply (get2_set2_eq rows 64); [exact Sh|lia|lia]).
    assert (Hmiss_m : forall i j, 0 <= i -> 0 <= j ->
              i <> n + 1 \/ j <> trellis_next q u' ->
              get2 NEG_INF (set2 pm (n + 1) (trellis_next q u') new_metric) i j
              = get2 NEG_INF pm i j)
      by (intros i j Hi Hj Hij; apply get2_set2_ne; lia).
    assert (Hmiss_h : forall i j, 0 <= i -> 0 <= j ->
              i <> n + 1 \/ j <> trellis_next q u' ->
              get2 0 (set2 ph (n + 1) (trellis_next q u') (history_byte q u')) i j
              = get2 0 ph i j)
      by (intros i j Hi Hj Hij; apply get2_set2_ne; lia).
    unfold stage_inv, stage_done. cbn [fst snd].
    split; [|split].
    + split; [apply grid_shape_set2, Sm|]. split; [apply grid_shape_set2, Sh|].
      split; [intros i j Hi Hj Hij; rewrite Hmiss_m by lia; apply Fm; lia|].
      split; [intros i j Hi Hj Hij; rewrite Hmiss_h by lia; apply Fh; lia|].
      split.
      * intros q' Hq' Hne'. rewrite NUM_STATES_eq in Hq'.
        destruct (Z.eq_dec q' (trellis_next q u')) as [->|Hqn].
        -- rewrite Hhit_m. apply Hfalse. intros [-> ->]. apply Hne'. reflexivity.
        -- rewrite Hmiss_m by lia. apply Low; [rewrite NUM_STATES_eq|]; lia.
      * destruct (Z.eq_dec (trellis_next t u) (trellis_next q u')) as [E|Hqn].
        -- rewrite E, Hhit_m, Hhit_h. destruct Hcases as [[-> ->]|Hne].
           ++ right. split; [apply Htrue; split|]; reflexivity.
           ++ left. apply Hfalse, Hne.
        -- rewrite !Hmiss_m, !Hmiss_h by lia. exact BA.
    + intros [Dm Dh].
      destruct (Z.eq_dec (trellis_next t u) (trellis_next q u')) as [E|Hqn].
      * exfalso. rewrite <- E, Dm in Hupd.
        destruct Hcases as [Hyes|Hno]; [specialize (Htrue Hyes)|specialize (Hfalse Hno)]; lia.
      * rewrite !Hmiss_m, !Hmiss_h by lia. split; assumption.
    + intros [-> ->]. rewrite Hhit_m, Hhit_h.
      split; [apply Htrue; split|]; reflexivity.
  - split; [|split].
    + exact (conj Sm (conj Sh (conj Fm (conj Fh (conj Low BA))))).
    + intros HD. exact HD.
    + intros [-> ->]. destruct BA as [Hlt|HD]; [|exact HD].
      specialize (Htrue (conj eq_refl eq_refl)). lia.
Qed.

Lemma forward_state_stage (q : Z) (g : grid Z * grid Z) :
  0 <= q < NUM_STATES -> stage_inv g ->
  let g' := forward_state (sent_llr0 (trellis_output t u))
              (sent_llr1 (trellis_output t u)) n g q in
  stage_inv g' /\ (stage_done g -> stage_done g') /\ (q = t -> stage_done g').
Proof.
  intros Hq HJ. unfold forward_state. cbn [m_eqb integer_metric].
  destruct (Z.eqb_spec (get2 NEG_INF (fst g) n q) NEG_INF) as [Eskip|_].
  - split; [exact HJ|]. split; [tauto|]. intros ->. exfalso.
    destruct HJ as (_ & _ & Fm & _). rewrite Fm, Hpeak in Eskip by lia.
    pose proof NEG_INF_negative. nia.
  - change (range 2) with [0; 1]. cbn [fold_left].
    destruct (acs_stage q 0 g Hq ltac:(lia) HJ) as (J0 & D0 & T0).
    destruct (acs_stage q 1 _ Hq ltac:(lia) J0) as (J1 & D1 & T1).
    split; [exact J1|]. split; [tauto|]. intros ->.
    assert (Hu01 : u = 0 \/ u = 1) by lia. destruct Hu01 as [E|E].
    + apply D1, T0. split; [reflexivity|symmetry; exact E].
    + apply T1. split; [reflexivity|symmetry; exact E].
Qed.

Lemma forward_stage_ideal (llr : list Z) :
  grid_shape rows 64 (fst g0) -> grid_shape rows 64 (snd g0) ->
  (forall q, 0 <= q < NUM_STATES -> get2 NEG_INF (fst g0) (n + 1) q < 2 * c * (n + 1)) ->
  at_ 0 llr (2 * n) = sent_llr0 (trellis_output t u) ->
  at_ 0 llr (2 * n + 1) = sent_llr1 (trellis_output t u) ->
  stage_inv (forward_stage llr g0 n) /\ stage_done (forward_stage llr g0 n).
Proof.
  intros Sm Sh Hnext E0 E1. unfold forward_stage. cbn [m_zero integer_metric].
  rewrite E0, E1.
  apply (fold_establish _ stage_inv stage_done (fun q => 0 <= q < NUM_STATES) t).
  - intros g q Hq HJ. exact (proj1 (forward_state_stage q g Hq HJ)).
  - intros g q Hq HJ HD. exact (proj1 (proj2 (forward_state_stage q g Hq HJ)) HD).
  - intros g HJ. exact (proj2 (proj2 (forward_state_stage t g Ht HJ)) eq_refl).
  - apply Forall_forall. intros q Hq. apply list_elem_of_In, in_range in Hq. exact Hq.
  - apply in_range. exact Ht.
  - split; [exact Sm|]. split; [exact Sh|]. split; [reflexivity|]. split; [reflexivity|].
    split; [intros q Hq _; apply Hnext, Hq|]. left. apply Hnext, trellis_next_range; assumption.
Qed.

End IdealStage.

(** The whole forward pass and the traceback, on the LLRs of the path the
    inputs [us] take from state 0. *)
Section IdealPass.
Variables (c : Z) (us : list Z).
Hypothesis Hc : 0 < c.
Hypothesis Hus : Forall (fun u => 0 <= u < 2) us.

Definition ideal_llrs : list Z :=
  ideal_llr c (- c) (flat_map output_bits (trellis_outputs 0 us)).

Lemma true_state_range (s : Z) : 0 <= true_state us s < NUM_STATES.
Proof.
  unfold true_state. apply trellis_walk_range; [rewrite NUM_STATES_eq; lia|].
  apply Forall_take, Hus.
Qed.

Lemma true_input_range (s : Z) :
  0 <= s < Z.of_nat (length us) -> 0 <= true_input us s < 2.
Proof.
  intros Hs. unfold true_input, at_. rewrite Forall_forall in Hus.
  apply Hus, list_elem_of_In, nth_In. lia.
Qed.

Lemma true_state_succ (s : Z) :
  0 <= s < Z.of_nat (length us) ->
  true_state us (s + 1) = trellis_next (true_state us s) (true_input us s).
Proof.
  intros Hs. unfold true_state, true_input, at_, trellis_walk.
  replace (Z.to_nat (s + 1)) with (Datatypes.S (Z.to_nat s)) by lia.
  rewrite (take_S_r us (Z.to_nat s) (nth (Z.to_nat s) us 0)).
  - rewrite fold_left_app. reflexivity.
  - destruct (nth_lookup_or_length us (Z.to_nat s) 0) as [E|E]; [exact E|lia].
Qed.

Lemma ideal_llr_pairs (outs : list Z) (k : nat) :
  (k < length outs)%nat ->
  nth (2 * k) (ideal_llr c (- c) (flat_map output_bits outs)) 0
    = sent_llr0 c (nth k outs 0)
  /\ nth (2 * k + 1) (ideal_llr c (- c) (flat_map output_bits outs)) 0
    = sent_llr1 c (nth k outs 0).
Proof.
  revert k. induction outs as [|o outs IH]; intros k Hk; [cbn in Hk; lia|].
  destruct k as [|k].
  - split; reflexivity.
  - replace (2 * Datatypes.S k)%nat with (Datatypes.S (Datatypes.S (2 * k))) by lia.
    replace (Datatypes.S (Datatypes.S (2 * k)) + 1)%nat
      with (Datatypes.S (Datatypes.S (2 * k + 1))) by lia.
    cbn [flat_map output_bits app ideal_llr map nth].
    apply IH. cbn in Hk. lia.
Qed.

Lemma trellis_outputs_nth (inputs : list Z) (q : Z) (k : nat) :
  (k < length inputs)%nat ->
  nth k (trellis_outputs q inputs) 0
  = trellis_output (trellis_walk q (take k inputs)) (nth k inputs 0).
Proof.
  revert q k. induction inputs as [|u inputs IH]; intros q k Hk; [cbn in Hk; lia|].
  destruct k as [|k]; [reflexivity|].
  cbn [trellis_outputs nth take]. rewrite IH by (cbn in Hk; lia). reflexivity.
Qed.

Lemma ideal_llrs_at (s : Z) :
  0 <= s < Z.of_nat (length us) ->
  at_ 0 ideal_llrs (2 * s)
    = sent_llr0 c (trellis_output (true_state us s) (true_input us s))
  /\ at_ 0 ideal_llrs (2 * s + 1)
    = sent_llr1 c (trellis_output (true_state us s) (true_input us s)).
Proof.
  intros Hs. unfold at_, ideal_llrs, true_state, true_input, at_.
  replace (Z.to_nat (2 * s)) with (2 * Z.to_nat s)%nat by lia.
  replace (Z.to_nat (2 * s + 1)) with (2 * Z.to_nat s + 1)%nat by lia.
  rewrite <- (trellis_outputs_nth us 0 (Z.to_nat s)) by lia.
  apply ideal_llr_pairs. rewrite trellis_outputs_length. lia.
Qed.

Definition pass_inv (n : Z) (g : grid Z * grid Z) : Prop :=
  grid_shape (Datatypes.S (length us)) 64 (fst g)
  /\ grid_shape (Datatypes.S (length us)) 64 (snd g)
  /\ get2 NEG_INF (fst g) n (true_state us n) = 2 * c * n
  /\ (forall q, 0 <= q < NUM_STATES -> q <> true_state us n ->
        get2 NEG_INF (fst g) n q < 2 * c * n)
  /\ (forall s q, n < s <= Z.of_nat (length us) -> 0 <= q < NUM_STATES ->
        get2 NEG_INF (fst g) s q = NEG_INF)
  /\ (forall s, 1 <= s <= n ->
        get2 0 (snd g) s (true_state us s)
        = history_byte (true_state us (s - 1)) (true_input us (s - 1))).

Lemma pass_step (n : Z) (g : grid Z * grid Z) :
  0 <= n < Z.of_nat (length us) -> pass_inv n g ->
  pass_inv (n + 1) (forward_stage ideal_llrs g n).
Proof.
  intros Hn (Sm & Sh & Peak & Low & Fresh & Hist).
  pose proof (true_state_range n) as Ht.
  pose proof (true_input_range n Hn) as Hu.
  destruct (ideal_llrs_at n Hn) as [E0 E1].
  assert (Hnext : forall q, 0 <= q < NUM_STATES ->
            get2 NEG_INF (fst g) (n + 1) q < 2 * c * (n + 1)).
  { intros q Hq. rewrite Fresh by lia. pose proof NEG_INF_negative. nia. }
  destruct (forward_stage_ideal c (Datatypes.S (length us)) n (true_state us n)
              (true_input us n) g Hc ltac:(lia) ltac:(lia) Ht Hu Peak Low
              ideal_llrs Sm Sh Hnext E0 E1)
    as ((Sm' & Sh' & Fm & Fh & Low' & _) & Dm & Dh).
  rewrite <- (true_state_succ n Hn) in Low', Dm, Dh.
  split; [exact Sm'|]. split; [exact Sh'|]. split; [exact Dm|]. split; [exact Low'|].
  split.
  - intros s q Hs Hq. rewrite Fm by lia. apply Fresh; lia.
  - intros s Hs. destruct (Z.eq_dec s (n + 1)) as [->|Hne].
    + rewrite Dh. replace (n + 1 - 1) with n by lia. reflexivity.
    + pose proof (true_state_range s). rewrite Fh by lia. apply Hist. lia.
Qed.

Lemma pass_start :
  pass_inv 0
    (set2 (replicate (Datatypes.S (length us)) (replicate 64 NEG_INF)) 0 0 0,
     replicate (Datatypes.S (length us)) (replicate 64 0)).
Proof.
  assert (S0 := grid_shape_replicate (Datatypes.S (length us)) 64 (@NEG_INF Z _)).
  split; [apply grid_shape_set2, S0|]. split; [apply grid_shape_replicate|].
  cbn [fst snd]. change (true_state us 0) with 0. rewrite Z.mul_0_r.
  split; [apply (get2_set2_eq (Datatypes.S (length us)) 64); [exact S0|lia|lia]|].
  split.
  - intros q Hq Hne. rewrite NUM_STATES_eq in Hq.
    rewrite get2_set2_ne, get2_replicate by lia. reflexivity.
  - split; [|intros s Hs; lia].
    intros s q Hs Hq. rewrite NUM_STATES_eq in Hq.
    rewrite get2_set2_ne, get2_replicate by lia. reflexivity.
Qed.

Lemma pass_prefix (k : nat) :
  (k <= length us)%nat ->
  pass_inv (Z.of_nat k)
    (fold_left (forward_stage ideal_llrs) (range (Z.of_nat k))
       (set2 (replicate (Datatypes.S (length us)) (replicate 64 NEG_INF)) 0 0 0,
        replicate (Datatypes.S (length us)) (replicate 64 0))).
Proof.
  induction k as [|k IH]; intros Hk; [exact pass_start|].
  rewrite Nat2Z.inj_succ, <- Z.add_1_r, range_succ, fold_left_app by lia.
  cbn [fold_left]. apply pass_step; [lia|apply IH; lia].
Qed.

Lemma forward_pass_ideal :
  pass_inv (Z.of_nat (length us))
    (forward_pass ideal_llrs (Z.of_nat (length us))).
Proof.
  unfold forward_pass. cbn [m_zero integer_metric].
  replace (Z.to_nat (Z.of_nat (length us) + 1)) with (Datatypes.S (length us)) by lia.
  change (Z.to_nat NUM_STATES) with 64%nat.
  apply pass_prefix. lia.
Qed.

End IdealPass.

(** The traceback follows the recorded branches of the true path back from
    its last state, and writes the inputs of the first [L] stages. *)
Section IdealTraceback.
Variables (us : list Z) (ph : grid Z) (L : Z) (dbuf : list bool).
Hypothesis Hus : Forall (fun u => 0 <= u < 2) us.
Hypothesis Hist : forall s, 1 <= s <= Z.of_nat (length us) ->
  get2 0 ph s (true_state us s)
  = history_byte (true_state us (s - 1)) (true_input us (s - 1)).
Hypothesis HL : 0 <= L <= Z.of_nat (length us).
Hypothesis Hbuf : L <= Z.of_nat (length dbuf).

Lemma traceback_prefix (k : nat) :
  (k <= length us)%nat ->
  exists d,
    fold_left (traceback_step ph L)
      (map (fun i => Z.of_nat (length us) - i) (range (Z.of_nat k)))
      (dbuf, true_state us (Z.of_nat (length us)))
    = (d, true_state us (Z.of_nat (length us) - Z.of_nat k))
    /\ length d = length dbuf
    /\ forall i : nat,
         nth i d false
         = if (Z.of_nat (length us) - Z.of_nat k <=? Z.of_nat i) && (Z.of_nat i <? L)
           then true_input us (Z.of_nat i) =? 1
           else nth i dbuf false.
Proof.
  induction k as [|k IH]; intros Hk.
  - exists dbuf. change (Z.of_nat 0) with 0. rewrite Z.sub_0_r.
    split; [reflexivity|]. split; [reflexivity|].
    intros i. destruct (Z.leb_spec (Z.of_nat (length us)) (Z.of_nat i));
      destruct (Z.ltb_spec (Z.of_nat i) L); cbn [andb]; try reflexivity; lia.
  - destruct (IH ltac:(lia)) as (d & Hfold & Hlen & Hnth).
    rewrite Nat2Z.inj_succ, <- Z.add_1_r, range_succ, map_app, fold_left_app, Hfold by lia.
    cbn [map fold_left traceback_step].
    set (stage := Z.of_nat (length us) - Z.of_nat k) in *.
    assert (Hstage : 1 <= stage <= Z.of_nat (length us)) by (unfold stage; lia).
    rewrite (Hist stage Hstage). unfold history_byte.
    pose proof (true_state_range us Hus (stage - 1)) as Ht.
    assert (Hu : 0 <= true_input us (stage - 1) < 2)
      by (apply (true_input_range us Hus); lia).
    destruct (trellis_entry _ _ Ht Hu) as (_ & _ & _ & Eprev & Einput).
    rewrite Eprev, Einput.
    replace (Z.of_nat (length us) - (Z.of_nat k + 1)) with (stage - 1) by (unfold stage; lia).
    eexists. split; [reflexivity|]. split.
    + destruct (stage <=? L); [rewrite length_insert|]; exact Hlen.
    + intros i. destruct (Z.leb_spec stage L) as [Hin|Hout].
      * destruct (Nat.eq_dec (Z.to_nat (stage - 1)) i) as [<-|Hne].
        -- rewrite nth_insert_eq by lia. rewrite Z2Nat.id by lia.
           destruct (Z.leb_spec (stage - 1) (stage - 1)); [|lia].
           destruct (Z.ltb_spec (stage - 1) L); [|lia]. reflexivity.
        -- rewrite nth_insert_ne, Hnth by exact Hne.
           destruct (Z.leb_spec stage (Z.of_nat i));
             destruct (Z.leb_spec (stage - 1) (Z.of_nat i));
             destruct (Z.ltb_spec (Z.of_nat i) L); cbn [andb]; try reflexivity; lia.
      * rewrite Hnth.
        destruct (Z.leb_spec stage (Z.of_nat i));
          destruct (Z.leb_spec (stage - 1) (Z.of_nat i));
          destruct (Z.ltb_spec (Z.of_nat i) L); cbn [andb]; try reflexivity; lia.
Qed.

Lemma traceback_ideal :
  true_state us (Z.of_nat (length us)) = 0 ->
  traceback ph (Z.of_nat (length us)) L dbuf
  = (map (fun u => u =? 1) (take (Z.to_nat L) us) ++ drop (Z.to_nat L) dbuf, 0).
Proof.
  intros Hend. unfold traceback. rewrite <- Hend at 1.
  destruct (traceback_prefix (length us) ltac:(lia)) as (d & Hfold & Hlen & Hnth).
  rewrite Hfold, Z.sub_diag. change (true_state us 0) with 0. f_equal.
  apply (nth_ext _ _ false false).
  - rewrite length_app, length_map, length_take, length_drop. lia.
  - intros i Hi. rewrite Hnth.
    destruct (Z.leb_spec (Z.of_nat (length us) - Z.of_nat (length us)) (Z.of_nat i)); [|lia].
    destruct (Z.ltb_spec (Z.of_nat i) L) as [Hlt|Hge]; cbn [andb].
    + rewrite app_nth1 by (rewrite length_map, length_take; lia).
      rewrite (nth_indep _ false (0 =? 1)) by (rewrite length_map, length_take; lia).
      rewrite (map_nth (fun u => u =? 1)). unfold true_input, at_.
      rewrite Nat2Z.id, (nth_lookup (take _ _)), lookup_take_lt, <- nth_lookup by lia.
      reflexivity.
    + rewrite app_nth2; rewrite length_map, length_take; [|lia].
      rewrite (nth_lookup (drop _ _)), lookup_drop, <- nth_lookup. f_equal. lia.
Qed.

End IdealTraceback.

(** ** The order of binary64 *)

(** A non-NaN float, as a point of Z x Z x Z ordered lexicographically. *)
Definition sf_key (f : spec_float) : option (Z * Z * Z) :=
  match f with
  | S754_nan => None
  | S754_infinity true => Some (-2, 0, 0)
  | S754_infinity false => Some (2, 0, 0)
  | S754_zero _ => Some (0, 0, 0)
  | S754_finite true m e => Some (-1, - e, - Z.pos m)
  | S754_finite false m e => Some (1, e, Z.pos m)
  end.

Definition key_lt (a b : Z * Z * Z) : Prop :=
  let '(a1, a2, a3) := a in
  let '(b1, b2, b3) := b in
  a1 < b1 \/ (a1 = b1 /\ (a2 < b2 \/ (a2 = b2 /\ a3 < b3))).

Definition sf_lt (f g : spec_float) : Prop :=
  match sf_key f, sf_key g with
  | Some a, Some b => key_lt a b
  | _, _ => False
  end.

Definition sf_eq (f g : spec_float) : Prop :=
  match sf_key f, sf_key g with
  | Some a, Some b => a = b
  | _, _ => False
  end.

Lemma SFcompare_key (f g : spec_float) :
  (SFltb f g = true <-> sf_lt f g) /\ (SFeqb f g = true <-> sf_eq f g).
Proof.
  unfold SFltb, SFeqb, sf_lt, sf_eq, key_lt.
  destruct f as [[|]|[|]| |[|] m1 e1], g as [[|]|[|]| |[|] m2 e2]; cbn;
    try (split; split; intros Hx; first [discriminate | reflexivity | lia | congruence | (exfalso; lia) | (exfalso; congruence)]).
  - destruct (Z.compare_spec e1 e2) as [E|E|E].
    + subst e2. change (Pos.compare_cont Eq m1 m2) with (Pos.compare m1 m2).
      destruct (Pos.compare_spec m1 m2) as [Em|Em|Em]; cbn;
        split; split; intros Hx; first [discriminate | reflexivity | lia | congruence | (exfalso; lia) | (exfalso; inversion Hx; lia)].
    + split; split; intros Hx; first [discriminate | reflexivity | lia | (exfalso; lia) | (exfalso; inversion Hx; lia)].
    + split; split; intros Hx; first [discriminate | reflexivity | lia | (exfalso; lia) | (exfalso; inversion Hx; lia)].
  - destruct (Z.compare_spec e1 e2) as [E|E|E].
    + subst e2. change (Pos.compare_cont Eq m1 m2) with (Pos.compare m1 m2).
      destruct (Pos.compare_spec m1 m2) as [Em|Em|Em]; cbn;
        split; split; intros Hx; first [discriminate | reflexivity | lia | congruence | (exfalso; lia) | (exfalso; inversion Hx; lia)].
    + split; split; intros Hx; first [discriminate | reflexivity | lia | (exfalso; lia) | (exfalso; inversion Hx; lia)].
    + split; split; intros Hx; first [discriminate | reflexivity | lia | (exfalso; lia) | (exfalso; inversion Hx; lia)].
Qed.

(** What the tie-breaking of add-compare-select needs of the comparisons
    of a metric type.  The laws hold for every double, NaN and the
    infinities included: a comparison with NaN is false. *)
Class MetricOrder (M : Type) `{Metric M} : Prop := {
  m_lt_trans : forall a b c : M,
    m_ltb a b = true -> m_ltb b c = true -> m_ltb a c = true;
  m_lt_eq_trans : forall a b c : M,
    m_ltb a b = true -> m_eqb b c = true -> m_ltb a c = true;
  m_lt_asym : forall a b : M, m_ltb a b = true -> m_ltb b a = false;
  m_lt_neq : forall a b : M, m_ltb a b = true -> m_eqb b a = false
}.

(** [a <= b] as the code would write it. *)
#[export] Instance integer_order : MetricOrder Z.
Proof.
  split; cbn [m_ltb m_eqb integer_metric]; intros.
  - apply Z.ltb_lt. apply Z.ltb_lt in H, H0. lia.
  - apply Z.ltb_lt. apply Z.ltb_lt in H. apply Z.eqb_eq in H0. lia.
  - apply Z.ltb_ge. apply Z.ltb_lt in H. lia.
  - apply Z.eqb_neq. apply Z.ltb_lt in H. lia.
Qed.

#[export] Instance binary64_order : MetricOrder float.
Proof.
  assert (Hlt : forall a b, PrimFloat.ltb a b = true <-> sf_lt (Prim2SF a) (Prim2SF b))
    by (intros a b; rewrite FloatAxioms.ltb_spec; apply SFcompare_key).
  assert (Heq : forall a b, PrimFloat.eqb a b = true <-> sf_eq (Prim2SF a) (Prim2SF b))
    by (intros a b; rewrite FloatAxioms.eqb_spec; apply SFcompare_key).
  split; cbn [m_ltb m_eqb binary64_metric]; intros a b.
  - intros c Hab Hbc. apply Hlt. apply Hlt in Hab, Hbc. revert Hab Hbc.
    unfold sf_lt, key_lt.
    destruct (sf_key (Prim2SF a)) as [[[a1 a2] a3]|], (sf_key (Prim2SF b)) as [[[b1 b2] b3]|],
      (sf_key (Prim2SF c)) as [[[c1 c2] c3]|]; try tauto; lia.
  - intros c Hab Hbc. apply Hlt. apply Hlt in Hab. apply Heq in Hbc. revert Hab Hbc.
    unfold sf_lt, sf_eq, key_lt.
    destruct (sf_key (Prim2SF a)) as [[[a1 a2] a3]|], (sf_key (Prim2SF b)) as [[[b1 b2] b3]|],
      (sf_key (Prim2SF c)) as [[[c1 c2] c3]|]; try tauto.
    intros Hab Hbc. inversion Hbc; subst. exact Hab.
  - intros Hab. apply not_true_is_false. intros Hba. apply Hlt in Hab, Hba. revert Hab Hba.
    unfold sf_lt, key_lt.
    destruct (sf_key (Prim2SF a)) as [[[a1 a2] a3]|], (sf_key (Prim2SF b)) as [[[b1 b2] b3]|];
      try tauto; lia.
  - intros Hab. apply not_true_is_false. intros Hba. apply Hlt in Hab. apply Heq in Hba.
    revert Hab Hba. unfold sf_lt, sf_eq, key_lt.
    destruct (sf_key (Prim2SF a)) as [[[a1 a2] a3]|], (sf_key (Prim2SF b)) as [[[b1 b2] b3]|];
      try tauto.
    intros Hab Hba. inversion Hba; subst. lia.
Qed.

(** ** binary64 on small integers

    On integers of magnitude below 2^53 the additions, subtractions and
    comparisons of binary64 are exact.  This is proved from the
    specification of the primitive floats ([SpecFloat]). *)

(** [z * 2^n]. *)
Fixpoint shl (z : positive) (n : nat) : positive :=
  match n with
  | O => z
  | Datatypes.S n' => xO (shl z n')
  end.

Lemma shl_add (z : positive) (n m : nat) : shl (shl z n) m = shl z (n + m).
Proof.
  induction m as [|m IH]; [rewrite Nat.add_0_r; reflexivity|].
  rewrite Nat.add_succ_r. cbn [shl]. rewrite IH. reflexivity.
Qed.

Lemma shl_value (z : positive) (n : nat) : Z.pos (shl z n) = Z.pos z * 2 ^ Z.of_nat n.
Proof.
  induction n as [|n IH]; [cbn [shl]; lia|].
  cbn [shl]. rewrite Pos2Z.inj_xO, IH, Nat2Z.inj_succ, Z.pow_succ_r by lia. lia.
Qed.

Lemma digits_shl (z : positive) (n : nat) :
  Z.pos (digits2_pos (shl z n)) = Z.pos (digits2_pos z) + Z.of_nat n.
Proof.
  induction n as [|n IH]; [cbn [shl]; lia|].
  cbn [shl digits2_pos]. rewrite Pos2Z.inj_succ, IH. lia.
Qed.

Lemma digits_log2 (z : positive) : Z.pos (digits2_pos z) = Z.log2 (Z.pos z) + 1.
Proof.
  assert (Hsize : forall p, digits2_pos p = Pos.size p)
    by (induction p as [p IH|p IH|]; cbn; [rewrite IH|rewrite IH|]; reflexivity).
  destruct z as [p|p|]; cbn [digits2_pos Z.log2]; rewrite ?Hsize; lia.
Qed.

Lemma digits_small (z : positive) :
  Z.pos z < 2 ^ 53 -> 1 <= Z.pos (digits2_pos z) <= 53.
Proof.
  intros Hz. rewrite digits_log2.
  pose proof (Z.log2_nonneg (Z.pos z)).
  pose proof (proj1 (Z.log2_lt_pow2 (Z.pos z) 53 ltac:(lia)) Hz). lia.
Qed.

Lemma iter_pos_nat {A : Type} (f : A -> A) (p : positive) (x : A) :
  SpecFloat.iter_pos f p x = Nat.iter (Pos.to_nat p) f x.
Proof.
  revert x. induction p as [p IH|p IH|]; intros x; cbn [SpecFloat.iter_pos].
  - rewrite !IH, Pos2Nat.inj_xI.
    replace (Datatypes.S (2 * Pos.to_nat p)) with (Pos.to_nat p + Datatypes.S (Pos.to_nat p))%nat by lia.
    rewrite Nat.iter_add, Nat.iter_succ_r. reflexivity.
  - rewrite !IH, Pos2Nat.inj_xO.
    replace (2 * Pos.to_nat p)%nat with (Pos.to_nat p + Pos.to_nat p)%nat by lia.
    rewrite Nat.iter_add. reflexivity.
  - reflexivity.
Qed.

Lemma pos_iter_shl (z d : positive) : Pos.iter xO z d = shl z (Pos.to_nat d).
Proof.
  rewrite Pos2Nat.inj_iter. generalize (Pos.to_nat d). intros n.
  induction n as [|n IH]; [reflexivity|]. cbn. rewrite IH. reflexivity.
Qed.

Lemma shr_shl (z : positive) (n j : nat) :
  Nat.iter n shr_1 {| shr_m := Z.pos (shl z (n + j)); shr_r := false; shr_s := false |}
  = {| shr_m := Z.pos (shl z j); shr_r := false; shr_s := false |}.
Proof.
  induction n as [|n IH]; [reflexivity|].
  rewrite Nat.iter_succ_r. cbn [Nat.add shl shr_1 orb]. exact IH.
Qed.

(** The binary64 representation of the integer with sign [s] and
    magnitude [z < 2^53]: the mantissa is [z] shifted to 53 digits. *)
Definition int_finite (s : bool) (z : positive) : spec_float :=
  S754_finite s (shl z (Z.to_nat (53 - Z.pos (digits2_pos z))))
    (Z.pos (digits2_pos z) - 53).

Lemma fexp_small (d : Z) : 1 <= d <= 53 -> fexp prec emax d = d - 53.
Proof. intros Hd. unfold fexp, SpecFloat.emin, prec, emax. lia. Qed.

Lemma binary_round_aux_int (s : bool) (z : positive) (j : nat) :
  Z.pos z < 2 ^ 53 ->
  53 - Z.pos (digits2_pos z) <= Z.of_nat j ->
  binary_round_aux prec emax s (Z.pos (shl z j)) (- Z.of_nat j) loc_Exact
  = int_finite s z.
Proof.
  intros Hz Hj. pose proof (digits_small z Hz) as Hd.
  set (dz := Z.pos (digits2_pos z)) in *.
  unfold binary_round_aux, shr_fexp.
  cbn [Zdigits2 shr_record_of_loc]. rewrite digits_shl. fold dz.
  replace (dz + Z.of_nat j + - Z.of_nat j) with dz by lia.
  rewrite fexp_small by exact Hd.
  assert (Hfirst : shr {| shr_m := Z.pos (shl z j); shr_r := false; shr_s := false |}
                     (- Z.of_nat j) (dz - 53 - - Z.of_nat j)
                   = ({| shr_m := Z.pos (shl z (Z.to_nat (53 - dz)));
                         shr_r := false; shr_s := false |}, dz - 53)).
  { unfold shr. destruct (dz - 53 - - Z.of_nat j) as [|p|p] eqn:En.
    - replace (Z.to_nat (53 - dz)) with j by lia. f_equal. lia.
    - rewrite iter_pos_nat.
      replace j with (Pos.to_nat p + Z.to_nat (53 - dz))%nat at 1 by lia.
      rewrite shr_shl. f_equal. lia.
    - lia. }
  rewrite Hfirst. cbn [shr_m loc_of_shr_record round_nearest_even Zdigits2 shr_record_of_loc].
  rewrite digits_shl. fold dz.
  replace (dz + Z.of_nat (Z.to_nat (53 - dz)) + (dz - 53)) with dz by lia.
  rewrite fexp_small, Z.sub_diag by exact Hd. cbn [shr shr_m].
  unfold int_finite. fold dz.
  destruct (Z.leb_spec (dz - 53) (emax - prec)) as [_|Hbad]; [reflexivity|].
  unfold emax, prec in Hbad. lia.
Qed.

Lemma binary_round_int (s : bool) (z : positive) (k : nat) :
  Z.pos z < 2 ^ 53 ->
  binary_round prec emax s (shl z k) (- Z.of_nat k) = int_finite s z.
Proof.
  intros Hz. pose proof (digits_small z Hz) as Hd.
  unfold binary_round. rewrite digits_shl.
  replace (Z.pos (digits2_pos z) + Z.of_nat k + - Z.of_nat k)
    with (Z.pos (digits2_pos z)) by lia.
  rewrite fexp_small by exact Hd. unfold shl_align.
  destruct (Z.pos (digits2_pos z) - 53 - - Z.of_nat k) as [|p|p] eqn:En.
  - apply binary_round_aux_int; [exact Hz|lia].
  - apply binary_round_aux_int; [exact Hz|lia].
  - rewrite pos_iter_shl, shl_add.
    replace (Z.pos (digits2_pos z) - 53)
      with (- Z.of_nat (k + Pos.to_nat p)) by lia.
    apply binary_round_aux_int; [exact Hz|lia].
Qed.

(** The representation of an integer, and [float_of_Z]. *)
Definition int_sf (z : Z) : spec_float :=
  match z with
  | Z0 => S754_zero false
  | Zpos p => int_finite false p
  | Zneg p => int_finite true p
  end.

Lemma binary_normalize_int (m : Z) (k : nat) (z : Z) :
  Z.abs z < 2 ^ 53 -> m = z * 2 ^ Z.of_nat k ->
  binary_normalize prec emax m (- Z.of_nat k) false = int_sf z.
Proof.
  intros Hz Hm. unfold binary_normalize.
  assert (Hpow : 0 < 2 ^ Z.of_nat k) by (apply Z.pow_pos_nonneg; lia).
  destruct z as [|p|p].
  - subst m. reflexivity.
  - assert (E : m = Z.pos (shl p k)) by (rewrite shl_value; exact Hm).
    rewrite E. apply binary_round_int. exact Hz.
  - assert (E : m = Z.neg (shl p k)).
    { rewrite <- Pos2Z.opp_pos, shl_value, Hm, <- Pos2Z.opp_pos. lia. }
    rewrite E. apply binary_round_int. exact Hz.
Qed.

Lemma float_of_Z_spec (z : Z) :
  Z.abs z < 2 ^ 53 -> Prim2SF (float_of_Z z) = int_sf z.
Proof.
  intros Hz.
  assert (Hpos : forall p, Z.pos p < 2 ^ 53 ->
            Prim2SF (of_uint63 (Uint63.of_Z (Z.pos p))) = int_finite false p).
  { intros p Hp. rewrite FloatAxioms.of_uint63_spec, Uint63.of_Z_spec.
    rewrite Z.mod_small by (change Uint63.wB with (2 ^ 63); lia).
    exact (binary_normalize_int (Z.pos p) 0 (Z.pos p) Hp ltac:(cbn; lia)). }
  destruct z as [|p|p]; [reflexivity|apply Hpos; exact Hz|].
  unfold float_of_Z. rewrite FloatAxioms.opp_spec, Hpos by exact Hz. reflexivity.
Qed.

Lemma shl_align_int (z : positive) (ez : Z) :
  Z.pos z < 2 ^ 53 -> ez <= Z.pos (digits2_pos z) - 53 ->
  fst (shl_align (shl z (Z.to_nat (53 - Z.pos (digits2_pos z))))
         (Z.pos (digits2_pos z) - 53) ez)
  = shl z (Z.to_nat (- ez)).
Proof.
  intros Hz Hez. pose proof (digits_small z Hz) as Hd. unfold shl_align.
  destruct (ez - (Z.pos (digits2_pos z) - 53)) as [|p|p] eqn:En; cbn [fst].
  - f_equal. lia.
  - lia.
  - rewrite pos_iter_shl, shl_add. f_equal. lia.
Qed.

Lemma int_sum_exact (a b : Z) (op : Z -> Z -> Z) (pa pb : positive) (sa sb : bool) :
  a = cond_Zopp sa (Z.pos pa) -> b = cond_Zopp sb (Z.pos pb) ->
  (forall x y k, op (x * k) (y * k) = op x y * k) ->
  Z.pos pa < 2 ^ 53 -> Z.pos pb < 2 ^ 53 -> Z.abs (op a b) < 2 ^ 53 ->
  let ez := Z.min (Z.pos (digits2_pos pa) - 53) (Z.pos (digits2_pos pb) - 53) in
  binary_normalize prec emax
    (op (cond_Zopp sa (Z.pos (fst (shl_align
            (shl pa (Z.to_nat (53 - Z.pos (digits2_pos pa))))
            (Z.pos (digits2_pos pa) - 53) ez))))
        (cond_Zopp sb (Z.pos (fst (shl_align
            (shl pb (Z.to_nat (53 - Z.pos (digits2_pos pb))))
            (Z.pos (digits2_pos pb) - 53) ez)))))
    ez false
  = int_sf (op a b).
Proof.
  intros Ea Eb Hop Ha Hb Hab ez.
  pose proof (digits_small pa Ha) as Hda. pose proof (digits_small pb Hb) as Hdb.
  rewrite !shl_align_int by (assumption || (unfold ez; lia)).
  replace ez with (- Z.of_nat (Z.to_nat (- ez))) at 3 by (unfold ez; lia).
  apply binary_normalize_int; [exact Hab|].
  rewrite !shl_value, Ea, Eb, <- Hop.
  destruct sa, sb; cbn [cond_Zopp]; f_equal; lia.
Qed.

Lemma SFadd_int (a b : Z) :
  Z.abs a < 2 ^ 53 -> Z.abs b < 2 ^ 53 -> Z.abs (a + b) < 2 ^ 53 ->
  SFadd prec emax (int_sf a) (int_sf b) = int_sf (a + b).
Proof.
  intros Ha Hb Hab.
  destruct a as [|pa|pa], b as [|pb|pb]; try reflexivity; unfold int_sf at 1 2, int_finite;
    cbn [SFadd].
  - exact (int_sum_exact (Z.pos pa) (Z.pos pb) Z.add pa pb false false
             eq_refl eq_refl ltac:(intros; lia) Ha Hb Hab).
  - exact (int_sum_exact (Z.pos pa) (Z.neg pb) Z.add pa pb false true
             eq_refl eq_refl ltac:(intros; lia) Ha Hb Hab).
  - exact (int_sum_exact (Z.neg pa) (Z.pos pb) Z.add pa pb true false
             eq_refl eq_refl ltac:(intros; lia) Ha Hb Hab).
  - exact (int_sum_exact (Z.neg pa) (Z.neg pb) Z.add pa pb true true
             eq_refl eq_refl ltac:(intros; lia) Ha Hb Hab).
Qed.

Lemma SFsub_int (a b : Z) :
  Z.abs a < 2 ^ 53 -> Z.abs b < 2 ^ 53 -> Z.abs (a - b) < 2 ^ 53 ->
  SFsub prec emax (int_sf a) (int_sf b) = int_sf (a - b).
Proof.
  intros Ha Hb Hab.
  destruct a as [|pa|pa], b as [|pb|pb]; try reflexivity; unfold int_sf at 1 2, int_finite;
    cbn [SFsub].
  - exact (int_sum_exact (Z.pos pa) (Z.pos pb) Z.sub pa pb false false
             eq_refl eq_refl ltac:(intros; lia) Ha Hb Hab).
  - exact (int_sum_exact (Z.pos pa) (Z.neg pb) Z.sub pa pb false true
             eq_refl eq_refl ltac:(intros; lia) Ha Hb Hab).
  - exact (int_sum_exact (Z.neg pa) (Z.pos pb) Z.sub pa pb true false
             eq_refl eq_refl ltac:(intros; lia) Ha Hb Hab).
  - exact (int_sum_exact (Z.neg pa) (Z.neg pb) Z.sub pa pb true true
             eq_refl eq_refl ltac:(intros; lia) Ha Hb Hab).
Qed.

(** Comparisons. *)
Lemma magnitude_order (pa pb : positive) :
  Z.pos pa < 2 ^ 53 -> Z.pos pb < 2 ^ 53 ->
  let da := Z.pos (digits2_pos pa) in
  let db := Z.pos (digits2_pos pb) in
  let ma := Z.pos (shl pa (Z.to_nat (53 - da))) in
  let mb := Z.pos (shl pb (Z.to_nat (53 - db))) in
  ((da < db \/ (da = db /\ ma < mb)) <-> Z.pos pa < Z.pos pb)
  /\ ((da = db /\ ma = mb) <-> pa = pb).
Proof.
  intros Ha Hb da db ma mb.
  pose proof (digits_small pa Ha) as Hda. pose proof (digits_small pb Hb) as Hdb.
  fold da in Hda. fold db in Hdb.
  assert (Ema : ma = Z.pos pa * 2 ^ (53 - da))
    by (unfold ma; rewrite shl_value, Z2Nat.id by lia; reflexivity).
  assert (Emb : mb = Z.pos pb * 2 ^ (53 - db))
    by (unfold mb; rewrite shl_value, Z2Nat.id by lia; reflexivity).
  assert (Hla : da = Z.log2 (Z.pos pa) + 1) by apply digits_log2.
  assert (Hlb : db = Z.log2 (Z.pos pb) + 1) by apply digits_log2.
  assert (Hpow : forall d, 0 < 2 ^ (53 - d) \/ 53 - d < 0).
  { intros d. destruct (Z.le_gt_cases 0 (53 - d)); [left; apply Z.pow_pos_nonneg; lia|right; lia]. }
  assert (Hmono : Z.pos pa < Z.pos pb -> da <= db)
    by (intros Hlt; pose proof (Z.log2_le_mono (Z.pos pa) (Z.pos pb)); lia).
  assert (Hmono' : Z.pos pb < Z.pos pa -> db <= da)
    by (intros Hlt; pose proof (Z.log2_le_mono (Z.pos pb) (Z.pos pa)); lia).
  destruct (Hpow da) as [Pa|Pa]; [|lia].
  destruct (Hpow db) as [Pb|Pb]; [|lia].
  split; split.
  - intros [Hlt|[Heq Hm]].
    + destruct (Z.lt_ge_cases (Z.pos pa) (Z.pos pb)) as [H|H]; [exact H|].
      pose proof (Z.log2_le_mono (Z.pos pb) (Z.pos pa)). lia.
    + rewrite Ema, Emb, Heq in Hm. nia.
  - intros Hlt. specialize (Hmono Hlt).
    destruct (Z.eq_dec da db) as [Heq|Hne]; [right|left; lia].
    split; [exact Heq|]. rewrite Ema, Emb, Heq. nia.
  - intros [Heq Hm]. rewrite Ema, Emb, Heq in Hm.
    assert (Z.pos pa = Z.pos pb) by nia. congruence.
  - intros ->. split; reflexivity.
Qed.

Lemma int_sf_order (a b : Z) :
  Z.abs a < 2 ^ 53 -> Z.abs b < 2 ^ 53 ->
  (sf_lt (int_sf a) (int_sf b) <-> a < b)
  /\ (sf_eq (int_sf a) (int_sf b) <-> a = b).
Proof.
  intros Ha Hb.
  destruct a as [|pa|pa], b as [|pb|pb];
    unfold sf_lt, sf_eq, int_sf, int_finite, sf_key, key_lt;
    try (split; split; intros Hx; first [lia | discriminate | reflexivity | (exfalso; lia) | (exfalso; congruence)]).
  - destruct (magnitude_order pa pb Ha Hb) as [Hlt Heq]. cbv zeta in Hlt, Heq.
    split; split; intros Hx.
    + apply Hlt. lia.
    + apply Hlt in Hx. lia.
    + injection Hx as Hx1 Hx2. assert (pa = pb) by (apply Heq; split; lia). congruence.
    + injection Hx as ->. reflexivity.
  - destruct (magnitude_order pb pa Hb Ha) as [Hlt Heq]. cbv zeta in Hlt, Heq.
    split; split; intros Hx.
    + assert (Z.pos pb < Z.pos pa) by (apply Hlt; lia). lia.
    + assert (Hm : Z.pos pb < Z.pos pa) by lia. apply Hlt in Hm. lia.
    + injection Hx as Hx1 Hx2. assert (pb = pa) by (apply Heq; split; lia). congruence.
    + injection Hx as ->. reflexivity.
Qed.

Lemma float_of_Z_add (a b : Z) :
  Z.abs a < 2 ^ 53 -> Z.abs b < 2 ^ 53 -> Z.abs (a + b) < 2 ^ 53 ->
  PrimFloat.add (float_of_Z a) (float_of_Z b) = float_of_Z (a + b).
Proof.
  intros Ha Hb Hab. apply Prim2SF_inj.
  rewrite FloatAxioms.add_spec, !float_of_Z_spec by assumption.
  apply SFadd_int; assumption.
Qed.

Lemma float_of_Z_sub (a b : Z) :
  Z.abs a < 2 ^ 53 -> Z.abs b < 2 ^ 53 -> Z.abs (a - b) < 2 ^ 53 ->
  PrimFloat.sub (float_of_Z a) (float_of_Z b) = float_of_Z (a - b).
Proof.
  intros Ha Hb Hab. apply Prim2SF_inj.
  rewrite FloatAxioms.sub_spec, !float_of_Z_spec by assumption.
  apply SFsub_int; assumption.
Qed.

Lemma float_of_Z_ltb (a b : Z) :
  Z.abs a < 2 ^ 53 -> Z.abs b < 2 ^ 53 ->
  PrimFloat.ltb (float_of_Z a) (float_of_Z b) = (a <? b).
Proof.
  intros Ha Hb. apply eq_true_iff_eq.
  rewrite FloatAxioms.ltb_spec, !float_of_Z_spec, Z.ltb_lt by assumption.
  rewrite (proj1 (SFcompare_key _ _)). apply int_sf_order; assumption.
Qed.

Lemma float_of_Z_eqb (a b : Z) :
  Z.abs a < 2 ^ 53 -> Z.abs b < 2 ^ 53 ->
  PrimFloat.eqb (float_of_Z a) (float_of_Z b) = (a =? b).
Proof.
  intros Ha Hb. apply eq_true_iff_eq.
  rewrite FloatAxioms.eqb_spec, !float_of_Z_spec, Z.eqb_eq by assumption.
  rewrite (proj2 (SFcompare_key _ _)). apply int_sf_order; assumption.
Qed.

(** The sentinel -1e30 lies below every such integer. *)
Lemma float_of_Z_sentinel (a : Z) :
  Z.abs a < 2 ^ 53 ->
  PrimFloat.ltb (-1e30)%float (float_of_Z a) = true
  /\ PrimFloat.eqb (float_of_Z a) (-1e30)%float = false.
Proof.
  intros Ha.
  assert (Hkey : sf_key (Prim2SF (-1e30)%float)
                 = Some (-1, -47, - 7105427357601002)) by (vm_compute; reflexivity).
  split.
  - rewrite FloatAxioms.ltb_spec, float_of_Z_spec by exact Ha.
    apply (proj1 (SFcompare_key _ _)). unfold sf_lt. rewrite Hkey.
    destruct a as [|p|p]; cbn [int_sf int_finite sf_key key_lt]; [lia|lia|].
    pose proof (digits_small p Ha). lia.
  - apply not_true_is_false. intros Heq.
    rewrite FloatAxioms.eqb_spec, float_of_Z_spec in Heq by exact Ha.
    apply (proj2 (SFcompare_key _ _)) in Heq. unfold sf_eq in Heq. rewrite Hkey in Heq.
    destruct a as [|p|p]; cbn [int_sf int_finite sf_key] in Heq; try discriminate.
    pose proof (digits_small p Ha). injection Heq as He _. lia.
Qed.

(** ** The decoder in binary64 and with exact integer metrics

    On integer-valued LLRs of magnitude at most [c], with
    [c * received_len < 2^53], every path metric is an integer below 2^53
    in magnitude: the binary64 decoder takes the decisions of the decoder
    with exact integer metrics, and records the same history. *)

Lemma fold_left_related {S1 S2 X : Type} (R : S1 -> S2 -> Prop)
    (f1 : S1 -> X -> S1) (f2 : S2 -> X -> S2) (l : list X) :
  (forall s1 s2 x, In x l -> R s1 s2 -> R (f1 s1 x) (f2 s2 x)) ->
  forall s1 s2, R s1 s2 -> R (fold_left f1 l s1) (fold_left f2 l s2).
Proof.
  induction l as [|x l IH]; intros Hstep s1 s2 HR; [exact HR|].
  cbn [fold_left]. apply IH.
  - intros t1 t2 y Hy. apply Hstep. right. exact Hy.
  - apply Hstep; [left; reflexivity|exact HR].
Qed.

Section Binary64Decoder.
Variables (c : Z) (rows : nat).
Hypothesis Hc : 0 <= c.
Hypothesis Hbound : 2 * c * Z.of_nat rows < 2 ^ 53.

(** A cell of row [n]: the sentinel on both sides, or the same integer,
    of magnitude at most 2 c n. *)
Definition cell_related (n : Z) (z : Z) (f : float) : Prop :=
  (z = NEG_INF /\ f = NEG_INF)
  \/ (Z.abs z <= 2 * c * n /\ f = float_of_Z z).

Definition grids_related (gz : grid Z * grid Z) (gf : grid float * grid Z) : Prop :=
  snd gf = snd gz
  /\ grid_shape rows 64 (fst gz) /\ grid_shape rows 64 (fst gf)
  /\ grid_shape rows 64 (snd gz)
  /\ forall i q, 0 <= i < Z.of_nat rows -> 0 <= q < NUM_STATES ->
       cell_related i (get2 NEG_INF (fst gz) i q) (get2 NEG_INF (fst gf) i q).

Lemma branch_metric_binary64 (out l0 l1 : Z) :
  Z.abs l0 <= c -> Z.abs l1 <= c -> 1 <= Z.of_nat rows ->
  branch_metric (M := float) out (float_of_Z l0) (float_of_Z l1)
  = float_of_Z (branch_metric (M := Z) out l0 l1)
  /\ Z.abs (branch_metric (M := Z) out l0 l1) <= 2 * c.
Proof.
  intros H0 H1 Hrows. unfold branch_metric.
  cbn [m_zero m_add m_sub integer_metric binary64_metric].
  change 0%float with (float_of_Z 0).
  assert (Hb : 2 * c < 2 ^ 53) by nia.
  destruct (negb (Z.land (Z.shiftr out 1) 1 =? 0)), (negb (Z.land out 1 =? 0));
    rewrite ?float_of_Z_add, ?float_of_Z_sub by lia;
    rewrite ?float_of_Z_add, ?float_of_Z_sub by lia;
    (split; [reflexivity|lia]).
Qed.

Lemma acs_related (l0 l1 n q u : Z) (gz : grid Z * grid Z) (gf : grid float * grid Z) :
  Z.abs l0 <= c -> Z.abs l1 <= c ->
  0 <= n -> n + 1 < Z.of_nat rows ->
  0 <= q < NUM_STATES -> 0 <= u < 2 ->
  get2 NEG_INF (fst gz) n q <> NEG_INF ->
  grids_related gz gf ->
  grids_related (acs l0 l1 n q u gz)
    (acs (float_of_Z l0) (float_of_Z l1) n q u gf).
Proof.
  intros H0 H1 Hn Hrows Hq Hu Hlive (Eh & Sz & Sf & Sh & Hcells).
  destruct gz as [pmz phz], gf as [pmf phf]. cbn [fst snd] in *. subst phf.
  unfold acs. unfold m_gtb. cbn [m_ltb m_add integer_metric binary64_metric].
  destruct (branch_metric_binary64 (trellis_output q u) l0 l1 H0 H1 ltac:(lia))
    as [Ebm Hbm].
  rewrite Ebm.
  pose proof (trellis_next_range q u Hq Hu) as Hnx. rewrite NUM_STATES_eq in Hnx, Hq.
  destruct (Hcells n q ltac:(lia) ltac:(rewrite NUM_STATES_eq; lia))
    as [[Ez _]|[Hz Ef]]; [contradiction|].
  rewrite Ef.
  set (pz := get2 NEG_INF pmz n q) in *.
  set (bm := branch_metric (trellis_output q u) l0 l1) in *.
  assert (Hnew : Z.abs (pz + bm) <= 2 * c * (n + 1)) by lia.
  assert (Hsmall : 2 * c * (n + 1) < 2 ^ 53) by nia.
  rewrite float_of_Z_add by nia.
  assert (Hsame : PrimFloat.ltb (get2 NEG_INF pmf (n + 1) (trellis_next q u))
                    (float_of_Z (pz + bm))
                  = (get2 NEG_INF pmz (n + 1) (trellis_next q u) <? pz + bm)).
  { destruct (Hcells (n + 1) (trellis_next q u) ltac:(lia)
                ltac:(rewrite NUM_STATES_eq; lia)) as [[Ez' Ef']|[Hz' Ef']].
    - rewrite Ez', Ef'. cbn [NEG_INF integer_metric binary64_metric].
      rewrite (proj1 (float_of_Z_sentinel (pz + bm) ltac:(lia))).
      symmetry. apply Z.ltb_lt. lia.
    - rewrite Ef'. apply float_of_Z_ltb; nia. }
  rewrite Hsame.
  destruct (get2 NEG_INF pmz (n + 1) (trellis_next q u) <? pz + bm).
  - split; [reflexivity|]. cbn [fst snd].
    split; [apply grid_shape_set2, Sz|]. split; [apply grid_shape_set2, Sf|].
    split; [apply grid_shape_set2, Sh|].
    intros i q' Hi Hq'. rewrite NUM_STATES_eq in Hq'.
    destruct (Z.eq_dec i (n + 1)) as [->|Hi'];
      [destruct (Z.eq_dec q' (trellis_next q u)) as [->|Hq'']|].
    + rewrite !(get2_set2_eq rows 64) by (assumption || lia).
      right. split; [exact Hnew|reflexivity].
    + rewrite !get2_set2_ne by lia. apply Hcells; [lia|rewrite NUM_STATES_eq; lia].
    + rewrite !get2_set2_ne by lia. apply Hcells; [lia|rewrite NUM_STATES_eq; lia].
  - split; [reflexivity|]. cbn [fst snd].
    split; [exact Sz|]. split; [exact Sf|]. split; [exact Sh|]. exact Hcells.
Qed.

Lemma acs_keeps_row {M : Type} `{Metric M} (l0 l1 : M) (n q u q' : Z)
    (g : grid M * grid Z) :
  0 <= n -> 0 <= q' -> 0 <= trellis_next q u ->
  get2 NEG_INF (fst (acs l0 l1 n q u g)) n q' = get2 NEG_INF (fst g) n q'.
Proof.
  intros Hn Hq' Hnx. destruct g as [pm ph]. unfold acs.
  destruct (m_gtb _ _); cbn [fst]; [|reflexivity].
  apply get2_set2_ne; lia.
Qed.

Lemma forward_state_related (l0 l1 n q : Z) (gz : grid Z * grid Z)
    (gf : grid float * grid Z) :
  Z.abs l0 <= c -> Z.abs l1 <= c ->
  0 <= n -> n + 1 < Z.of_nat rows -> 0 <= q < NUM_STATES ->
  grids_related gz gf ->
  grids_related (forward_state l0 l1 n gz q)
    (forward_state (float_of_Z l0) (float_of_Z l1) n gf q).
Proof.
  intros H0 H1 Hn Hrows Hq HR. unfold forward_state.
  cbn [m_eqb integer_metric binary64_metric].
  pose proof HR as (_ & _ & _ & _ & Hcells).
  assert (Hsame : PrimFloat.eqb (get2 NEG_INF (fst gf) n q) NEG_INF
                  = (get2 NEG_INF (fst gz) n q =? NEG_INF)).
  { destruct (Hcells n q ltac:(lia) Hq) as [[Ez Ef]|[Hz Ef]].
    - rewrite Ez, Ef. reflexivity.
    - assert (Hsmall : Z.abs (get2 NEG_INF (fst gz) n q) < 2 ^ 53) by nia.
      rewrite Ef. change (@NEG_INF float binary64_metric) with (-1e30)%float.
      rewrite (proj2 (float_of_Z_sentinel _ Hsmall)).
      symmetry. apply Z.eqb_neq. revert Hsmall.
      generalize (get2 NEG_INF (fst gz) n q). intros z Hsmall.
      cbn [NEG_INF integer_metric]. lia. }
  rewrite Hsame.
  destruct (Z.eqb_spec (get2 NEG_INF (fst gz) n q) NEG_INF) as [_|Hlive]; [exact HR|].
  change (range 2) with [0; 1]. cbn [fold_left].
  apply acs_related; try assumption; try lia.
  - rewrite acs_keeps_row; [exact Hlive|lia|lia|].
    apply (trellis_next_range q 0 Hq). lia.
  - apply acs_related; try assumption; lia.
Qed.

Lemma at_map_float (llr : list Z) (i : Z) :
  at_ m_zero (map float_of_Z llr) i = float_of_Z (at_ 0 llr i).
Proof. unfold at_. apply (map_nth float_of_Z llr 0). Qed.

Lemma at_bounded (llr : list Z) (i : Z) :
  Forall (fun l => Z.abs l <= c) llr -> Z.abs (at_ 0 llr i) <= c.
Proof.
  intros Hall. unfold at_.
  destruct (nth_in_or_default (Z.to_nat i) llr 0) as [Hin| ->]; [|cbn; lia].
  rewrite Forall_forall in Hall. apply Hall, list_elem_of_In, Hin.
Qed.

Lemma forward_stage_related (llr : list Z) (n : Z) (gz : grid Z * grid Z)
    (gf : grid float * grid Z) :
  Forall (fun l => Z.abs l <= c) llr ->
  0 <= n -> n + 1 < Z.of_nat rows ->
  grids_related gz gf ->
  grids_related (forward_stage llr gz n)
    (forward_stage (map float_of_Z llr) gf n).
Proof.
  intros Hall Hn Hrows HR. unfold forward_stage.
  cbn [m_zero integer_metric]. rewrite !at_map_float.
  apply (fold_left_related grids_related); [|exact HR].
  intros s1 s2 q Hq HR'. apply in_range in Hq.
  apply forward_state_related; try assumption; apply at_bounded, Hall.
Qed.

Lemma forward_pass_related (llr : list Z) (num_stages : Z) :
  Forall (fun l => Z.abs l <= c) llr ->
  0 <= num_stages -> Z.to_nat (num_stages + 1) = rows ->
  grids_related (forward_pass llr num_stages)
    (forward_pass (map float_of_Z llr) num_stages).
Proof.
  intros Hall Hn Hrows. unfold forward_pass.
  cbn [m_zero NEG_INF integer_metric binary64_metric]. rewrite Hrows.
  change (Z.to_nat NUM_STATES) with 64%nat.
  apply (fold_left_related grids_related).
  - intros s1 s2 n Hin HR. apply in_range in Hin.
    apply forward_stage_related; try assumption; lia.
  - split; [reflexivity|]. cbn [fst snd].
    split; [apply grid_shape_set2, grid_shape_replicate|].
    split; [apply grid_shape_set2, grid_shape_replicate|].
    split; [apply grid_shape_replicate|].
    intros i q Hi Hq. rewrite NUM_STATES_eq in Hq.
    destruct (Z.eq_dec i 0) as [->|Hi0]; [destruct (Z.eq_dec q 0) as [->|Hq0]|].
    + rewrite !(get2_set2_eq rows 64) by (try apply grid_shape_replicate; lia).
      right. split; [lia|reflexivity].
    + rewrite !get2_set2_ne, !get2_replicate by lia. left. split; reflexivity.
    + rewrite !get2_set2_ne, !get2_replicate by lia. left. split; reflexivity.
Qed.

End Binary64Decoder.

(** The two decoders return the same status, bits and length. *)
Lemma viterbi_decode_binary64 (llr : list Z) (c received_len : Z)
    (decoded_bits : option (list bool)) (decoded_len : option Z) :
  0 <= c -> Forall (fun l => Z.abs l <= c) llr ->
  c * (received_len + 2) < 2 ^ 53 ->
  viterbi_decode (M := float) (Some (map float_of_Z llr)) received_len
    decoded_bits decoded_len
  = viterbi_decode (M := Z) (Some llr) received_len decoded_bits decoded_len.
Proof.
  intros Hc Hall Hbound. unfold viterbi_decode.
  destruct decoded_bits as [decoded|]; [|reflexivity].
  destruct decoded_len as [dlen|]; [|reflexivity].
  destruct (Z.leb_spec received_len 0) as [_|Hpos]; [reflexivity|].
  destruct (negb (Z.rem received_len 2 =? 0)); [reflexivity|].
  destruct (Z.quot received_len 2 - (CONSTRAINT_LENGTH - 1) <=? 0); [reflexivity|].
  assert (Hq : 0 <= Z.quot received_len 2 /\ 2 * Z.quot received_len 2 <= received_len).
  { pose proof (Z.quot_rem' received_len 2).
    pose proof (Z.rem_bound_pos received_len 2 ltac:(lia) ltac:(lia)).
    pose proof (Z.quot_pos received_len 2 ltac:(lia) ltac:(lia)). lia. }
  pose proof (forward_pass_related c (Z.to_nat (Z.quot received_len 2 + 1)) Hc
                ltac:(nia) llr (Z.quot received_len 2) Hall ltac:(lia) eq_refl)
    as (Eh & _).
  destruct (forward_pass llr (Z.quot received_len 2)) as [pmz phz].
  destruct (forward_pass (map float_of_Z llr) (Z.quot received_len 2)) as [pmf phf].
  cbn [snd] in Eh. subst phf. reflexivity.
Qed.

(** ** Encode, then decode *)

Lemma viterbi_decode_code_word (info decoded : list bool) (c dlen : Z) :
  1 <= Z.of_nat (length info) ->
  Z.of_nat (length info) <= Z.of_nat (length decoded) ->
  0 < c ->
  viterbi_decode (M := Z) (Some (ideal_llr c (- c) (code_word info)))
    (2 * (Z.of_nat (length info) + 6)) (Some decoded) (Some dlen)
  = (0, Some (info ++ drop (length info) decoded), Some (Z.of_nat (length info))).
Proof.
  intros HL Hbuf Hc. unfold viterbi_decode.
  destruct (Z.leb_spec (2 * (Z.of_nat (length info) + 6)) 0) as [Hle|_]; [lia|].
  replace (Z.rem (2 * (Z.of_nat (length info) + 6)) 2) with 0
    by (rewrite Z.mul_comm, Z.rem_mul; lia).
  replace (Z.quot (2 * (Z.of_nat (length info) + 6)) 2)
    with (Z.of_nat (length (encoder_inputs info)))
    by (rewrite encoder_inputs_length, Z.mul_comm, Z.quot_mul; lia).
  cbn [Z.eqb negb]. unfold CONSTRAINT_LENGTH.
  replace (Z.of_nat (length (encoder_inputs info)) - (7 - 1))
    with (Z.of_nat (length info)) by (rewrite encoder_inputs_length; lia).
  destruct (Z.leb_spec (Z.of_nat (length info)) 0) as [Hle|_]; [lia|].
  pose proof (forward_pass_ideal c (encoder_inputs info) Hc (encoder_inputs_bits info))
    as Hpass.
  change (ideal_llr c (- c) (code_word info)) with (ideal_llrs c (encoder_inputs info)).
  destruct (forward_pass (ideal_llrs c (encoder_inputs info))
              (Z.of_nat (length (encoder_inputs info)))) as [pm ph].
  destruct Hpass as (_ & _ & _ & _ & _ & Hist). cbn [snd] in Hist.
  rewrite (traceback_ideal (encoder_inputs info) ph (Z.of_nat (length info)) decoded
             (encoder_inputs_bits info) Hist).
  - rewrite Nat2Z.id. unfold encoder_inputs.
    rewrite take_app_length' by (rewrite length_map; reflexivity).
    rewrite map_map. rewrite (map_ext _ (fun b => b)) by (intros [|]; reflexivity).
    rewrite map_id. reflexivity.
  - rewrite encoder_inputs_length. lia.
  - exact Hbuf.
  - unfold true_state. rewrite Nat2Z.id, firstn_all. apply encoder_walk_zero.
Qed.

Lemma ideal_llr_float_of_Z (c : Z) (bits : list bool) :
  ideal_llr (float_of_Z c) (float_of_Z (- c)) bits
  = map float_of_Z (ideal_llr c (- c) bits).
Proof.
  unfold ideal_llr. rewrite map_map. apply map_ext. intros [|]; reflexivity.
Qed.

Lemma ideal_llr_bounded (c : Z) (bits : list bool) :
  0 <= c -> Forall (fun l => Z.abs l <= c) (ideal_llr c (- c) bits).
Proof.
  intros Hc. unfold ideal_llr. apply Forall_forall. intros l Hl.
  apply list_elem_of_In, in_map_iff in Hl. destruct Hl as ([|] & <- & _); lia.
Qed.

Lemma viterbi_decode_code_word_binary64 (info decoded : list bool) (c dlen : Z) :
  1 <= Z.of_nat (length info) ->
  Z.of_nat (length info) <= Z.of_nat (length decoded) ->
  0 < c ->
  c * (2 * (Z.of_nat (length info) + 6) + 2) < 2 ^ 53 ->
  viterbi_decode (M := float)
    (Some (ideal_llr (float_of_Z c) (float_of_Z (- c)) (code_word info)))
    (2 * (Z.of_nat (length info) + 6)) (Some decoded) (Some dlen)
  = (0, Some (info ++ drop (length info) decoded), Some (Z.of_nat (length info))).
Proof.
  intros HL Hbuf Hc Hexact.
  rewrite ideal_llr_float_of_Z.
  rewrite (viterbi_decode_binary64 (ideal_llr c (- c) (code_word info)) c
             (2 * (Z.of_nat (length info) + 6)) (Some decoded) (Some dlen)
             ltac:(lia) (ideal_llr_bounded c _ ltac:(lia)) Hexact).
  exact (viterbi_decode_code_word info decoded c dlen HL Hbuf Hc).
Qed.




(** The same round trip as [test_convolutional_coding] runs it, in
    binary64 arithmetic with LLRs +10.0 and -10.0. *)
Example test_convolutional_coding_binary64 :
  let '(enc_status, coded_bits, coded_len) :=
    convolutional_encode (Some test_info) 10 (Some (replicate 100 false)) (Some 0) in
  viterbi_decode (M := float)
    (Some (ideal_llr 10%float (-10)%float (take 32 (default [] coded_bits))))
    32 (Some (replicate 10 false)) (Some 0)
  = (0, Some test_info, Some 10).
Proof. vm_compute. reflexivity. Qed.

(** ** Add-compare-select: ties *)

Lemma grid_ok_shape {A : Type} (rows cols : nat) (g : grid A) :
  grid_ok rows cols g = true -> grid_shape rows cols g.
Proof.
  unfold grid_ok. rewrite andb_true_iff, forallb_forall.
  intros [Hr Hc]. apply Nat.eqb_eq in Hr. split; [exact Hr|].
  intros i Hi. apply Nat.eqb_eq, Hc, nth_In. lia.
Qed.

Lemma branches_sorted (skip : Z -> bool) (len start : nat) :
  StronglySorted branch_before
    (flat_map (fun q => if skip q then [] else [(q, 0); (q, 1)])
       (map Z.of_nat (seq start len)))
  /\ Forall (fun b => Z.of_nat start <= fst b)
       (flat_map (fun q => if skip q then [] else [(q, 0); (q, 1)])
          (map Z.of_nat (seq start len))).
Proof.
  revert start. induction len as [|len IH]; intros start.
  - split; constructor.
  - cbn [seq map flat_map]. destruct (IH (Datatypes.S start)) as [Hsorted Hfst].
    assert (Hweak : Forall (fun b : Z * Z => Z.of_nat start <= fst b)
              (flat_map (fun q => if skip q then [] else [(q, 0); (q, 1)])
                 (map Z.of_nat (seq (Datatypes.S start) len)))).
    { eapply Forall_impl; [exact Hfst|]. cbn beta. intros b Hb. lia. }
    destruct (skip (Z.of_nat start)); cbn [app]; [split; assumption|].
    split.
    + constructor; [constructor; [exact Hsorted|]|].
      * eapply Forall_impl; [exact Hfst|]. cbn beta. intros b Hb. left. cbn [fst]. lia.
      * constructor; [right; cbn; lia|].
        eapply Forall_impl; [exact Hfst|]. cbn beta. intros b Hb. left. cbn [fst]. lia.
    + constructor; [cbn; lia|]. constructor; [cbn; lia|]. exact Hweak.
Qed.

Lemma sorted_split {A : Type} (R : A -> A -> Prop) (pre post : list A) (b : A) :
  StronglySorted R (pre ++ b :: post) ->
  Forall (fun b' => R b' b) pre /\ Forall (R b) post.
Proof.
  induction pre as [|a pre IH]; cbn [app]; intros Hs.
  - apply StronglySorted_inv in Hs. split; [constructor|apply Hs].
  - apply StronglySorted_inv in Hs. destruct Hs as [Hs Hall].
    destruct (IH Hs) as [Hpre Hpost]. split; [|exact Hpost].
    constructor; [|exact Hpre].
    apply Forall_app in Hall. destruct Hall as [_ Hall].
    apply Forall_cons_iff in Hall. apply Hall.
Qed.

(** A strict-greater-than update, folded over candidates in order, ends on
    the first candidate of maximal value, if any beats the start value. *)
Section StrictFold.
Context {M : Type} `{MetricOrder M} {B T : Type}.
Variables (hit : B -> bool) (value : B -> M) (tag : B -> T).

Definition select (vh : M * T) (b : B) : M * T :=
  if hit b && m_ltb (fst vh) (value b) then (value b, tag b) else vh.

Lemma select_fold (bs : list B) :
  forall v0 h0,
  (fold_left select bs (v0, h0) = (v0, h0)
   /\ forall b, In b bs -> hit b = true -> m_ltb v0 (value b) = false)
  \/ (exists pre b post,
        bs = pre ++ b :: post /\ hit b = true
        /\ fold_left select bs (v0, h0) = (value b, tag b)
        /\ m_ltb v0 (value b) = true
        /\ (forall b', In b' pre -> hit b' = true ->
              m_leb (value b) (value b') = false)
        /\ (forall b', In b' post -> hit b' = true ->
              m_ltb (value b) (value b') = false)).
Proof.
  induction bs as [|b bs IH]; intros v0 h0.
  - left. split; [reflexivity|]. intros b [].
  - cbn [fold_left]. unfold select at 2 4. cbn [fst].
    destruct (hit b) eqn:Hhit; cbn [andb];
      [destruct (m_ltb v0 (value b)) eqn:Hwin|].
    + destruct (IH (value b) (tag b))
        as [[E Hall]|(pre & b' & post & -> & Hb' & E & Hgt & Hpre & Hpost)].
      * right. exists [], b, bs. cbn [app].
        split; [reflexivity|]. split; [exact Hhit|]. split; [exact E|].
        split; [exact Hwin|]. split; [intros b' []|exact Hall].
      * right. exists (b :: pre), b', post.
        split; [reflexivity|]. split; [exact Hb'|]. split; [exact E|].
        split; [exact (m_lt_trans _ _ _ Hwin Hgt)|]. split; [|exact Hpost].
        intros b'' [<-|Hin] Hh; [|apply Hpre; assumption].
        unfold m_leb. rewrite (m_lt_asym _ _ Hgt), (m_lt_neq _ _ Hgt). reflexivity.
    + destruct (IH v0 h0)
        as [[E Hall]|(pre & b' & post & -> & Hb' & E & Hgt & Hpre & Hpost)].
      * left. split; [exact E|].
        intros b' [<-|Hin] Hh; [exact Hwin|apply Hall; assumption].
      * right. exists (b :: pre), b', post.
        split; [reflexivity|]. split; [exact Hb'|]. split; [exact E|].
        split; [exact Hgt|]. split; [|exact Hpost].
        intros b'' [<-|Hin] Hh; [|apply Hpre; assumption].
        unfold m_leb.
        destruct (m_ltb (value b') (value b)) eqn:Hlt;
          [rewrite (m_lt_trans _ _ _ Hgt Hlt) in Hwin; discriminate|].
        destruct (m_eqb (value b') (value b)) eqn:Heq;
          [rewrite (m_lt_eq_trans _ _ _ Hgt Heq) in Hwin; discriminate|].
        reflexivity.
    + destruct (IH v0 h0)
        as [[E Hall]|(pre & b' & post & -> & Hb' & E & Hgt & Hpre & Hpost)].
      * left. split; [exact E|].
        intros b' [<-|Hin] Hh; [congruence|apply Hall; assumption].
      * right. exists (b :: pre), b', post.
        split; [reflexivity|]. split; [exact Hb'|]. split; [exact E|].
        split; [exact Hgt|]. split; [|exact Hpost].
        intros b'' [<-|Hin] Hh; [congruence|apply Hpre; assumption].
Qed.

End StrictFold.

(** One stage of the forward pass, seen from one next state [x]: the cell
    of [x] in row [n + 1] goes through the strict updates of the examined
    branches that enter [x], in order. *)
Section StageSurvivor.
Context {M : Type} `{Metric M}.
Variables (llr0 llr1 : M) (rows : nat) (n x : Z) (g0 : grid M * grid Z).
Hypothesis Hn : 0 <= n.
Hypothesis Hrows : n + 1 < Z.of_nat rows.
Hypothesis Hx : 0 <= x < NUM_STATES.

Definition observe (g : grid M * grid Z) : M * Z :=
  (get2 NEG_INF (fst g) (n + 1) x, get2 0 (snd g) (n + 1) x).

Definition enters (b : Z * Z) : bool := trellis_next (fst b) (snd b) =? x.

Definition survivor : M * Z -> Z * Z -> M * Z :=
  select enters (candidate (fst g0) llr0 llr1 n)
    (fun b => history_byte (fst b) (snd b)).

Definition row_kept (g : grid M * grid Z) : Prop :=
  grid_shape rows 64 (fst g) /\ grid_shape rows 64 (snd g)
  /\ forall q, 0 <= q -> get2 NEG_INF (fst g) n q = get2 NEG_INF (fst g0) n q.

Lemma acs_survivor (q u : Z) (g : grid M * grid Z) :
  0 <= q < NUM_STATES -> 0 <= u < 2 -> row_kept g ->
  row_kept (acs llr0 llr1 n q u g)
  /\ observe (acs llr0 llr1 n q u g) = survivor (observe g) (q, u).
Proof.
  intros Hq Hu (Sm & Sh & Row). destruct g as [pm ph]. cbn [fst snd] in *.
  unfold acs, m_gtb, survivor, select, enters, candidate, observe, history_byte.
  cbn [fst snd]. rewrite (Row q) by lia.
  pose proof (trellis_next_range q u Hq Hu) as Hnx.
  rewrite NUM_STATES_eq in Hnx, Hx.
  set (new_metric := m_add (get2 NEG_INF (fst g0) n q) _).
  destruct (m_ltb (get2 NEG_INF pm (n + 1) (trellis_next q u)) new_metric) eqn:Hupd.
  - split.
    + split; [apply grid_shape_set2, Sm|]. split; [apply grid_shape_set2, Sh|].
      intros q' Hq'. cbn [fst]. rewrite get2_set2_ne by lia. apply Row, Hq'.
    + cbn [fst snd]. destruct (Z.eqb_spec (trellis_next q u) x) as [E|Hne]; cbn [andb].
      * rewrite <- E, Hupd.
        rewrite !(get2_set2_eq rows 64) by (assumption || lia). reflexivity.
      * rewrite !get2_set2_ne by lia. reflexivity.
  - split; [exact (conj Sm (conj Sh Row))|]. cbn [fst snd].
    destruct (Z.eqb_spec (trellis_next q u) x) as [E|Hne]; cbn [andb]; [|reflexivity].
    rewrite <- E, Hupd. reflexivity.
Qed.

Lemma forward_state_survivor (q : Z) (g : grid M * grid Z) :
  0 <= q < NUM_STATES -> row_kept g ->
  row_kept (forward_state llr0 llr1 n g q)
  /\ observe (forward_state llr0 llr1 n g q)
     = fold_left survivor
         (if m_eqb (get2 NEG_INF (fst g0) n q) NEG_INF then [] else [(q, 0); (q, 1)])
         (observe g).
Proof.
  intros Hq HR. unfold forward_state.
  destruct HR as (Sm & Sh & Row). rewrite (Row q) by lia.
  destruct (m_eqb (get2 NEG_INF (fst g0) n q) NEG_INF).
  - split; [exact (conj Sm (conj Sh Row))|reflexivity].
  - change (range 2) with [0; 1]. cbn [fold_left].
    destruct (acs_survivor q 0 g Hq ltac:(lia) (conj Sm (conj Sh Row))) as [R0 O0].
    destruct (acs_survivor q 1 _ Hq ltac:(lia) R0) as [R1 O1].
    split; [exact R1|]. rewrite O1, O0. reflexivity.
Qed.

Lemma forward_states_survivor (qs : list Z) :
  Forall (fun q => 0 <= q < NUM_STATES) qs ->
  forall g, row_kept g ->
  row_kept (fold_left (forward_state llr0 llr1 n) qs g)
  /\ observe (fold_left (forward_state llr0 llr1 n) qs g)
     = fold_left survivor
         (flat_map (fun q => if m_eqb (get2 NEG_INF (fst g0) n q) NEG_INF then []
                             else [(q, 0); (q, 1)]) qs)
         (observe g).
Proof.
  induction qs as [|q qs IH]; intros Hqs g HR; [split; [exact HR|reflexivity]|].
  inversion Hqs; subst. cbn [fold_left flat_map]. rewrite fold_left_app.
  destruct (forward_state_survivor q g ltac:(assumption) HR) as [R1 O1].
  destruct (IH ltac:(assumption) _ R1) as [R2 O2].
  split; [exact R2|]. rewrite O2, O1. reflexivity.
Qed.

End StageSurvivor.

Lemma examined_branches_in {M : Type} `{Metric M} (pm : grid M) (n q u : Z) :
  In (q, u) (examined_branches pm n)
  <-> 0 <= q < NUM_STATES /\ 0 <= u < 2
      /\ m_eqb (get2 NEG_INF pm n q) NEG_INF = false.
Proof.
  unfold examined_branches. rewrite in_flat_map. split.
  - intros (q' & Hq' & Hin). apply in_range in Hq'.
    destruct (m_eqb (get2 NEG_INF pm n q') NEG_INF) eqn:E; [destruct Hin|].
    destruct Hin as [Hb|[Hb|[]]]; inversion Hb; subst; repeat split; try lia; exact E.
  - intros (Hq & Hu & Hne). exists q. split; [apply in_range, Hq|].
    rewrite Hne.
    assert (Hu01 : u = 0 \/ u = 1) by lia.
    destruct Hu01 as [-> | ->]; [left|right; left]; reflexivity.
Qed.

Lemma forward_stage_survivor {M : Type} `{Metric M} (received_llr : list M)
    (rows : nat) (stage x : Z) (g0 : grid M * grid Z) :
  grid_shape rows 64 (fst g0) -> grid_shape rows 64 (snd g0) ->
  0 <= stage -> stage + 1 < Z.of_nat rows -> 0 <= x < NUM_STATES ->
  observe stage x (forward_stage received_llr g0 stage)
  = fold_left
      (survivor (at_ m_zero received_llr (2 * stage))
            (at_ m_zero received_llr (2 * stage + 1)) stage x g0)
      (examined_branches (fst g0) stage)
      (observe stage x g0).
Proof.
  intros Sm Sh Hn Hrows Hx.
  assert (Hq : Forall (fun q => 0 <= q < NUM_STATES) (range NUM_STATES)).
  { apply Forall_forall. intros q Hq. apply list_elem_of_In, in_range in Hq. exact Hq. }
  assert (HR : row_kept rows stage g0 g0).
  { split; [exact Sm|]. split; [exact Sh|]. intros q _. reflexivity. }
  destruct (forward_states_survivor (at_ m_zero received_llr (2 * stage))
            (at_ m_zero received_llr (2 * stage + 1)) rows stage x g0 Hn Hrows Hx
            (range NUM_STATES) Hq g0 HR) as [_ Hobs].
  exact Hobs.
Qed.

Lemma select_examined {M : Type} `{MetricOrder M} (pm : grid M) (llr0 llr1 : M)
    (stage x : Z) (v0 : M) (h0 : Z) :
  let metric := candidate pm llr0 llr1 stage in
  let examined b :=
    In b (examined_branches pm stage) /\ trellis_next (fst b) (snd b) = x in
  let vh :=
    fold_left (select (enters x) metric (fun b => history_byte (fst b) (snd b)))
      (examined_branches pm stage) (v0, h0) in
  (vh = (v0, h0) /\ forall b, examined b -> m_ltb v0 (metric b) = false)
  \/ (exists b,
        examined b /\ m_ltb v0 (metric b) = true
        /\ vh = (metric b, history_byte (fst b) (snd b))
        /\ forall b', examined b' ->
             m_ltb (metric b) (metric b') = false
             /\ (branch_before b' b -> m_leb (metric b) (metric b') = false)).
Proof.
  intros metric examined vh. subst vh examined.
  destruct (select_fold (enters x) metric (fun b => history_byte (fst b) (snd b))
              (examined_branches pm stage) v0 h0)
    as [[E Hall]|(pre & b & post & Hsplit & Hb & E & Hgt & Hpre & Hpost)].
  - left. split; [exact E|].
    intros b [Hin Hent]. apply Hall; [exact Hin|]. apply Z.eqb_eq, Hent.
  - right. exists b.
    assert (Hsorted : StronglySorted branch_before (examined_branches pm stage))
      by exact (proj1 (branches_sorted
                  (fun q => m_eqb (get2 NEG_INF pm stage q) NEG_INF)
                  (Z.to_nat NUM_STATES) 0)).
    rewrite Hsplit in Hsorted. apply sorted_split in Hsorted.
    destruct Hsorted as [Before After]. rewrite Forall_forall in Before, After.
    split; [split; [rewrite Hsplit; apply in_elt|apply Z.eqb_eq, Hb]|].
    split; [exact Hgt|]. split; [exact E|].
    intros b' [Hin Hent].
    assert (Hent' : enters x b' = true) by (apply Z.eqb_eq, Hent).
    rewrite Hsplit in Hin.
    apply in_app_or in Hin. destruct Hin as [Hin|[<-|Hin]].
    + split; [|intros _; apply Hpre; assumption].
      specialize (Hpre b' Hin Hent'). unfold m_leb in Hpre.
      apply orb_false_elim in Hpre. apply Hpre.
    + split.
      * destruct (m_ltb (metric b) (metric b)) eqn:Hself; [|reflexivity].
        rewrite (m_lt_asym _ _ Hself) in Hself. discriminate.
      * intros [Hlt|[_ Hlt]]; exfalso; apply (Z.lt_irrefl _ Hlt).
    + split; [apply Hpost; assumption|].
      apply list_elem_of_In, After in Hin. intros Hbb. exfalso.
      unfold branch_before in Hin, Hbb. clear -Hin Hbb. lia.
Qed.

Lemma stage_first_maximum {M : Type} `{MetricOrder M} (received_llr : list M)
    (rows : nat) (stage x : Z) (g0 : grid M * grid Z) :
  grid_shape rows 64 (fst g0) -> grid_shape rows 64 (snd g0) ->
  0 <= stage -> stage + 1 < Z.of_nat rows -> 0 <= x < NUM_STATES ->
  survivor_is_first_maximum received_llr stage x g0.
Proof.
  intros Sm Sh Hn Hrows Hx.
  pose proof (forward_stage_survivor received_llr rows stage x g0 Sm Sh Hn Hrows Hx)
    as Hobs.
  pose proof (select_examined (fst g0) (at_ m_zero received_llr (2 * stage))
           (at_ m_zero received_llr (2 * stage + 1)) stage x
           (get2 NEG_INF (fst g0) (stage + 1) x) (get2 0 (snd g0) (stage + 1) x))
    as Hsel.
  cbv zeta in Hsel. unfold survivor in Hobs.
  change (get2 NEG_INF (fst g0) (stage + 1) x, get2 0 (snd g0) (stage + 1) x)
    with (observe stage x g0) in Hsel.
  rewrite <- Hobs in Hsel. clear Hobs.
  unfold survivor_is_first_maximum. cbv zeta.
  revert Hsel. generalize (forward_stage received_llr g0 stage). intros g Hsel.
  unfold observe in Hsel.
  destruct Hsel as [[E Hall]|(b & Hex & Hgt & E & Hrest)];
    apply pair_equal_spec in E; destruct E as [Em Eh].
  - left. split; [exact Em|]. split; [exact Eh|exact Hall].
  - right. exists b. split; [exact Hex|]. split; [exact Hgt|].
    split; [exact Em|]. split; [exact Eh|exact Hrest].
Qed.

(** C8. In the forward pass, computed in binary64, add-compare-select
    replaces the survivor of a next state only when the candidate metric
    is strictly greater than the incumbent.  So after a stage the cell of
    each next state is either untouched, no examined branch into it having
    beaten the incumbent, or it holds the metric and the history byte of
    the first, in the order of enumeration (lower state, then input 0
    before input 1), of the examined branches of maximal metric: no
    examined branch into the state has a greater metric, and none
    enumerated earlier has a greater or an equal one, so that on an exact
    tie the branch enumerated earlier stays.  This holds for all doubles,
    infinities and NaN included. *)
Theorem acs_keeps_first_maximum (received_llr : list float) (rows : nat)
    (stage x : Z) (g0 : grid float * grid Z) :
  grid_ok rows 64 (fst g0) = true ->
  grid_ok rows 64 (snd g0) = true ->
  0 <= stage -> stage + 1 < Z.of_nat rows ->
  0 <= x < NUM_STATES ->
  (forall state input pm ph,
     let llr0 := at_ m_zero received_llr (2 * stage) in
     let llr1 := at_ m_zero received_llr (2 * stage + 1) in
     let new_metric := candidate pm llr0 llr1 stage (state, input) in
     acs llr0 llr1 stage state input (pm, ph)
     = if PrimFloat.ltb (get2 NEG_INF pm (stage + 1) (trellis_next state input))
            new_metric
       then (set2 pm (stage + 1) (trellis_next state input) new_metric,
             set2 ph (stage + 1) (trellis_next state input) (history_byte state input))
       else (pm, ph))
  /\ survivor_is_first_maximum received_llr stage x g0.
Proof.
  intros Sm Sh Hn Hrows Hx. apply grid_ok_shape in Sm, Sh.
  split; [intros; reflexivity|].
  exact (stage_first_maximum received_llr rows stage x g0 Sm Sh Hn Hrows Hx).
Qed.

Lemma acs_keeps_first_maximum_witness :
  survivor_is_first_maximum [0%float; 0%float] 0 32 tied_grids.
Proof.
  refine (proj2 (acs_keeps_first_maximum [0%float; 0%float] 2 0 32 tied_grids
                   _ _ _ _ _));
    [reflexivity|reflexivity|lia|lia|rewrite NUM_STATES_eq; lia].
Defined.

(** The tie is real: both branches enter state 32 with the candidate 0.0,
    and the history keeps the byte of the branch enumerated first. *)
Example tie_keeps_earlier_branch :
  let g := forward_stage [0%float; 0%float] tied_grids 0 in
  trellis_next 0 1 = 32 /\ trellis_next 1 1 = 32
  /\ candidate (fst tied_grids) 0%float 0%float 0 (0, 1)
     = candidate (fst tied_grids) 0%float 0%float 0 (1, 1)
  /\ get2 0 (snd g) 1 32 = history_byte 0 1
  /\ history_byte 0 1 <> history_byte 1 1.
Proof. vm_compute. repeat split; discriminate. Qed.

(** With all LLRs zero every comparison of the forward pass is a tie:
    the decoder then follows the first-enumerated branches, the all-zero
    path, in exact arithmetic and in binary64 alike. *)
Example viterbi_decode_all_ties :
  viterbi_decode (M := Z) (Some (replicate 32 0)) 32
    (Some (replicate 10 true)) (Some 0)
  = (0, Some (replicate 10 false), Some 10)
  /\ viterbi_decode (M := float) (Some (replicate 32 0%float)) 32
       (Some (replicate 10 true)) (Some 0)
     = (0, Some (replicate 10 false), Some 10).
Proof. split; vm_compute; reflexivity. Qed.

(** ** The uncoded drivers *)

Lemma fill_bits_length {G : Type} (draw : G -> bool * G) (n : nat) (gen : G) :
  length (fst (fill_bits draw n gen)) = n.
Proof.
  revert gen. induction n as [|n IH]; intros gen; [reflexivity|].
  cbn [fill_bits]. destruct (draw gen) as [b gen'].
  specialize (IH gen'). destruct (fill_bits draw n gen') as [bits gen''].
  cbn [fst length] in *. rewrite IH. reflexivity.
Qed.

Lemma count_mismatch_bounds (bits rx_bits : list bool) :
  0 <= count_mismatch bits rx_bits <= Z.of_nat (length bits).
Proof.
  revert rx_bits. induction bits as [|b bits IH]; intros rx_bits; [cbn; lia|].
  destruct rx_bits as [|r rx_bits]; [cbn [count_mismatch length]; lia|].
  cbn [count_mismatch length]. specialize (IH rx_bits).
  destruct (xorb b r); lia.
Qed.

Lemma ber_ratio_unit (errors total : Z) :
  0 <= errors <= total -> 0 < total ->
  (0 <= ber_ratio errors total <= 1)%Q.
Proof.
  intros He Ht. unfold ber_ratio.
  assert (Hpos : (0 < inject_Z total)%Q) by (unfold Qlt; cbn; lia).
  split.
  - apply Qle_shift_div_l; [exact Hpos|]. rewrite Qmult_0_l. unfold Qle; cbn; lia.
  - apply Qle_shift_div_r; [exact Hpos|]. rewrite Qmult_1_l. unfold Qle; cbn; lia.
Qed.

Lemma drawn_mismatch_bounds {G : Type} (draw : G -> bool * G) (n : Z) (gen : G)
    (rx_bits : list bool) :
  0 < n ->
  0 <= count_mismatch (fst (fill_bits draw (Z.to_nat n) gen)) rx_bits <= n.
Proof.
  intros Hn.
  pose proof (count_mismatch_bounds (fst (fill_bits draw (Z.to_nat n) gen)) rx_bits) as Hb.
  rewrite fill_bits_length in Hb. lia.
Qed.

Section DriverFacts.
Context {D : Type} `{Double D} `{Libm D} `{StdRandom D}.

Lemma add_noise_length {G : Type}
    (sample : normal_distribution -> G -> D * normal_distribution * G)
    (symbols : list (cdouble D)) (noise_dist : normal_distribution) (gen : G) :
  length (fst (fst (add_noise sample symbols noise_dist gen))) = length symbols.
Proof.
  unfold add_noise.
  assert (Hgen : forall (done : list (cdouble D)) dist g,
            length (fst (fst (fold_left (fun '(done, noise_dist, gen) s =>
                let '(re, noise_dist, gen) := sample noise_dist gen in
                let '(im, noise_dist, gen) := sample noise_dist gen in
                (done ++ [c_add s (re, im)], noise_dist, gen))
              symbols (done, dist, g))))
            = (length done + length symbols)%nat).
  { induction symbols as [|s symbols IH]; intros done dist g; [cbn; lia|].
    cbn [fold_left]. destruct (sample dist g) as [[re dist1] g1].
    destruct (sample dist1 g1) as [[im dist2] g2].
    rewrite IH, length_app. cbn [length]. lia. }
  apply (Hgen [] noise_dist gen).
Qed.

(** A channel whose noise draws are all [zero]: every symbol is added the
    pair ([zero], [zero]). *)
Lemma add_noise_constant {G : Type}
    (sample : normal_distribution -> G -> D * normal_distribution * G)
    (zero : D) (symbols : list (cdouble D)) (noise_dist : normal_distribution)
    (gen : G) :
  (forall dist g, fst (fst (sample dist g)) = zero) ->
  fst (fst (add_noise sample symbols noise_dist gen))
  = map (fun s => c_add s (zero, zero)) symbols.
Proof.
  intros Hzero. unfold add_noise.
  assert (Hgen : forall (done : list (cdouble D)) dist g,
            fst (fst (fold_left (fun '(done, noise_dist, gen) s =>
                let '(re, noise_dist, gen) := sample noise_dist gen in
                let '(im, noise_dist, gen) := sample noise_dist gen in
                (done ++ [c_add s (re, im)], noise_dist, gen))
              symbols (done, dist, g)))
            = done ++ map (fun s => c_add s (zero, zero)) symbols).
  { induction symbols as [|s symbols IH]; intros done dist g;
      [cbn; rewrite app_nil_r; reflexivity|].
    cbn [fold_left map]. pose proof (Hzero dist g) as Ere.
    destruct (sample dist g) as [[re dist1] g1]. cbn [fst] in Ere. subst re.
    pose proof (Hzero dist1 g1) as Eim.
    destruct (sample dist1 g1) as [[im dist2] g2]. cbn [fst] in Eim. subst im.
    rewrite IH, <- app_assoc. reflexivity. }
  apply (Hgen [] noise_dist gen).
Qed.

Lemma count_mismatch_same (bits : list bool) : count_mismatch bits bits = 0.
Proof.
  induction bits as [|b bits IH]; [reflexivity|].
  cbn [count_mismatch]. rewrite xorb_nilpotent, IH. reflexivity.
Qed.

Lemma rem_odd_test (z : Z) : negb (Z.rem z 2 =? 0) = Z.odd z.
Proof.
  destruct z as [|p|p]; [reflexivity| |].
  - rewrite Z.rem_mod_nonneg, Zmod_odd by lia. destruct (Z.odd (Z.pos p)); reflexivity.
  - change (Z.neg p) with (- Z.pos p). rewrite Z.rem_opp_l', Z.odd_opp.
    rewrite Z.rem_mod_nonneg, Zmod_odd by lia. destruct (Z.odd (Z.pos p)); reflexivity.
Qed.

End DriverFacts.

Lemma filter_shift_length (f : nat -> bool) (l : list nat) :
  length (filter f (map Datatypes.S l))
  = length (filter (fun i => f (Datatypes.S i)) l).
Proof.
  induction l as [|i l IH]; [reflexivity|].
  cbn [map]. rewrite !filter_cons.
  destruct (decide (f (Datatypes.S i))) as [E|E]; cbn [length]; rewrite IH; reflexivity.
Qed.

Lemma count_mismatch_positions (bits rx_bits : list bool) :
  (length bits <= length rx_bits)%nat ->
  count_mismatch bits rx_bits = Z.of_nat (length (differing_positions bits rx_bits)).
Proof.
  unfold differing_positions.
  revert rx_bits. induction bits as [|b bits IH]; intros rx_bits Hlen; [reflexivity|].
  destruct rx_bits as [|r rx_bits]; [cbn [length] in Hlen; lia|].
  cbn [length] in Hlen. cbn [count_mismatch length seq].
  rewrite <- seq_shift, filter_cons. cbn [nth].
  rewrite (IH rx_bits) by lia.
  pose proof (filter_shift_length
                (fun i => xorb (nth i (b :: bits) false) (nth i (r :: rx_bits) false))
                (seq 0 (length bits))) as Hshift.
  cbn [nth] in Hshift.
  destruct (decide (xorb b r)) as [E|E].
  - cbn [length]. rewrite Hshift.
    destruct (xorb b r); [lia|destruct E].
  - rewrite Hshift. destruct (xorb b r); [exfalso; apply E; exact I|lia].
Qed.

Section UncodedDriver.
Context {D : Type} `{Double D} `{Libm D} `{StdRandom D}.

(** The drivers receive as many bits as they sent. *)
Lemma received_length {G : Type}
    (sample : normal_distribution -> G -> D * normal_distribution * G)
    (mod_order : Z) (sent : list bool) (noise_dist : normal_distribution) (gen : G) :
  In mod_order [2; 4; 16] ->
  Z.rem (Z.of_nat (length sent)) (Z.log2 mod_order) = 0 ->
  length (demodulate
            (fst (fst (add_noise sample (modulate sent mod_order) noise_dist gen)))
            mod_order)
  = length sent.
Proof.
  intros Hv Hrem.
  rewrite demodulate_length_any, add_noise_length, (modulate_length_valid _ _ Hv).
  assert (Hk : 0 < Z.log2 mod_order)
    by (destruct Hv as [<-|[<-|[<-|[]]]]; reflexivity).
  rewrite Z.rem_mod_nonneg in Hrem by lia.
  apply Z.mod_divide in Hrem; [|lia]. destruct Hrem as [q Hq].
  assert (Hq0 : 0 <= q) by nia.
  assert (E : length sent = (Z.to_nat q * Z.to_nat (Z.log2 mod_order))%nat) by nia.
  rewrite E at 1. rewrite Nat.div_mul by lia. lia.
Qed.

(** The reduced count is a multiple of k. *)
Lemma reduced_count_rem (num_bits k : Z) :
  0 < k -> Z.rem (num_bits - Z.rem num_bits k) k = 0.
Proof.
  intros Hk. pose proof (Z.quot_rem' num_bits k) as Hqr.
  replace (num_bits - Z.rem num_bits k) with (Z.quot num_bits k * k) by lia.
  apply Z.rem_mul. lia.
Qed.

(** A run of [compute_ber] that passes the guards. *)
Lemma compute_ber_runs (mod_order : Z) (snr_db : D) (num_bits n : Z)
    (rd : random_device) :
  In mod_order [2; 4; 16] ->
  m_ltb snr_db (of_int (-50)) = false -> m_ltb (of_int 50) snr_db = false ->
  n = num_bits - Z.rem num_bits (Z.log2 mod_order) ->
  0 < n <= 100000000 ->
  let '(seed, rd1) := rd_next rd in
  let '(bit_seed, rd2) := rd_next rd1 in
  let sent := fst (fill_bits uniform_bit (Z.to_nat n) (mt19937_seed bit_seed)) in
  let n0 := d_div (of_int 1) (d_mul (of_int (Z.log2 mod_order)) (db_to_linear snr_db)) in
  let sigma := d_sqrt (d_div n0 (of_int 2)) in
  let received :=
    demodulate
      (fst (fst (add_noise normal_sample (modulate sent mod_order)
                   (normal_init m_zero sigma) (mt19937_seed seed)))) mod_order in
  let errors := Z.of_nat (length (differing_positions sent received)) in
  compute_ber mod_order snr_db num_bits rd = (ber_ratio errors n, rd2)
  /\ Z.of_nat (length sent) = n
  /\ length received = length sent
  /\ 0 <= errors <= n
  /\ (0 <= ber_ratio errors n <= 1)%Q.
Proof.
  intros Hv Hlo Hhi Hn Hrange.
  assert (Hk : 0 < Z.log2 mod_order)
    by (destruct Hv as [<-|[<-|[<-|[]]]]; reflexivity).
  assert (Hrem : Z.rem n (Z.log2 mod_order) = 0).
  { subst n. apply reduced_count_rem, Hk. }
  unfold compute_ber, bits_per_sym_of, m_gtb, bind.
  assert (Hadj : (if negb (Z.rem num_bits (Z.log2 mod_order) =? 0)
                  then num_bits - Z.rem num_bits (Z.log2 mod_order) else num_bits)
                 = n).
  { subst n. destruct (Z.eqb_spec (Z.rem num_bits (Z.log2 mod_order)) 0) as [E|_];
      cbn [negb]; [rewrite E; lia|reflexivity]. }
  rewrite Hadj, Hlo, Hhi. clear Hadj Hn.
  replace (negb (mod_order =? 2) && negb (mod_order =? 4) && negb (mod_order =? 16))
    with false by (destruct Hv as [<-|[<-|[<-|[]]]]; reflexivity).
  cbn [orb].
  destruct (Z.leb_spec n 0) as [?|_]; [lia|].
  destruct (Z.ltb_spec 100000000 n) as [?|_]; [lia|].
  destruct (rd_next rd) as [seed rd1]. destruct (rd_next rd1) as [bit_seed rd2].
  cbv zeta.
  set (sent := fst (fill_bits uniform_bit (Z.to_nat n) (mt19937_seed bit_seed))).
  assert (Hsent : length sent = Z.to_nat n) by apply fill_bits_length.
  set (received := demodulate _ mod_order).
  assert (Hrec : length received = length sent).
  { apply received_length; [exact Hv|]. rewrite Hsent, Z2Nat.id by lia. exact Hrem. }
  assert (Herr : count_mismatch sent received
                 = Z.of_nat (length (differing_positions sent received)))
    by (apply count_mismatch_positions; lia).
  pose proof (count_mismatch_bounds sent received) as Hb.
  rewrite Herr, Hsent, Z2Nat.id in Hb by lia.
  split; [unfold ret; rewrite Herr; reflexivity|].
  split; [rewrite Hsent; lia|]. split; [exact Hrec|]. split; [exact Hb|].
  apply ber_ratio_unit; [exact Hb|lia].
Qed.

Lemma compute_ber_runs_above_cap (snr_db : D) (rd : random_device) :
  m_ltb snr_db (of_int (-50)) = false -> m_ltb (of_int 50) snr_db = false ->
  (0 <= fst (compute_ber 4 snr_db 100000001 rd) <= 1)%Q.
Proof.
  intros Hlo Hhi.
  pose proof (compute_ber_runs 4 snr_db 100000001 100000000 rd
                ltac:(cbn; tauto) Hlo Hhi eq_refl ltac:(lia)) as Hrun.
  destruct (rd_next rd) as [seed rd1]. destruct (rd_next rd1) as [bit_seed rd2].
  cbv zeta in Hrun. destruct Hrun as (-> & _ & _ & _ & Hunit). exact Hunit.
Qed.

End UncodedDriver.

(** C3. compute_ber is decided by its guards, in their order: an order
    outside {2, 4, 16} gives -1; an SNR below -50 or above +50 gives -1;
    otherwise a bit count that is <= 0 once reduced to a multiple of k
    gives 0; a reduced count above 10^8 gives -1; and otherwise the result
    is errors / N for the reduced count N, a value in [0, 1], where errors
    is the number of positions at which the N bits drawn from the bit
    generator differ from the N bits demodulated from their noisy
    symbols. *)
Theorem compute_ber_guards {D : Type} `{Double D} `{Libm D} `{StdRandom D}
    (mod_order : Z) (snr_db : D) (num_bits : Z) (rd : random_device) :
  let result := fst (compute_ber mod_order snr_db num_bits rd) in
  let k := Z.log2 mod_order in
  let adjusted := num_bits - Z.rem num_bits k in
  let valid := In mod_order [2; 4; 16] in
  let out_of_range :=
    m_ltb snr_db (of_int (-50)) = true \/ m_ltb (of_int 50) snr_db = true in
  (~ valid -> result = (-1)%Q)
  /\ (out_of_range -> result = (-1)%Q)
  /\ (valid -> ~ out_of_range -> adjusted <= 0 -> result = 0%Q)
  /\ (valid -> 100000000 < adjusted -> result = (-1)%Q)
  /\ (valid -> ~ out_of_range -> 0 < adjusted <= 100000000 ->
      let '(seed, rd1) := rd_next rd in
      let '(bit_seed, rd2) := rd_next rd1 in
      let sent :=
        fst (fill_bits uniform_bit (Z.to_nat adjusted) (mt19937_seed bit_seed)) in
      let n0 := d_div (of_int 1) (d_mul (of_int k) (db_to_linear snr_db)) in
      let sigma := d_sqrt (d_div n0 (of_int 2)) in
      let received :=
        demodulate
          (fst (fst (add_noise normal_sample (modulate sent mod_order)
                       (normal_init m_zero sigma) (mt19937_seed seed)))) mod_order in
      let errors := Z.of_nat (length (differing_positions sent received)) in
      Z.of_nat (length sent) = adjusted
      /\ length received = length sent
      /\ result = ber_ratio errors adjusted
      /\ 0 <= errors <= adjusted
      /\ (0 <= result <= 1)%Q).
Proof.
  cbv zeta.
  split; [|split; [|split; [|split]]].
  5: { intros Hv Hout Hrange.
       assert (Hlo : m_ltb snr_db (of_int (-50)) = false)
         by (destruct (m_ltb snr_db (of_int (-50))); [exfalso; tauto|reflexivity]).
       assert (Hhi : m_ltb (of_int 50) snr_db = false)
         by (destruct (m_ltb (of_int 50) snr_db); [exfalso; tauto|reflexivity]).
       pose proof (compute_ber_runs mod_order snr_db num_bits _ rd Hv Hlo Hhi
                     eq_refl Hrange) as Hrun.
       destruct (rd_next rd) as [seed rd1]. destruct (rd_next rd1) as [bit_seed rd2].
       cbv zeta in Hrun. destruct Hrun as (Hres & Hsent & Hrec & Herr & Hunit).
       rewrite Hres. cbn [fst].
       split; [exact Hsent|]. split; [exact Hrec|]. split; [reflexivity|].
       split; [exact Herr|exact Hunit]. }
  all: unfold compute_ber, bits_per_sym_of, m_gtb.
  all: assert (Hadj : (if negb (Z.rem num_bits (Z.log2 mod_order) =? 0)
                  then num_bits - Z.rem num_bits (Z.log2 mod_order) else num_bits)
                 = num_bits - Z.rem num_bits (Z.log2 mod_order))
    by (destruct (Z.eqb_spec (Z.rem num_bits (Z.log2 mod_order)) 0) as [E|_];
        cbn [negb]; [rewrite E; lia|reflexivity]).
  all: rewrite Hadj; clear Hadj.
  all: set (adjusted := num_bits - Z.rem num_bits (Z.log2 mod_order)).
  all: destruct (Z.eqb_spec mod_order 2) as [E2|N2];
    [|destruct (Z.eqb_spec mod_order 4) as [E4|N4];
      [|destruct (Z.eqb_spec mod_order 16) as [E16|N16]]]; cbn [negb andb];
    try (intros Hv; exfalso; apply Hv; subst; cbn; tauto);
    try (intros; reflexivity);
    try (intros Hv; exfalso; cbn in Hv; intuition congruence).
  all: destruct (m_ltb snr_db (of_int (-50))) eqn:Hlo; cbn [orb];
    try (intros; reflexivity); try (intros; exfalso; tauto).
  all: destruct (m_ltb (of_int 50) snr_db) eqn:Hhi;
    try (intros; reflexivity); try (intros; exfalso; tauto).
  all: try (intros [?|?]; discriminate).
  all: destruct (Z.leb_spec adjusted 0) as [Hle|Hpos];
    try (intros; reflexivity); try (intros; exfalso; lia).
  all: destruct (Z.ltb_spec 100000000 adjusted) as [Hbig|Hsmall];
    try (intros; reflexivity); try (intros; exfalso; lia).
Qed.

(** The claim C3 as stated fails at the order 4 and 10^8 + 1 bits: the
    count exceeds 10^8, but it is first reduced to the multiple 10^8 of
    k = 2, which passes the cap, and the simulation runs. *)
Lemma compute_ber_guards_counterexample :
  100000000 < 100000001
  /\ (0 <= fst (compute_ber (D := R) (H1 := null_random R) 4 0%R 100000001 tt) <= 1)%Q
  /\ ~ (-1 == fst (compute_ber (D := R) (H1 := null_random R) 4 0%R 100000001 tt))%Q.
Proof.
  assert (Hrun : (0 <= fst (compute_ber (D := R) (H1 := null_random R)
                              4 0%R 100000001 tt) <= 1)%Q).
  { apply (compute_ber_runs_above_cap (D := R) (H1 := null_random R) 0%R tt).
    - cbn. unfold R_ltb. destruct (Rlt_dec 0 (-50)) as [Hlt|_]; [lra|reflexivity].
    - cbn. unfold R_ltb. destruct (Rlt_dec 50 0) as [Hlt|_]; [lra|reflexivity]. }
  split; [lia|]. split; [exact Hrun|].
  intros E. destruct Hrun as [Hnonneg _]. rewrite <- E in Hnonneg.
  revert Hnonneg. unfold Qle. cbn. lia.
Qed.

(** C9. compute_ber_seeded is a function of its four arguments: whatever
    the state of the entropy source, two calls with the same mod_order,
    snr_db, num_bits and seed return the same value, and the call draws
    nothing from the entropy source. *)
Theorem compute_ber_seeded_deterministic {D : Type} `{Double D} `{Libm D}
    `{StdRandom D} (mod_order : Z) (snr_db : D) (num_bits seed : Z)
    (rd1 rd2 : random_device) :
  fst (compute_ber_seeded mod_order snr_db num_bits seed rd1)
  = fst (compute_ber_seeded mod_order snr_db num_bits seed rd2)
  /\ snd (compute_ber_seeded mod_order snr_db num_bits seed rd1) = rd1.
Proof.
  unfold compute_ber_seeded.
  destruct (negb (mod_order =? 2) && negb (mod_order =? 4) && negb (mod_order =? 16));
    [split; reflexivity|].
  destruct (m_ltb snr_db (of_int (-50)) || m_gtb snr_db (of_int 50));
    [split; reflexivity|].
  cbv zeta.
  match goal with
  | |- context [if ?c then ret 0%Q else _] => destruct c; [split; reflexivity|]
  end.
  match goal with
  | |- context [if ?c then ret (-1)%Q else _] => destruct c; [split; reflexivity|]
  end.
  destruct (fill_bits uniform_bit_64 _ _) as [bits gen].
  split; reflexivity.
Qed.

(** compute_ber, by contrast, takes its seeds from the entropy source:
    with the generator [parity_random] one BPSK bit at 0 dB is received
    wrongly from the state 0 and correctly from the state 1, while the
    seeded driver gives the same answer from both. *)
Example compute_ber_depends_on_entropy :
  fst (compute_ber (D := float) (H0 := flat_libm) (H1 := parity_random float)
         2 0%float 1 0) = 1%Q
  /\ fst (compute_ber (D := float) (H0 := flat_libm) (H1 := parity_random float)
            2 0%float 1 1) = 0%Q
  /\ fst (compute_ber_seeded (D := float) (H0 := flat_libm) (H1 := parity_random float)
            2 0%float 1 0 0) = 1%Q
  /\ fst (compute_ber_seeded (D := float) (H0 := flat_libm) (H1 := parity_random float)
            2 0%float 1 0 1) = 1%Q.
Proof. vm_compute. repeat split; reflexivity. Qed.

(** ** The coded driver *)

Lemma viterbi_decode_runs {M : Type} `{Metric M} (llr : list M) (L : Z)
    (decoded : list bool) (dlen : Z) :
  1 <= L ->
  exists out,
    viterbi_decode (Some llr) (2 * (L + 6)) (Some decoded) (Some dlen)
    = (0, Some out, Some L).
Proof.
  intros HL. unfold viterbi_decode.
  destruct (Z.leb_spec (2 * (L + 6)) 0) as [Hle|_]; [lia|].
  replace (Z.rem (2 * (L + 6)) 2) with 0 by (rewrite Z.mul_comm, Z.rem_mul; lia).
  replace (Z.quot (2 * (L + 6)) 2) with (L + 6) by (rewrite Z.mul_comm, Z.quot_mul; lia).
  cbn [Z.eqb negb]. unfold CONSTRAINT_LENGTH.
  replace (L + 6 - (7 - 1)) with L by lia.
  destruct (Z.leb_spec L 0) as [Hle|_]; [lia|].
  destruct (forward_pass llr (L + 6)) as [pm ph].
  destruct (traceback ph (L + 6) L decoded) as [out st].
  exists out. reflexivity.
Qed.

Section CodedDriver.
Context {D : Type} `{Double D} `{Libm D} `{StdRandom D}.

(** Once past the guards, the coded simulation ends on the error ratio
    over the info bits, whatever the SNR and the noise. *)
Lemma coded_simulation_ratio (mod_order : Z) (snr_db : D) (n seed : Z) :
  1 <= n -> 2 * (n + 6) <= INT_MAX ->
  exists errors,
    0 <= errors <= n
    /\ coded_simulation mod_order snr_db n (2 * (n + 6)) seed = ber_ratio errors n.
Proof.
  intros Hn Hint. unfold coded_simulation.
  pose proof (fill_bits_length uniform_bit (Z.to_nat n) (mt19937_seed seed)) as Hlen.
  destruct (fill_bits uniform_bit (Z.to_nat n) (mt19937_seed seed)) as [orig gen].
  cbn [fst] in Hlen.
  rewrite (convolutional_encode_sized orig n
             (replicate (Z.to_nat (2 * (n + 6))) false) 0)
    by (rewrite ?length_replicate; lia).
  cbn [Z.eqb negb orb]. change (default 0 (Some ?x)) with x.
  rewrite Z.eqb_refl. cbn [negb].
  match goal with
  | |- context [viterbi_decode (Some ?llr) _ (Some ?buf) (Some 0)] =>
      destruct (viterbi_decode_runs llr n buf 0 Hn) as [out Hdec]; rewrite Hdec
  end.
  cbn [Z.eqb negb]. change (default 0 (Some n)) with n.
  destruct (Z.leb_spec n 0) as [Hle|_]; [lia|].
  destruct (Z.ltb_spec n n) as [Hlt|_]; [lia|]. cbn [orb].
  rewrite Z.min_id. eexists. split; [|reflexivity].
  pose proof (count_mismatch_bounds (take (Z.to_nat n) orig)
                (take (Z.to_nat n) (default [] (Some out)))) as Hb.
  rewrite length_take in Hb. lia.
Qed.

Lemma coded_simulation_unit (mod_order : Z) (snr_db : D) (n seed : Z) :
  1 <= n -> 2 * (n + 6) <= INT_MAX ->
  (0 <= coded_simulation mod_order snr_db n (2 * (n + 6)) seed <= 1)%Q.
Proof.
  intros Hn Hint.
  destruct (coded_simulation_ratio mod_order snr_db n seed Hn Hint) as (e & He & ->).
  apply ber_ratio_unit; [exact He|lia].
Qed.

Lemma to_int32_small (z : Z) : - 2 ^ 31 <= z < 2 ^ 31 -> to_int32 z = z.
Proof. intros Hz. unfold to_int32. rewrite Z.mod_small by lia. lia. Qed.

(** The guards of [compute_ber_coded], for a valid order. *)
Lemma compute_ber_coded_valid (mod_order : Z) (snr_db : D) (num_bits seed : Z)
    (rd : random_device) :
  In mod_order [2; 4; 16] ->
  - 2 ^ 31 <= num_bits < 2 ^ 31 ->
  let n := if (mod_order =? 16) && negb (Z.rem num_bits 2 =? 0)
           then num_bits - 1 else num_bits in
  1 <= n -> 2 * (n + 6) <= INT_MAX ->
  compute_ber_coded mod_order snr_db num_bits seed rd
  = (if 200000000 <? 2 * (n + 6) then (- (1 # 4))%Q
     else coded_simulation mod_order snr_db n (2 * (n + 6)) seed, rd).
Proof.
  intros Hvalid Hrange n Hn Hint. unfold compute_ber_coded.
  assert (Hv : negb (mod_order =? 2) && negb (mod_order =? 4) && negb (mod_order =? 16)
               = false).
  { cbn in Hvalid. destruct Hvalid as [<-|[<-|[<-|[]]]]; reflexivity. }
  rewrite Hv, (to_int32_small num_bits Hrange). cbv zeta. fold n.
  unfold INT_MAX in Hint.
  assert (Hodd : (mod_order =? 16) && negb (Z.rem num_bits 2 =? 0) && (n <=? 0) = false).
  { destruct (Z.leb_spec n 0); [lia|]. apply andb_false_r. }
  rewrite Hodd. destruct (Z.leb_spec n 0) as [Hle|_]; [lia|].
  rewrite (to_int32_small (n + 6)) by lia.
  rewrite (to_int32_small (2 * (n + 6))) by lia.
  destruct (Z.leb_spec (2 * (n + 6)) 0) as [Hle|_]; [lia|].
  destruct (200000000 <? 2 * (n + 6)); reflexivity.
Qed.

(** An odd count just over the cap, for the order 16: the count is made
    even first, the coded length is 2 10^8 exactly, and the run goes on. *)
Lemma compute_ber_coded_runs (mod_order : Z) (snr_db : D) (num_bits seed n : Z)
    (rd : random_device) :
  In mod_order [2; 4; 16] ->
  - 2 ^ 31 <= num_bits < 2 ^ 31 ->
  n = (if (mod_order =? 16) && negb (Z.rem num_bits 2 =? 0)
       then num_bits - 1 else num_bits) ->
  1 <= n -> 2 * (n + 6) <= 200000000 ->
  compute_ber_coded mod_order snr_db num_bits seed rd
  = (coded_simulation mod_order snr_db n (2 * (n + 6)) seed, rd).
Proof.
  intros Hvalid Hrange En Hn Hcap.
  pose proof (compute_ber_coded_valid mod_order snr_db num_bits seed rd Hvalid Hrange)
    as Hrun.
  cbv zeta in Hrun. rewrite <- En in Hrun.
  rewrite Hrun by (unfold INT_MAX; lia).
  destruct (Z.ltb_spec 200000000 (2 * (n + 6))) as [Hbig|_]; [lia|reflexivity].
Qed.

Lemma compute_ber_coded_odd_at_cap (snr_db : D) (seed : Z) (rd : random_device) :
  (0 <= fst (compute_ber_coded 16 snr_db 99999995 seed rd) <= 1)%Q.
Proof.
  rewrite (compute_ber_coded_runs 16 snr_db 99999995 seed 99999994 rd);
    [|cbn; tauto|lia|reflexivity|lia|lia].
  apply coded_simulation_unit; [|unfold INT_MAX]; lia.
Qed.

End CodedDriver.







(** ** The drivers: guards, entropy, quiet channel; the SNR estimator *)

(** X4. compute_ber_seeded has the guards of compute_ber, in the same
    order: an order outside {2, 4, 16} gives -1; an SNR below -50 or above
    +50 gives -1; otherwise a bit count that is <= 0 once reduced to a
    multiple of k = log2 M gives 0, a reduced count above 10^8 gives -1,
    and any other gives errors / N for the reduced count N, in [0, 1],
    where errors is the number of positions at which the N bits drawn from
    the seeded generator differ from the N bits demodulated from their
    noisy symbols, the noise being drawn from the same generator after
    the bits. *)
Theorem compute_ber_seeded_guards {D : Type} `{Double D} `{Libm D} `{StdRandom D}
    (mod_order : Z) (snr_db : D) (num_bits seed : Z) (rd : random_device) :
  let result := fst (compute_ber_seeded mod_order snr_db num_bits seed rd) in
  let k := Z.log2 mod_order in
  let adjusted := num_bits - Z.rem num_bits k in
  let valid := In mod_order [2; 4; 16] in
  let out_of_range :=
    m_ltb snr_db (of_int (-50)) = true \/ m_ltb (of_int 50) snr_db = true in
  (~ valid -> result = (-1)%Q)
  /\ (out_of_range -> result = (-1)%Q)
  /\ (valid -> ~ out_of_range -> adjusted <= 0 -> result = 0%Q)
  /\ (valid -> 100000000 < adjusted -> result = (-1)%Q)
  /\ (valid -> ~ out_of_range -> 0 < adjusted <= 100000000 ->
      let '(sent, gen) :=
        fill_bits uniform_bit_64 (Z.to_nat adjusted) (mt19937_64_seed seed) in
      let n0 := d_div (of_int 1) (d_mul (of_int k) (db_to_linear snr_db)) in
      let sigma := d_sqrt (d_div n0 (of_int 2)) in
      let received :=
        demodulate
          (fst (fst (add_noise normal_sample_64 (modulate sent mod_order)
                       (normal_init m_zero sigma) gen))) mod_order in
      let errors := Z.of_nat (length (differing_positions sent received)) in
      Z.of_nat (length sent) = adjusted
      /\ length received = length sent
      /\ result = ber_ratio errors adjusted
      /\ 0 <= errors <= adjusted
      /\ (0 <= result <= 1)%Q).
Proof.
  cbv zeta. unfold compute_ber_seeded, bits_per_sym_of, m_gtb.
  assert (Hadj : (if negb (Z.rem num_bits (Z.log2 mod_order) =? 0)
                  then num_bits - Z.rem num_bits (Z.log2 mod_order) else num_bits)
                 = num_bits - Z.rem num_bits (Z.log2 mod_order)).
  { destruct (Z.eqb_spec (Z.rem num_bits (Z.log2 mod_order)) 0) as [E|_];
      cbn [negb]; [rewrite E; lia|reflexivity]. }
  rewrite Hadj. clear Hadj.
  assert (Hvalid : In mod_order [2; 4; 16]
                   <-> negb (mod_order =? 2) && negb (mod_order =? 4)
                       && negb (mod_order =? 16) = false).
  { cbn [In]. destruct (Z.eqb_spec mod_order 2), (Z.eqb_spec mod_order 4),
      (Z.eqb_spec mod_order 16); cbn [negb andb]; intuition congruence. }
  destruct (negb (mod_order =? 2) && negb (mod_order =? 4) && negb (mod_order =? 16)).
  { cbn [ret fst]. repeat split; try reflexivity; intros Hv; exfalso;
      apply Hvalid in Hv; discriminate. }
  assert (Hv : In mod_order [2; 4; 16]) by (apply Hvalid; reflexivity). clear Hvalid.
  assert (Hrem : Z.rem (num_bits - Z.rem num_bits (Z.log2 mod_order)) (Z.log2 mod_order)
                 = 0).
  { apply reduced_count_rem. destruct Hv as [<-|[<-|[<-|[]]]]; reflexivity. }
  revert Hrem. generalize (num_bits - Z.rem num_bits (Z.log2 mod_order)).
  intros adjusted Hrem.
  destruct (m_ltb snr_db (of_int (-50))) eqn:Hlo; cbn [orb];
    [cbn [ret fst]; repeat split; try reflexivity; intros; try tauto;
     exfalso; tauto|].
  destruct (m_ltb (of_int 50) snr_db) eqn:Hhi;
    [cbn [ret fst]; repeat split; try reflexivity; intros; try tauto;
     exfalso; tauto|].
  destruct (Z.leb_spec adjusted 0) as [Hle|Hpos];
    [cbn [ret fst]; repeat split; try reflexivity; intros; try tauto;
     try (exfalso; intuition congruence); lia|].
  destruct (Z.ltb_spec 100000000 adjusted) as [Hbig|Hsmall];
    [cbn [ret fst]; repeat split; try reflexivity; intros; try tauto;
     try (exfalso; intuition congruence); lia|].
  pose proof (fill_bits_length uniform_bit_64 (Z.to_nat adjusted) (mt19937_64_seed seed))
    as Hlen.
  destruct (fill_bits uniform_bit_64 (Z.to_nat adjusted) (mt19937_64_seed seed))
    as [sent gen]. cbn [fst] in Hlen. cbn [ret fst].
  split; [intros Hn; exfalso; tauto|]. split; [intros [?|?]; discriminate|].
  split; [intros; lia|]. split; [intros; lia|]. intros _ _ _.
  set (received := demodulate _ mod_order).
  assert (Hrec : length received = length sent).
  { apply received_length; [exact Hv|]. rewrite Hlen, Z2Nat.id by lia. exact Hrem. }
  assert (Herr : count_mismatch sent received
                 = Z.of_nat (length (differing_positions sent received)))
    by (apply count_mismatch_positions; lia).
  pose proof (count_mismatch_bounds sent received) as Hb.
  rewrite Herr, Hlen, Z2Nat.id in Hb by lia.
  split; [rewrite Hlen; lia|]. split; [exact Hrec|].
  split; [rewrite Herr; reflexivity|]. split; [exact Hb|].
  rewrite Herr. apply ber_ratio_unit; [exact Hb|lia].
Qed.

(** X5. compute_ber_coded never draws from the entropy source: it leaves
    the source as it found it and its result does not depend on it, for
    all arguments (for an order outside {2, 4, 16} it hands over to
    compute_ber, which returns -1 before it draws). *)
Theorem compute_ber_coded_no_entropy {D : Type} `{Double D} `{Libm D} `{StdRandom D}
    (mod_order : Z) (snr_db : D) (num_bits seed : Z) (rd1 rd2 : random_device) :
  snd (compute_ber_coded mod_order snr_db num_bits seed rd1) = rd1
  /\ fst (compute_ber_coded mod_order snr_db num_bits seed rd1)
     = fst (compute_ber_coded mod_order snr_db num_bits seed rd2)
  /\ (~ In mod_order [2; 4; 16] ->
      fst (compute_ber_coded mod_order snr_db num_bits seed rd1) = (-1)%Q).
Proof.
  unfold compute_ber_coded, compute_ber.
  assert (Hvalid : In mod_order [2; 4; 16]
                   <-> negb (mod_order =? 2) && negb (mod_order =? 4)
                       && negb (mod_order =? 16) = false).
  { cbn [In]. destruct (Z.eqb_spec mod_order 2), (Z.eqb_spec mod_order 4),
      (Z.eqb_spec mod_order 16); cbn [negb andb]; intuition congruence. }
  destruct (negb (mod_order =? 2) && negb (mod_order =? 4) && negb (mod_order =? 16)).
  { repeat split; reflexivity. }
  cbv zeta.
  repeat match goal with
         | |- context [if ?c then ret _ else _] => destruct c
         end;
    (split; [reflexivity|split; [reflexivity|]]);
    intros Hinv; exfalso; apply Hinv, Hvalid; reflexivity.
Qed.

(** X6. The small counts of compute_ber_coded, for a valid order and a
    num_bits that fits an int: with n = num_bits, less one when the order
    is 16 and num_bits is odd, a count n <= 0 gives the sentinel -0.15
    when it was decremented and -0.1 otherwise; and whatever the count
    (up to 2^30 - 7) the result is one of -0.15, -0.1, -0.25 or a value in
    [0, 1]: the sentinels -0.2, -0.3, -1 and -10 - status never come out. *)
Theorem compute_ber_coded_small_counts {D : Type} `{Double D} `{Libm D}
    `{StdRandom D} (mod_order : Z) (snr_db : D) (num_bits seed : Z)
    (rd : random_device) :
  In mod_order [2; 4; 16] ->
  - 2 ^ 31 <= num_bits <= 2 ^ 30 - 7 ->
  let result := fst (compute_ber_coded mod_order snr_db num_bits seed rd) in
  let odd16 := (mod_order =? 16) && Z.odd num_bits in
  let n := if odd16 then num_bits - 1 else num_bits in
  (n <= 0 -> result = if odd16 then (- (3 # 20))%Q else (- (1 # 10))%Q)
  /\ (result = (- (3 # 20))%Q \/ result = (- (1 # 10))%Q
      \/ result = (- (1 # 4))%Q \/ (0 <= result <= 1)%Q).
Proof.
  intros Hvalid Hrange result odd16 n.
  assert (Hsmall : n <= 0 ->
            result = if odd16 then (- (3 # 20))%Q else (- (1 # 10))%Q).
  { intros Hn. subst result. unfold compute_ber_coded.
    assert (Hv : negb (mod_order =? 2) && negb (mod_order =? 4)
                 && negb (mod_order =? 16) = false).
    { cbn in Hvalid. destruct Hvalid as [<-|[<-|[<-|[]]]]; reflexivity. }
    rewrite Hv, (to_int32_small num_bits) by lia. cbv zeta.
    rewrite rem_odd_test. fold odd16. fold n.
    destruct (Z.leb_spec n 0) as [_|Hpos]; [|lia].
    destruct odd16; reflexivity. }
  split; [exact Hsmall|].
  destruct (Z.le_gt_cases n 0) as [Hn|Hn].
  { rewrite (Hsmall Hn). destruct odd16; [left|right; left]; reflexivity. }
  assert (Hn6 : 2 * (n + 6) <= INT_MAX).
  { unfold INT_MAX. subst n. destruct odd16; lia. }
  pose proof (compute_ber_coded_valid mod_order snr_db num_bits seed rd Hvalid
                ltac:(lia)) as Hrun.
  cbv zeta in Hrun. rewrite rem_odd_test in Hrun. fold odd16 in Hrun. fold n in Hrun.
  subst result. rewrite Hrun by lia. cbn [fst].
  destruct (200000000 <? 2 * (n + 6)); [right; right; left; reflexivity|].
  do 3 right. apply coded_simulation_unit; lia.
Qed.

Lemma compute_ber_coded_small_counts_witness :
  let result := fst (compute_ber_coded (D := R) (H1 := null_random R) 16 0%R 1 0 tt) in
  let odd16 := (16 =? 16) && Z.odd 1 in
  let n := if odd16 then 1 - 1 else 1 in
  (n <= 0 -> result = if odd16 then (- (3 # 20))%Q else (- (1 # 10))%Q)
  /\ (result = (- (3 # 20))%Q \/ result = (- (1 # 10))%Q
      \/ result = (- (1 # 4))%Q \/ (0 <= result <= 1)%Q).
Proof.
  exact (compute_ber_coded_small_counts (D := R) (H1 := null_random R) 16 0%R 1 0 tt
           ltac:(cbn; tauto) ltac:(lia)).
Defined.

(** X7. estimate_snr returns -999 without drawing from the entropy source
    when the pilot count is <= 0, when the SNR is below -50 or above +50,
    or when the pilot count exceeds 10^6; in every other case it draws
    exactly one seed. *)
Theorem estimate_snr_guards {D : Type} `{Double D} `{Libm D} `{Log10 D}
    `{StdRandom D} (true_snr_db : D) (num_pilots : Z) (rd : random_device) :
  let out_of_range :=
    m_ltb true_snr_db (of_int (-50)) = true \/ m_ltb (of_int 50) true_snr_db = true in
  (num_pilots <= 0 \/ out_of_range \/ 1000000 < num_pilots ->
   estimate_snr true_snr_db num_pilots rd = (of_int (-999), rd))
  /\ (0 < num_pilots <= 1000000 -> ~ out_of_range ->
      snd (estimate_snr true_snr_db num_pilots rd) = snd (rd_next rd)).
Proof.
  cbv zeta. unfold estimate_snr, m_gtb.
  destruct (Z.leb_spec num_pilots 0) as [Hle|Hpos].
  { split; [reflexivity|intros; lia]. }
  destruct (m_ltb true_snr_db (of_int (-50))) eqn:Hlo; cbn [orb].
  { split; [reflexivity|intros _ Hin; exfalso; apply Hin; left; reflexivity]. }
  destruct (m_ltb (of_int 50) true_snr_db) eqn:Hhi.
  { split; [reflexivity|intros _ Hin; exfalso; apply Hin; right; reflexivity]. }
  destruct (Z.ltb_spec 1000000 num_pilots) as [Hbig|Hsmall].
  { split; [reflexivity|intros; lia]. }
  split.
  - intros [Hn|[[Hr|Hr]|Hn]]; try lia; discriminate.
  - intros _ _. unfold bind. destruct (rd_next rd) as [seed rd'].
    destruct (add_awgn _ _ _) as [rx gen]. reflexivity.
Qed.

Lemma bpsk_bits_quiet (b : bool) :
  bpsk_bits (D := float) (c_add (bpsk_symbol b) (0%float, 0%float)) = [b].
Proof. destruct b; vm_compute; reflexivity. Qed.

Lemma qpsk_bits_quiet (b0 b1 : bool) :
  qpsk_bits (D := float) (c_add (qpsk_symbol b0 b1) (0%float, 0%float)) = [b0; b1].
Proof. destruct b0, b1; vm_compute; reflexivity. Qed.

Lemma qam16_bits_quiet (b0 b1 b2 b3 : bool) :
  qam16_bits (D := float) (c_add (qam16_symbol b0 b1 b2 b3) (0%float, 0%float))
  = [b0; b1; b2; b3].
Proof. destruct b0, b1, b2, b3; vm_compute; reflexivity. Qed.

Lemma whole_groups (num_bits k : Z) :
  0 < k -> 0 < num_bits - Z.rem num_bits k ->
  (Z.to_nat k * (Z.to_nat (num_bits - Z.rem num_bits k) / Z.to_nat k)
   = Z.to_nat (num_bits - Z.rem num_bits k))%nat.
Proof.
  intros Hk Hpos.
  assert (Hq : num_bits - Z.rem num_bits k = k * Z.quot num_bits k).
  { pose proof (Z.quot_rem' num_bits k). lia. }
  rewrite Hq in *. assert (0 <= Z.quot num_bits k) by nia.
  rewrite Z2Nat.inj_mul by lia.
  rewrite (Nat.mul_comm (Z.to_nat k) (Z.to_nat (Z.quot num_bits k))) at 1.
  rewrite Nat.div_mul by lia. reflexivity.
Qed.

Lemma ber_ratio_zero (n : Z) : (ber_ratio 0 n == 0)%Q.
Proof. unfold ber_ratio, Qdiv. apply Qmult_0_l. Qed.

Lemma compute_ber_seeded_quiet `{Libm float} `{StdRandom float}
    (mod_order : Z) (snr_db : float) (num_bits seed : Z) (rd : random_device) :
  (forall dist g, fst (fst (normal_sample_64 dist g)) = 0%float) ->
  In mod_order [2; 4; 16] ->
  PrimFloat.ltb snr_db (-50)%float = false -> PrimFloat.ltb 50%float snr_db = false ->
  0 < num_bits - Z.rem num_bits (Z.log2 mod_order) <= 100000000 ->
  (fst (compute_ber_seeded mod_order snr_db num_bits seed rd) == 0)%Q.
Proof.
  intros Hquiet Hv Hlo Hhi Hn. unfold compute_ber_seeded, bits_per_sym_of, m_gtb.
  change (@m_ltb float (@double_metric float binary64) snr_db (@of_int float binary64 (-50)))
    with (PrimFloat.ltb snr_db (-50)%float).
  change (@m_ltb float (@double_metric float binary64) (@of_int float binary64 50) snr_db)
    with (PrimFloat.ltb 50%float snr_db).
  assert (Hvalid : negb (mod_order =? 2) && negb (mod_order =? 4)
                   && negb (mod_order =? 16) = false).
  { cbn in Hv. destruct Hv as [<-|[<-|[<-|[]]]]; reflexivity. }
  rewrite Hvalid, Hlo, Hhi. cbn [orb].
  assert (Hadj : (if negb (Z.rem num_bits (Z.log2 mod_order) =? 0)
                  then num_bits - Z.rem num_bits (Z.log2 mod_order) else num_bits)
                 = num_bits - Z.rem num_bits (Z.log2 mod_order)).
  { destruct (Z.eqb_spec (Z.rem num_bits (Z.log2 mod_order)) 0) as [E|_];
      cbn [negb]; [rewrite E; lia|reflexivity]. }
  rewrite Hadj. clear Hadj.
  assert (Hk : 0 < Z.log2 mod_order).
  { destruct (valid_order_cases _ Hv) as [->|[->| ->]]; reflexivity. }
  pose proof (whole_groups num_bits (Z.log2 mod_order) Hk (proj1 Hn)) as Hwhole.
  set (adjusted := num_bits - Z.rem num_bits (Z.log2 mod_order)) in *.
  destruct (Z.leb_spec adjusted 0) as [Hle|_]; [lia|].
  destruct (Z.ltb_spec 100000000 adjusted) as [Hbig|_]; [lia|].
  pose proof (fill_bits_length uniform_bit_64 (Z.to_nat adjusted) (mt19937_64_seed seed))
    as Hlen.
  destruct (fill_bits uniform_bit_64 (Z.to_nat adjusted) (mt19937_64_seed seed))
    as [bits gen]. cbn [fst] in Hlen. cbn [ret fst].
  rewrite (add_noise_constant normal_sample_64 0%float) by exact Hquiet.
  rewrite (modulate_groups bits mod_order Hv), map_map.
  rewrite (demodulate_moved bits mod_order (fun _ s => c_add s (0%float, 0%float)) Hv
             (fun _ _ => bpsk_bits_quiet) (fun _ _ => qpsk_bits_quiet)
             (fun _ _ => qam16_bits_quiet)).
  rewrite Hlen, Hwhole, <- Hlen, firstn_all, count_mismatch_same.
  apply ber_ratio_zero.
Qed.

(** X8. A quiet channel gives no errors, in binary64 arithmetic: when
    every draw of the noise distribution is +0.0, compute_ber_seeded
    returns 0 for every valid order, every SNR that passes the range check
    and every bit count it accepts (1 to 10^8 after reduction to a
    multiple of k), whatever the seed and the bits drawn. *)
Theorem compute_ber_seeded_noiseless `{Libm float} `{StdRandom float}
    (mod_order : Z) (snr_db : float) (num_bits seed : Z) (rd : random_device) :
  (forall dist g, fst (fst (normal_sample_64 dist g)) = 0%float) ->
  In mod_order [2; 4; 16] ->
  PrimFloat.ltb snr_db (-50)%float = false -> PrimFloat.ltb 50%float snr_db = false ->
  0 < num_bits - Z.rem num_bits (Z.log2 mod_order) <= 100000000 ->
  (fst (compute_ber_seeded mod_order snr_db num_bits seed rd) == 0)%Q.
Proof. apply compute_ber_seeded_quiet. Qed.

Lemma compute_ber_seeded_noiseless_witness :
  (fst (compute_ber_seeded (D := float) (H0 := flat_libm) (H1 := null_random float)
          16 10%float 9 7 tt) == 0)%Q.
Proof.
  apply (compute_ber_seeded_noiseless (H := flat_libm) (H0 := null_random float)
           16 10%float 9 7 tt);
    [reflexivity|cbn; tauto|reflexivity|reflexivity|vm_compute; split; [reflexivity|discriminate]].
Defined.

(** ** The 16-QAM LLR generator *)

Lemma for_break_append {A : Type} (f : nat -> A) (body : nat -> list A -> step (list A))
    (n : nat) :
  forall i s,
  (forall j s', (i <= j < i + n)%nat -> body j s' = Next (s' ++ [f j])) ->
  for_break n i body s = s ++ map f (seq i n).
Proof.
  induction n as [|n IH]; intros i s Hbody.
  - cbn. rewrite app_nil_r. reflexivity.
  - cbn [for_break seq map]. rewrite Hbody by lia.
    rewrite IH by (intros j s' Hj; apply Hbody; lia).
    rewrite <- app_assoc. reflexivity.
Qed.

Section Llr16.
Context {D : Type} `{Double D} `{Libm D}.

Lemma qam16_llr_step (n0 : D) (sym : cdouble D) (pre rest : list D) (a b c d : D) :
  (let '(llr, idx) := (pre ++ a :: b :: c :: d :: rest, Z.of_nat (length pre)) in
   let rI := d_div (fst sym) scale_16qam in
   let rQ := d_div (snd sym) scale_16qam in
   let '(llrI_msb, llrI_lsb) := fill_llrs n0 rI in
   let '(llrQ_msb, llrQ_lsb) := fill_llrs n0 rQ in
   let llr := <[Z.to_nat idx := llrI_msb]> llr in
   let idx := idx + 1 in
   let llr := <[Z.to_nat idx := llrQ_msb]> llr in
   let idx := idx + 1 in
   let llr := <[Z.to_nat idx := llrI_lsb]> llr in
   let idx := idx + 1 in
   let llr := <[Z.to_nat idx := llrQ_lsb]> llr in
   let idx := idx + 1 in
   (llr, idx))
  = (pre ++ qam16_symbol_llrs n0 sym ++ rest, Z.of_nat (length pre) + 4).
Proof.
  unfold qam16_symbol_llrs. cbv zeta.
  destruct (fill_llrs n0 (d_div (fst sym) scale_16qam)) as [i_msb i_lsb].
  destruct (fill_llrs n0 (d_div (snd sym) scale_16qam)) as [q_msb q_lsb].
  cbn [fst snd app].
  rewrite Nat2Z.id, (insert_chunk_0 pre) by reflexivity.
  replace (Z.to_nat (Z.of_nat (length pre) + 1)) with (Datatypes.S (length pre)) by lia.
  rewrite (insert_chunk_1 pre) by reflexivity.
  replace (Z.to_nat (Z.of_nat (length pre) + 1 + 1))
    with (Datatypes.S (Datatypes.S (length pre))) by lia.
  rewrite (insert_chunk_2 pre) by reflexivity.
  replace (Z.to_nat (Z.of_nat (length pre) + 1 + 1 + 1))
    with (Datatypes.S (Datatypes.S (Datatypes.S (length pre)))) by lia.
  rewrite (insert_chunk_3 pre) by reflexivity.
  f_equal. lia.
Qed.

Lemma generate_llr_qam16 (n0 : D) (symbols : list (cdouble D)) :
  generate_llr 16 n0 symbols (4 * Z.of_nat (length symbols))
  = flat_map (qam16_symbol_llrs n0) symbols.
Proof.
  unfold generate_llr. change (16 =? 2) with false. change (16 =? 4) with false.
  cbv iota zeta.
  assert (Hfold : forall syms pre rest post,
            length rest = (4 * length syms)%nat ->
            fold_left (fun '(llr, idx) sym =>
                let rI := d_div (fst sym) scale_16qam in
                let rQ := d_div (snd sym) scale_16qam in
                let '(llrI_msb, llrI_lsb) := fill_llrs n0 rI in
                let '(llrQ_msb, llrQ_lsb) := fill_llrs n0 rQ in
                let llr := <[Z.to_nat idx := llrI_msb]> llr in
                let idx := idx + 1 in
                let llr := <[Z.to_nat idx := llrQ_msb]> llr in
                let idx := idx + 1 in
                let llr := <[Z.to_nat idx := llrI_lsb]> llr in
                let idx := idx + 1 in
                let llr := <[Z.to_nat idx := llrQ_lsb]> llr in
                let idx := idx + 1 in
                (llr, idx)) syms (pre ++ rest ++ post, Z.of_nat (length pre))
            = (pre ++ flat_map (qam16_symbol_llrs n0) syms ++ post,
               Z.of_nat (length pre) + 4 * Z.of_nat (length syms))).
  { induction syms as [|sym syms IH]; intros pre rest post Hrest.
    - destruct rest; [|discriminate]. cbn. f_equal. lia.
    - destruct rest as [|a [|b [|c [|d rest]]]]; cbn [length] in Hrest; try lia.
      cbn [fold_left flat_map].
      change ((a :: b :: c :: d :: rest) ++ post) with (a :: b :: c :: d :: rest ++ post).
      lazymatch goal with
      | |- fold_left _ _ ?x = _ =>
          replace x with (pre ++ qam16_symbol_llrs n0 sym ++ rest ++ post,
                          Z.of_nat (length pre) + 4)
            by (symmetry; exact (qam16_llr_step n0 sym pre (rest ++ post) a b c d))
      end.
      pose proof (IH (pre ++ qam16_symbol_llrs n0 sym) rest post ltac:(lia)) as IH'.
      rewrite <- app_assoc, length_app, Nat2Z.inj_add in IH'.
      change (Z.of_nat (length (qam16_symbol_llrs n0 sym))) with 4 in IH'.
      etransitivity; [exact IH'|]. rewrite <- !app_assoc. f_equal. cbn [length]. lia. }
  specialize (Hfold symbols [] (replicate (Z.to_nat (4 * Z.of_nat (length symbols))) m_zero) []).
  rewrite !app_nil_r in Hfold. cbn [app length] in Hfold.
  change (Z.of_nat 0) with 0 in Hfold.
  rewrite Hfold by (rewrite length_replicate; lia). reflexivity.
Qed.

Lemma map_coded_symbols_qam16 (coded : list bool) (k : nat) :
  length coded = (4 * k)%nat ->
  map_coded_symbols 16 coded (Z.of_nat (length coded))
  = map (fun j =>
      (d_mul (get_level (nth (4 * j) coded false) (nth (4 * j + 2) coded false))
         scale_16qam,
       d_mul (get_level (nth (4 * j + 1) coded false) (nth (4 * j + 3) coded false))
         scale_16qam))
      (seq 0 k).
Proof.
  intros Hlen. unfold map_coded_symbols.
  change (16 =? 2) with false. change (16 =? 4) with false. cbv iota.
  replace (Z.to_nat ((Z.of_nat (length coded) + 3) / 4)) with k.
  2: { rewrite Hlen.
       assert (Hq : (Z.of_nat (4 * k) + 3) / 4 = Z.of_nat k)
         by (symmetry; apply Z.div_unique with (r := 3); lia).
       rewrite Hq, Nat2Z.id. reflexivity. }
  rewrite (for_break_append (fun j =>
      (d_mul (get_level (nth (4 * j) coded false) (nth (4 * j + 2) coded false))
         scale_16qam,
       d_mul (get_level (nth (4 * j + 1) coded false) (nth (4 * j + 3) coded false))
         scale_16qam))); [reflexivity|].
  intros j s' Hj. cbv zeta.
  destruct (Z.leb_spec (Z.of_nat (length coded)) (4 * Z.of_nat j + 3)) as [Hle|_]; [lia|].
  unfold at_.
  replace (Z.to_nat (4 * Z.of_nat j)) with (4 * j)%nat by lia.
  replace (Z.to_nat (4 * Z.of_nat j + 1)) with (4 * j + 1)%nat by lia.
  replace (Z.to_nat (4 * Z.of_nat j + 2)) with (4 * j + 2)%nat by lia.
  replace (Z.to_nat (4 * Z.of_nat j + 3)) with (4 * j + 3)%nat by lia.
  reflexivity.
Qed.

End Llr16.

(** The code's formulas and the specification's, in real arithmetic. *)
Lemma lse2_spec (a b : R) : lse2 (D := R) a b = spec_lse2 a b.
Proof.
  unfold lse2, spec_lse2, d_max. cbn. unfold R_ltb.
  destruct (Rlt_dec a b) as [Hlt|Hge].
  - rewrite Rmax_right by lra. rewrite Rabs_left by lra.
    replace (b - b)%R with 0%R by lra. rewrite exp_0.
    replace (- - (a - b))%R with (a - b)%R by lra.
    rewrite (Rplus_comm (exp (a - b)) 1). reflexivity.
  - rewrite Rmax_left by lra. rewrite Rabs_right by lra.
    replace (a - a)%R with 0%R by lra. rewrite exp_0.
    replace (- (a - b))%R with (b - a)%R by lra. reflexivity.
Qed.

Lemma fill_llrs_spec (n0 x : R) :
  fill_llrs (D := R) n0 x = (spec_msb_llr n0 x, spec_lsb_llr n0 x).
Proof.
  unfold fill_llrs, spec_msb_llr, spec_lsb_llr. cbv zeta. cbn [map nth].
  rewrite !lse2_spec. unfold spec_metric, spec_levels. cbn.
  assert (Hm : forall l : R,
            (- ((x - l) * (x - l)) / n0)%R = (- ((x - l) * ((x - l) * 1) / n0))%R)
    by (intros l; unfold Rdiv; ring).
  rewrite !Hm. reflexivity.
Qed.

Lemma qam16_symbol_llrs_spec (n0 : R) (sym : R * R) :
  qam16_symbol_llrs (D := R) n0 sym = spec_symbol_llrs n0 sym.
Proof.
  unfold qam16_symbol_llrs, spec_symbol_llrs, scale_16qam. cbv zeta. cbn [M_SQRT10_INV ideal d_div].
  assert (Hs : forall v : R, (v / / sqrt 10)%R = (v * sqrt 10)%R).
  { intros v. unfold Rdiv. rewrite Rinv_inv. reflexivity. }
  rewrite !Hs, !fill_llrs_spec. reflexivity.
Qed.

Section Llr16Roles.
Context {D : Type} `{Double D} `{Libm D}.

Lemma fill_llrs_roles (n0 x : D) :
  fill_llrs n0 x = (bit_llr n0 Msb x, bit_llr n0 Lsb x).
Proof. reflexivity. Qed.

Lemma qam16_symbol_llrs_roles (n0 : D) (sym : cdouble D) :
  qam16_symbol_llrs n0 sym
  = map (fun r => bit_llr n0 (role_of r) (d_div (axis_of r sym) scale_16qam))
      [0; 1; 2; 3]%nat.
Proof. reflexivity. Qed.

Lemma gray_levels :
  [get_level false false; get_level false true;
   get_level true false; get_level true true]
  = [of_int 3; of_int 1; of_int (-3); of_int (-1)] :> list D.
Proof. reflexivity. Qed.

Lemma map_coded_symbols_roles (coded : list bool) (k j r : nat) :
  length coded = (4 * k)%nat -> (j < k)%nat -> (r < 4)%nat ->
  axis_of r (nth j (map_coded_symbols 16 coded (Z.of_nat (length coded)))
               (m_zero, m_zero))
  = d_mul (level_with (role_of r) (nth (4 * j + r) coded false)
             (nth (4 * j + partner_of r) coded false)) scale_16qam.
Proof.
  intros Hlen Hj Hr. rewrite (map_coded_symbols_qam16 coded k Hlen).
  set (f := fun j0 : nat => _).
  rewrite (nth_indep _ _ (f 0%nat)) by (rewrite length_map, length_seq; exact Hj).
  rewrite map_nth, seq_nth by exact Hj. subst f. cbn [Nat.add].
  destruct r as [|[|[|[|r]]]]; [| | |  |lia]; cbn [axis_of Nat.even fst snd];
    unfold role_of, partner_of, level_with; cbn [Nat.ltb Nat.leb Nat.add Nat.modulo];
    rewrite ?Nat.add_0_r; reflexivity.
Qed.

End Llr16Roles.

Lemma log_sum_exp_spec (a b : R) : log_sum_exp (D := R) a b = spec_lse2 a b.
Proof. exact (lse2_spec a b). Qed.

Lemma bit_llr_spec (n0 x : R) :
  bit_llr (D := R) n0 Msb x = spec_msb_llr n0 x
  /\ bit_llr (D := R) n0 Lsb x = spec_lsb_llr n0 x.
Proof.
  pose proof (fill_llrs_spec n0 x) as Hspec.
  rewrite (fill_llrs_roles (D := R)) in Hspec.
  apply pair_equal_spec in Hspec. exact Hspec.
Qed.

(** C5. On the 16-QAM coded path, for every received symbol the LLR
    generator divides each axis by 1 / sqrt 10, computes the metrics
    -(x - l)^2 / N0 over the levels of the Gray table
    (00 -> +3, 01 -> +1, 10 -> -3, 11 -> -1), sets the LLR of the msb
    (lsb) to minus the difference of the log-sum-exp over the two levels
    whose msb (lsb) is 0 and the log-sum-exp over the two levels whose msb
    (lsb) is 1, and writes the four LLRs in the order
    (msb_I, msb_Q, lsb_I, lsb_Q).  This is the order in which the mapper
    of the same path consumed the coded bits: position r of a group of
    four went to the axis and the role whose LLR is written at position r.
    All this holds in any arithmetic, binary64 included; in real
    arithmetic the LLRs are those the specification writes with
    lse2(a, b) = max(a, b) + log(1 + exp(-|a - b|)), and dividing by
    1 / sqrt 10 is multiplying by sqrt 10. *)
Theorem qam16_llr_order {D : Type} `{Double D} `{Libm D} (n0 : D)
    (received : list (cdouble D)) (coded : list bool) (k : nat) :
  generate_llr 16 n0 received (4 * Z.of_nat (length received))
  = flat_map (fun sym =>
      map (fun r => bit_llr n0 (role_of r) (d_div (axis_of r sym) scale_16qam))
        [0; 1; 2; 3]%nat) received
  /\ (length coded = (4 * k)%nat ->
      length (map_coded_symbols 16 coded (Z.of_nat (length coded))) = k
      /\ forall j r, (j < k)%nat -> (r < 4)%nat ->
           axis_of r (nth j (map_coded_symbols 16 coded (Z.of_nat (length coded)))
                        (m_zero, m_zero))
           = d_mul (level_with (role_of r) (nth (4 * j + r) coded false)
                      (nth (4 * j + partner_of r) coded false)) scale_16qam)
  /\ [level_with Msb false false; level_with Msb false true;
      level_with Msb true false; level_with Msb true true]
     = [of_int 3; of_int 1; of_int (-3); of_int (-1)] :> list D
  /\ (forall (n0 x : R),
        bit_llr (D := R) n0 Msb x = spec_msb_llr n0 x
        /\ bit_llr (D := R) n0 Lsb x = spec_lsb_llr n0 x
        /\ d_div (D := R) x scale_16qam = (x * sqrt 10)%R).
Proof.
  split; [|split; [|split]].
  - rewrite generate_llr_qam16. reflexivity.
  - intros Hlen. split.
    + rewrite (map_coded_symbols_qam16 coded k Hlen), length_map, length_seq.
      reflexivity.
    + intros j r Hj Hr. exact (map_coded_symbols_roles coded k j r Hlen Hj Hr).
  - exact gray_levels.
  - intros n0' x. destruct (bit_llr_spec n0' x) as [Hm Hl].
    split; [exact Hm|]. split; [exact Hl|].
    unfold scale_16qam. cbn [M_SQRT10_INV ideal d_div].
    unfold Rdiv. rewrite Rinv_inv. reflexivity.
Qed.
